(** * The polling state machine of the device provisioning client

    A shallow embedding of [provisioning/device/src/polling_state_machine.ts]:
    the [machina] finite-state machine that drives a registration request,
    polls the provisioning service while the registration is being assigned,
    and unwinds every failed or cancelled attempt through one disconnect
    sequence.

    The machine is written in a state, writer and exception monad over a
    [World]: the fields of the [PollingStateMachine] object, the part of
    machina's bookkeeping the handlers depend on (current state, replay
    target, deferred inputs), and the obligations the machine has handed to
    its environment (timers started with [setTimeout], completions passed to
    the transport).  What the machine does to the outside (transport calls,
    caller callbacks, emitted events) is recorded as a list of [Effect]s.

    What is taken for granted about the environment:
    - caller callbacks and the listeners of emitted events return without
      calling back into the machine (what a call made from a listener
      meets is stated apart, on the world in the middle of a transition);
    - a transport operation returns before it completes, and the transport
      calls each completion at most once; a completion and an elapsed timer
      are [Event]s of their own;
    - a timer that was cleared does not fire;
    - strings are sequences of 8-bit characters, of which only [A]-[Z] have
      a lower case of their own.
    Debug output is not modelled, apart from the transition notification
    machina raises on every change of state and from the one argument of a
    [debug] call whose evaluation can throw: [JSON.stringify(body)] at
    line 79, which rejects a body that holds a [BigInt] or contains itself.
    A [ResponseBody] is a body that [JSON.stringify] accepts; a response
    with a body that it rejects is an event of its own. *)

From Stdlib Require Import List String Ascii Bool Arith Lia Permutation.
Import ListNotations.
Open Scope string_scope.
Open Scope list_scope.

(** ** Values that travel through the machine *)

(** A property of a response body that the code reads as a string: it may
    be missing ([undefined]), [null], a string, or another value that JSON
    can hold (a number, a boolean, an array, an object), of which the
    machine sees only that it is no string. *)
Inductive JsValue : Type :=
| JsUndefined
| JsNull
| JsStr (s : string)
| JsOther (tag : nat).

(** The body of a transport response, as far as the machine looks into it. *)
Record ResponseBody : Type := mkBody {
  status : JsValue;
  operationId : JsValue
}.

(** The protocol-specific result object; opaque to the machine. *)
Inductive ProtocolResult : Type := protocol_result (tag : nat).

Record RegistrationRequest : Type := mkRequest {
  registrationId : string
}.

(** The body of a registration request; opaque to the machine. *)
Inductive RequestBody : Type := request_body (tag : nat).

(** A caller's callback, known by its identity only ([===] on functions). *)
Abbreviation Callback := nat (only parsing).

Inductive Error : Type :=
| TransportError (code : nat)
| InvalidOperationError (message : string)
| DeviceRegistrationFailedError (message : string)
    (result : option ProtocolResult) (body : ResponseBody)
| SyntaxError (message : string)
    (result : option ProtocolResult) (body : ResponseBody)
| OperationCancelledError (message : string).

(** What a handler can throw: reading a property of, or calling a method
    on, [undefined] or [null]. *)
Inductive JsException : Type := TypeError.

(** The lower case of [A]-[Z]; every other character is left alone. *)
Definition lowerChar (c : ascii) : ascii :=
  let n := nat_of_ascii c in
  if ((65 <=? n) && (n <=? 90))%nat then ascii_of_nat (n + 32) else c.

(** [String.prototype.toLowerCase], on the strings of the model. *)
Fixpoint toLowerCase (s : string) : string :=
  match s with
  | EmptyString => EmptyString
  | String c s' => String (lowerChar c) (toLowerCase s')
  end.

(** ** The machine's states, entries and inputs *)

Inductive StateName : Type :=
| disconnected
| idle
| sendingRegistrationRequest
| responseReceived
| responseComplete
| responseError
| waitingToPoll
| polling
| endingSession.

Definition StateName_eqb (a b : StateName) : bool :=
  match a, b with
  | disconnected, disconnected
  | idle, idle
  | sendingRegistrationRequest, sendingRegistrationRequest
  | responseReceived, responseReceived
  | responseComplete, responseComplete
  | responseError, responseError
  | waitingToPoll, waitingToPoll
  | polling, polling
  | endingSession, endingSession => true
  | _, _ => false
  end.

(** A call [this._fsm.transition(name, args...)]: the target state with the
    arguments its [_onEnter] receives.  [responseReceived] is entered with
    the response of the transport: with its error and a body that
    [JSON.stringify] accepts, if it has one, or with no error and a body
    that [JSON.stringify] rejects. *)
Inductive Entry : Type :=
| enter_disconnected (err : option Error) (body : option ResponseBody)
    (result : option ProtocolResult) (callback : option Callback)
| enter_idle (err : option Error) (body : option ResponseBody)
    (result : option ProtocolResult) (callback : Callback)
| enter_sendingRegistrationRequest (request : RegistrationRequest)
    (requestBody : RequestBody) (callback : Callback)
| enter_responseReceived (err : option Error) (request : RegistrationRequest)
    (body : option ResponseBody) (result : option ProtocolResult)
    (pollingInterval : option nat) (callback : Callback)
| enter_responseReceived_unserialisable (request : RegistrationRequest)
    (result : option ProtocolResult) (pollingInterval : option nat)
    (callback : Callback)
| enter_responseComplete (body : ResponseBody)
    (result : option ProtocolResult) (callback : Callback)
| enter_responseError (err : Error) (body : option ResponseBody)
    (result : option ProtocolResult) (callback : Callback)
| enter_waitingToPoll (request : RegistrationRequest) (operationId : JsValue)
    (pollingInterval : option nat) (callback : Callback)
| enter_polling (request : RegistrationRequest) (operationId : JsValue)
    (pollingInterval : option nat) (callback : Callback)
| enter_endingSession (err : option Error) (body : option ResponseBody)
    (result : option ProtocolResult) (callback : Callback).

Definition target (e : Entry) : StateName :=
  match e with
  | enter_disconnected _ _ _ _ => disconnected
  | enter_idle _ _ _ _ => idle
  | enter_sendingRegistrationRequest _ _ _ => sendingRegistrationRequest
  | enter_responseReceived _ _ _ _ _ _ => responseReceived
  | enter_responseReceived_unserialisable _ _ _ _ => responseReceived
  | enter_responseComplete _ _ _ => responseComplete
  | enter_responseError _ _ _ _ => responseError
  | enter_waitingToPoll _ _ _ _ => waitingToPoll
  | enter_polling _ _ _ _ => polling
  | enter_endingSession _ _ _ _ => endingSession
  end.

(** A call [this._fsm.handle(name, args...)]. *)
Inductive Input : Type :=
| input_register (request : RegistrationRequest) (requestBody : RequestBody)
    (callback : Callback)
| input_endSession (err : option Error) (body : option ResponseBody)
    (result : option ProtocolResult) (callback : Callback).

(** ** Closures handed to the environment *)

(** The completion functions the machine passes to the transport, with the
    variables they capture. *)
Inductive Completion : Type :=
| registrationCompletion (request : RegistrationRequest) (callback : Callback)
| queryCompletion (request : RegistrationRequest) (callback : Callback)
| endSessionCompletion (err : option Error) (body : option ResponseBody)
    (result : option ProtocolResult) (callback : Callback).

(** The function passed to [setTimeout] in [waitingToPoll]. *)
Record TimerClosure : Type := mkTimer {
  timer_request : RegistrationRequest;
  timer_operationId : JsValue;
  timer_pollingInterval : option nat;
  timer_callback : Callback
}.

(** ** Effects and the world *)

(** What the machine does to the outside: a call of a transport operation
    (with the handle under which its completion is held), [setTimeout] and
    [clearTimeout], [this.emit('operationStatus', body)], a call
    [callback(err, body, result)] of a caller's callback, and the
    ['transition'] event of machina. *)
Inductive Effect : Type :=
| CallRegistrationRequest (id : nat) (request : RegistrationRequest)
    (requestBody : RequestBody)
| CallQueryOperationStatus (id : nat) (request : RegistrationRequest)
    (operationId : JsValue)
| CallEndSession (id : nat)
| SetTimeout (handle : nat) (delay : option nat)
| ClearTimeout (handle : option nat)
| EmitOperationStatus (body : ResponseBody)
| Resolve (callback : Callback) (err : option Error)
    (body : option ResponseBody) (result : option ProtocolResult)
| Transitioned (fromState toState : StateName).

(** The machine and its environment between two events. *)
Record World : Type := mkWorld {
  (* machina *)
  state : StateName;
  targetReplayState : StateName;
  inputQueue : list Input;
  (* PollingStateMachine *)
  _pollingTimer : option nat;
  _currentOperationCallback : option Callback;
  (* scheduler and transport *)
  timers : list (nat * TimerClosure);
  calls : list (nat * Completion);
  nextHandle : nat
}.

(** The machine after its constructor: machina has entered the initial
    state [disconnected] with no arguments. *)
Definition initial : World :=
  mkWorld disconnected disconnected [] None None [] [] 0.

Inductive Outcome (A : Type) : Type :=
| Returned (a : A)
| Threw (e : JsException)
| OutOfFuel.
Arguments Returned {A} a.
Arguments Threw {A} e.
Arguments OutOfFuel {A}.

Definition M (A : Type) : Type := World -> World * list Effect * Outcome A.

Definition ret {A} (a : A) : M A := fun w => (w, [], Returned a).

Definition bind {A B} (m : M A) (k : A -> M B) : M B :=
  fun w =>
    match m w with
    | (w1, l1, Returned a) =>
        match k a w1 with
        | (w2, l2, o) => (w2, l1 ++ l2, o)
        end
    | (w1, l1, Threw e) => (w1, l1, Threw e)
    | (w1, l1, OutOfFuel) => (w1, l1, OutOfFuel)
    end.

Declare Scope machine_scope.
Delimit Scope machine_scope with machine.
Notation "x <- m ;; k" := (bind m (fun x => k))
  (at level 61, m at next level, right associativity) : machine_scope.
Notation "m ;; k" := (bind m (fun _ => k))
  (at level 61, right associativity) : machine_scope.
Open Scope machine_scope.

Definition gets {A} (f : World -> A) : M A := fun w => (w, [], Returned (f w)).
Definition modify (f : World -> World) : M unit := fun w => (f w, [], Returned tt).
Definition tell (e : Effect) : M unit := fun w => (w, [e], Returned tt).
Definition throw {A} (e : JsException) : M A := fun w => (w, [], Threw e).
Definition outOfFuel {A} : M A := fun w => (w, [], OutOfFuel).

Definition set_state (s : StateName) (w : World) : World :=
  mkWorld s (targetReplayState w) (inputQueue w) (_pollingTimer w)
    (_currentOperationCallback w) (timers w) (calls w) (nextHandle w).
Definition set_targetReplayState (s : StateName) (w : World) : World :=
  mkWorld (state w) s (inputQueue w) (_pollingTimer w)
    (_currentOperationCallback w) (timers w) (calls w) (nextHandle w).
Definition set_inputQueue (q : list Input) (w : World) : World :=
  mkWorld (state w) (targetReplayState w) q (_pollingTimer w)
    (_currentOperationCallback w) (timers w) (calls w) (nextHandle w).
Definition set_pollingTimer (t : option nat) (w : World) : World :=
  mkWorld (state w) (targetReplayState w) (inputQueue w) t
    (_currentOperationCallback w) (timers w) (calls w) (nextHandle w).
Definition set_currentOperationCallback (c : option Callback) (w : World) : World :=
  mkWorld (state w) (targetReplayState w) (inputQueue w) (_pollingTimer w)
    c (timers w) (calls w) (nextHandle w).
Definition set_timers (t : list (nat * TimerClosure)) (w : World) : World :=
  mkWorld (state w) (targetReplayState w) (inputQueue w) (_pollingTimer w)
    (_currentOperationCallback w) t (calls w) (nextHandle w).
Definition set_calls (c : list (nat * Completion)) (w : World) : World :=
  mkWorld (state w) (targetReplayState w) (inputQueue w) (_pollingTimer w)
    (_currentOperationCallback w) (timers w) c (nextHandle w).
Definition set_nextHandle (n : nat) (w : World) : World :=
  mkWorld (state w) (targetReplayState w) (inputQueue w) (_pollingTimer w)
    (_currentOperationCallback w) (timers w) (calls w) n.

(** ** The environment: transport and scheduler *)

(** The next handle, for a timer or for a call of the transport. *)
Definition fresh : M nat :=
  n <- gets nextHandle ;;
  modify (set_nextHandle (S n)) ;;
  ret n.

(** [this._transport.registrationRequest(request, requestBody, completion)] *)
Definition transport_registrationRequest (request : RegistrationRequest)
    (requestBody : RequestBody) (k : Completion) : M unit :=
  id <- fresh ;;
  modify (fun w => set_calls (calls w ++ [(id, k)]) w) ;;
  tell (CallRegistrationRequest id request requestBody).

(** [this._transport.queryOperationStatus(request, operationId, completion)] *)
Definition transport_queryOperationStatus (request : RegistrationRequest)
    (opId : JsValue) (k : Completion) : M unit :=
  id <- fresh ;;
  modify (fun w => set_calls (calls w ++ [(id, k)]) w) ;;
  tell (CallQueryOperationStatus id request opId).

(** [this._transport.endSession(completion)] *)
Definition transport_endSession (k : Completion) : M unit :=
  id <- fresh ;;
  modify (fun w => set_calls (calls w ++ [(id, k)]) w) ;;
  tell (CallEndSession id).

(** [setTimeout(closure, delay)], returning the timer's handle. *)
Definition setTimeout (c : TimerClosure) (delay : option nat) : M nat :=
  h <- fresh ;;
  modify (fun w => set_timers (timers w ++ [(h, c)]) w) ;;
  tell (SetTimeout h delay) ;;
  ret h.

(** The closures held under handles: dropping and finding one. *)
Definition remove_handle {A} (h : nat) (l : list (nat * A)) : list (nat * A) :=
  filter (fun p => negb (Nat.eqb (fst p) h)) l.

Definition lookup_handle {A} (h : nat) (l : list (nat * A)) : option A :=
  match find (fun p => Nat.eqb (fst p) h) l with
  | Some p => Some (snd p)
  | None => None
  end.

(** [clearTimeout(handle)]: a cleared timer never fires. *)
Definition clearTimeout (h : option nat) : M unit :=
  match h with
  | Some n => modify (fun w => set_timers (remove_handle n (timers w)) w)
  | None => ret tt
  end ;;
  tell (ClearTimeout h).

(** [===] on a callback or [null]. *)
Definition option_nat_eqb (a b : option nat) : bool :=
  match a, b with
  | Some x, Some y => Nat.eqb x y
  | None, None => true
  | _, _ => false
  end.

(** ** The states of the machine (lines 27-180) *)

(** [err || disconnectErr] *)
Definition js_or (err disconnectErr : option Error) : option Error :=
  match err with
  | Some e => Some e
  | None => disconnectErr
  end.

Section Handlers.

(** [this._fsm.transition], as the handlers and the completions call it. *)
Variable transition : Entry -> M unit.

(** The completion passed to [registrationRequest] (lines 59-66) and to
    [queryOperationStatus] (lines 150-157). *)
Definition onResponse (request : RegistrationRequest) (callback : Callback)
    (err : option Error) (body : option ResponseBody)
    (result : option ProtocolResult) (pollingInterval : option nat) : M unit :=
  current <- gets _currentOperationCallback ;;
  if option_nat_eqb current (Some callback)
  then transition (enter_responseReceived err request body result pollingInterval callback)
  else ret tt.

(** The same completion, called with no error and a body that
    [JSON.stringify] rejects. *)
Definition onUnserialisableResponse (request : RegistrationRequest)
    (callback : Callback) (result : option ProtocolResult)
    (pollingInterval : option nat) : M unit :=
  current <- gets _currentOperationCallback ;;
  if option_nat_eqb current (Some callback)
  then transition (enter_responseReceived_unserialisable request result pollingInterval
                     callback)
  else ret tt.

(** The completion passed to [endSession] (lines 171-176). *)
Definition onSessionEnded (err : option Error) (body : option ResponseBody)
    (result : option ProtocolResult) (callback : Callback)
    (disconnectErr : option Error) : M unit :=
  transition (enter_disconnected (js_or err disconnectErr) body result (Some callback)).

(** The function passed to [setTimeout] (lines 135-137). *)
Definition onTimer (c : TimerClosure) : M unit :=
  transition (enter_polling (timer_request c) (timer_operationId c)
                (timer_pollingInterval c) (timer_callback c)).

(** The [_onEnter] of each state. *)
Definition onEnter (e : Entry) : M unit :=
  match e with
  | enter_disconnected err body result callback =>
      modify (set_currentOperationCallback None) ;;
      match callback with
      | Some cb => tell (Resolve cb err body result)
      | None => ret tt
      end
  | enter_idle err body result callback =>
      tell (Resolve callback err body result)
  | enter_sendingRegistrationRequest request requestBody callback =>
      modify (set_currentOperationCallback (Some callback)) ;;
      transport_registrationRequest request requestBody
        (registrationCompletion request callback)
  | enter_responseReceived err request body result pollingInterval callback =>
      match err with
      | Some e => transition (enter_responseError e body result callback)
      | None =>
          (* line 79: [JSON.stringify(body)] returns, on no body as well *)
          match body with
          | None => throw TypeError
          | Some b =>
              match status b with
              | JsUndefined | JsNull | JsOther _ => throw TypeError
              | JsStr s =>
                  let lower := toLowerCase s in
                  if String.eqb lower "assigned" then
                    transition (enter_responseComplete b result callback)
                  else if String.eqb lower "assigning" then
                    tell (EmitOperationStatus b) ;;
                    transition (enter_waitingToPoll request (operationId b)
                                  pollingInterval callback)
                  else if String.eqb lower "failed" then
                    transition (enter_responseError
                      (DeviceRegistrationFailedError "registration failed" result b)
                      body result callback)
                  else
                    transition (enter_responseError
                      (SyntaxError ("status is " ++ s)%string result b)
                      body result callback)
              end
          end
      end
  | enter_responseReceived_unserialisable request result pollingInterval callback =>
      (* line 79: [JSON.stringify(body)] throws, before the status is read *)
      throw TypeError
  | enter_responseComplete body result callback =>
      modify (set_currentOperationCallback None) ;;
      tell (EmitOperationStatus body) ;;
      transition (enter_idle None (Some body) result callback)
  | enter_responseError err body result callback =>
      modify (set_currentOperationCallback None) ;;
      transition (enter_endingSession (Some err) body result callback)
  | enter_waitingToPoll request opId pollingInterval callback =>
      h <- setTimeout (mkTimer request opId pollingInterval callback) pollingInterval ;;
      modify (set_pollingTimer (Some h))
  | enter_polling request opId pollingInterval callback =>
      transport_queryOperationStatus request opId (queryCompletion request callback)
  | enter_endingSession err body result callback =>
      current <- gets _currentOperationCallback ;;
      match current with
      | Some _callback =>
          modify (set_currentOperationCallback None) ;;
          tell (Resolve _callback (Some (OperationCancelledError "")) None None)
      | None => ret tt
      end ;;
      transport_endSession (endSessionCompletion err body result callback)
  end.

(** [this._fsm.deferUntilTransition()]: the input being handled is queued
    and replayed after the next transition. *)
Definition deferUntilTransition (i : Input) : M unit :=
  modify (fun w => set_inputQueue (inputQueue w ++ [i]) w).

(** [callback(new errors.InvalidOperationError('another operation is in
    progress'))] *)
Definition inProgress (callback : Callback) : M unit :=
  tell (Resolve callback
          (Some (InvalidOperationError "another operation is in progress"))
          None None).

(** The input handlers of each state. *)
Definition handler (s : StateName) (i : Input) : M unit :=
  match s, i with
  | disconnected, input_register request requestBody callback =>
      transition (enter_sendingRegistrationRequest request requestBody callback)
  | disconnected, input_endSession err body result callback =>
      tell (Resolve callback None None None)
  | idle, input_endSession err body result callback =>
      transition (enter_endingSession err body result callback)
  | idle, input_register request requestBody callback =>
      transition (enter_sendingRegistrationRequest request requestBody callback)
  | sendingRegistrationRequest, input_endSession err body result callback =>
      transition (enter_endingSession err body result callback)
  | sendingRegistrationRequest, input_register request requestBody callback =>
      inProgress callback
  | waitingToPoll, input_endSession err body result callback =>
      t <- gets _pollingTimer ;;
      clearTimeout t ;;
      modify (set_pollingTimer None) ;;
      transition (enter_endingSession err body result callback)
  | waitingToPoll, input_register request requestBody callback =>
      inProgress callback
  | polling, input_endSession err body result callback =>
      transition (enter_endingSession err body result callback)
  | polling, input_register request requestBody callback =>
      inProgress callback
  | responseReceived, _
  | responseComplete, _
  | responseError, _
  | endingSession, _ => deferUntilTransition i
  end.

(** [this._fsm.handle(input)]: the handler of the current state. *)
Definition handle (i : Input) : M unit :=
  s <- gets state ;;
  handler s i.

End Handlers.

(** ** machina: transitions and the replay of deferred inputs *)

Fixpoint forEach {A} (f : A -> M unit) (l : list A) : M unit :=
  match l with
  | [] => ret tt
  | a :: l' => f a ;; forEach f l'
  end.

(** [processQueue]: every deferred input is taken off the queue, then
    handled in order. *)
Definition processQueue (handle : Input -> M unit) : M unit :=
  toProcess <- gets inputQueue ;;
  modify (set_inputQueue []) ;;
  forEach handle toProcess.

(** The body of machina's [transition], with [self] for the calls the
    handlers make back into it: nothing happens when the machine is already
    in the target state; otherwise the state changes, the target's
    [_onEnter] runs, and the deferred inputs are replayed unless [_onEnter]
    moved on to another state. *)
Definition transitionWith (self : Entry -> M unit) (e : Entry) : M unit :=
  curState <- gets state ;;
  let newState := target e in
  if StateName_eqb newState curState then ret tt
  else
    modify (set_targetReplayState newState) ;;
    modify (set_state newState) ;;
    tell (Transitioned curState newState) ;;
    onEnter self e ;;
    replay <- gets targetReplayState ;;
    if StateName_eqb replay newState
    then processQueue (handle self)
    else ret tt.

(** [this._fsm.transition]; the recursion through [_onEnter] and through
    the replayed handlers is bounded by [fuel]. *)
Fixpoint transition (fuel : nat) (e : Entry) : M unit :=
  match fuel with
  | O => outOfFuel
  | S fuel' => transitionWith (transition fuel') e
  end.

(** ** Events: what callers, the transport and the scheduler do *)

(** [register] or [endSession] is called, a timer elapses, or the
    transport calls the completion it was given with call [id]: that of a
    registration request or a status query with the response
    ([TransportReplied]; [TransportRepliedUnserialisable] when the response
    has no error and a body that [JSON.stringify] rejects), that of
    [endSession] with the error of the disconnection, if any. *)
Inductive Event : Type :=
| Register (request : RegistrationRequest) (requestBody : RequestBody)
    (callback : Callback)
| EndSession (callback : Callback)
| TimerElapsed (handle : nat)
| TransportReplied (id : nat) (err : option Error) (body : option ResponseBody)
    (result : option ProtocolResult) (pollingInterval : option nat)
| TransportRepliedUnserialisable (id : nat) (result : option ProtocolResult)
    (pollingInterval : option nat)
| TransportSessionEnded (id : nat) (disconnectErr : option Error).

(** Enough for every event in every world ([step_never_out_of_fuel]). *)
Definition fuel : nat := 8.

(** One event: a public method of [PollingStateMachine] is called
    (lines 188-196), a timer fires, or the transport calls one of the
    completions it holds, which then leaves its list. *)
Definition step (ev : Event) : M unit :=
  match ev with
  | Register request requestBody callback =>
      handle (transition fuel) (input_register request requestBody callback)
  | EndSession callback =>
      handle (transition fuel) (input_endSession None None None callback)
  | TimerElapsed h =>
      pending <- gets timers ;;
      match lookup_handle h pending with
      | Some c =>
          modify (set_timers (remove_handle h pending)) ;;
          onTimer (transition fuel) c
      | None => ret tt
      end
  | TransportReplied id err body result pollingInterval =>
      pending <- gets calls ;;
      match lookup_handle id pending with
      | Some (registrationCompletion request callback)
      | Some (queryCompletion request callback) =>
          modify (set_calls (remove_handle id pending)) ;;
          onResponse (transition fuel) request callback err body result pollingInterval
      | _ => ret tt
      end
  | TransportRepliedUnserialisable id result pollingInterval =>
      pending <- gets calls ;;
      match lookup_handle id pending with
      | Some (registrationCompletion request callback)
      | Some (queryCompletion request callback) =>
          modify (set_calls (remove_handle id pending)) ;;
          onUnserialisableResponse (transition fuel) request callback result
            pollingInterval
      | _ => ret tt
      end
  | TransportSessionEnded id disconnectErr =>
      pending <- gets calls ;;
      match lookup_handle id pending with
      | Some (endSessionCompletion err body result callback) =>
          modify (set_calls (remove_handle id pending)) ;;
          onSessionEnded (transition fuel) err body result callback disconnectErr
      | _ => ret tt
      end
  end.

(** A run: the events are delivered in order; a throwing handler ends the
    delivery of its event only. *)
Fixpoint run (evs : list Event) (w : World) : World * list Effect :=
  match evs with
  | [] => (w, [])
  | ev :: evs' =>
      match step ev w with
      | (w1, l1, _) =>
          match run evs' w1 with
          | (w2, l2) => (w2, l1 ++ l2)
          end
      end
  end.

(** ** Vocabulary of the statements *)

Definition world_of {A} (r : World * list Effect * Outcome A) : World := fst (fst r).
Definition effects_of {A} (r : World * list Effect * Outcome A) : list Effect := snd (fst r).
Definition outcome_of {A} (r : World * list Effect * Outcome A) : Outcome A := snd r.

(** The states in which a registration attempt waits for the transport or
    for the scheduler. *)
Definition in_flight (s : StateName) : bool :=
  match s with
  | sendingRegistrationRequest | waitingToPoll | polling => true
  | _ => false
  end.

(** The states whose only handler is ['*': deferUntilTransition]. *)
Definition deferring (s : StateName) : bool :=
  match s with
  | responseReceived | responseComplete | responseError | endingSession => true
  | _ => false
  end.

(** [k] is the completion of a registration request or of a status query
    issued for [request] on behalf of [callback]. *)
Definition response_completion (k : Completion) (request : RegistrationRequest)
    (callback : Callback) : Prop :=
  k = registrationCompletion request callback \/ k = queryCompletion request callback.

(** The machine waits for the transport's response to call [id], which
    was issued for the current attempt of [callback], and nothing is
    deferred. *)
Definition awaiting_response (w : World) (id : nat)
    (request : RegistrationRequest) (callback : Callback) : Prop :=
  (state w = sendingRegistrationRequest \/ state w = polling)
  /\ _currentOperationCallback w = Some callback
  /\ inputQueue w = []
  /\ exists k, lookup_handle id (calls w) = Some k
             /\ response_completion k request callback.

(** The world once an attempt has been handed to [endingSession] with the
    arguments [err], [body], [result], [callback]. *)
Definition ending (w : World) (pending : list (nat * Completion))
    (err : option Error) (body : option ResponseBody)
    (result : option ProtocolResult) (callback : Callback) : World :=
  mkWorld endingSession endingSession [] (_pollingTimer w) None (timers w)
    (pending ++ [(nextHandle w, endSessionCompletion err body result callback)])
    (S (nextHandle w)).

(** The events that are calls of the public methods. *)
Definition is_call (ev : Event) : bool :=
  match ev with
  | Register _ _ _ | EndSession _ => true
  | _ => false
  end.

(** Every outstanding transport call has a handle below the next one. *)
Definition handles_below (w : World) : Prop :=
  forall p, In p (calls w) -> fst p < nextHandle w.

(** What entering [endingSession] does to an attempt that is in flight. *)
Definition cancellation (w : World) : list Effect :=
  match _currentOperationCallback w with
  | Some cb => [Resolve cb (Some (OperationCancelledError "")) None None]
  | None => []
  end.

(** What [endSession] does to the timer of [waitingToPoll]. *)
Definition timer_cleared (w : World) : list Effect :=
  match state w with
  | waitingToPoll => [ClearTimeout (_pollingTimer w)]
  | _ => []
  end.

(** The scheduler's timers once [endSession] has been handled. *)
Definition timers_after_endSession (w : World) : list (nat * TimerClosure) :=
  match state w, _pollingTimer w with
  | waitingToPoll, Some h => remove_handle h (timers w)
  | _, _ => timers w
  end.

(** [this._pollingTimer] once [endSession] has been handled. *)
Definition pollingTimer_after_endSession (w : World) : option nat :=
  match state w with
  | waitingToPoll => None
  | _ => _pollingTimer w
  end.

(** [e] is a call of [callback]. *)
Definition resolves (callback : Callback) (e : Effect) : bool :=
  match e with
  | Resolve cb _ _ _ => Nat.eqb cb callback
  | _ => false
  end.

(** How often [callback] is called in a list of effects. *)
Definition resolutions (callback : Callback) (l : list Effect) : nat :=
  List.length (filter (resolves callback) l).

(** An event that terminates the attempt of [callback] with error [e]: a
    transport error, a response with status "failed", a response with a
    status that is none of the three known ones, or a cancellation by
    [endSession]. *)
Inductive attempt_ends (w : World) (callback : Callback) : Event -> Error -> Prop :=
| ends_by_transport_error id request e body result pollingInterval :
    awaiting_response w id request callback ->
    attempt_ends w callback (TransportReplied id (Some e) body result pollingInterval) e
| ends_by_failed_status id request b s result pollingInterval :
    awaiting_response w id request callback ->
    status b = JsStr s ->
    toLowerCase s = "failed"%string ->
    attempt_ends w callback (TransportReplied id None (Some b) result pollingInterval)
      (DeviceRegistrationFailedError "registration failed" result b)
| ends_by_unknown_status id request b s result pollingInterval :
    awaiting_response w id request callback ->
    status b = JsStr s ->
    toLowerCase s <> "assigned"%string ->
    toLowerCase s <> "assigning"%string ->
    toLowerCase s <> "failed"%string ->
    attempt_ends w callback (TransportReplied id None (Some b) result pollingInterval)
      (SyntaxError ("status is " ++ s)%string result b)
| ends_by_cancellation callback2 :
    in_flight (state w) = true ->
    _currentOperationCallback w = Some callback ->
    inputQueue w = [] ->
    callback2 <> callback ->
    attempt_ends w callback (EndSession callback2) (OperationCancelledError "").


(** ** Reachable worlds and their invariant *)

(** The callbacks captured by the outstanding completions of registration
    requests and status queries. *)
Definition captured_callbacks (l : list (nat * Completion)) : list Callback :=
  flat_map (fun p => match snd p with
                     | registrationCompletion _ cb | queryCompletion _ cb => [cb]
                     | endSessionCompletion _ _ _ _ => []
                     end) l.

(** The callbacks carried by the outstanding end-session completions. *)
Definition carried_callbacks (l : list (nat * Completion)) : list Callback :=
  flat_map (fun p => match snd p with
                     | endSessionCompletion _ _ _ cb => [cb]
                     | _ => []
                     end) l.

(** The callbacks of the deferred [register] calls. *)
Definition register_callbacks (q : list Input) : list Callback :=
  flat_map (fun i => match i with
                     | input_register _ _ cb => [cb]
                     | input_endSession _ _ _ _ => []
                     end) q.

(** The operation token, as a list of at most one callback. *)
Definition current_callbacks (w : World) : list Callback :=
  match _currentOperationCallback w with
  | Some cb => [cb]
  | None => []
  end.

(** The caller completions the machine is serving: the callback of the
    attempt in flight, and the callback a teardown in progress will call. *)
Definition pending_calls (w : World) : list Callback :=
  current_callbacks w ++ carried_callbacks (calls w).

(** The callbacks of [register] calls the machine or the transport still
    holds. *)
Definition known_callbacks (w : World) : list Callback :=
  current_callbacks w ++ captured_callbacks (calls w)
    ++ register_callbacks (inputQueue w).

(** An event the environment can produce: a caller brings to [register] a
    callback of its own, not one an earlier call is still known by. *)
Definition admissible (ev : Event) (w : World) : Prop :=
  match ev with
  | Register _ _ callback => ~ In callback (known_callbacks w)
  | _ => True
  end.

(** The worlds the machine can be in when its callers pass a callback of
    its own to every [register]. *)
Inductive reachable : World -> Prop :=
| reachable_initial : reachable initial
| reachable_step w ev :
    reachable w -> admissible ev w -> reachable (world_of (step ev w)).


(** A run in which two [register] calls pass one and the same callback:
    the first attempt is cancelled, the second is assigning when the late
    response of the first arrives, and [endSession] is called before and
    after the poll timer of the second fires. *)
Definition shared_callback_events : list Event :=
  [Register (mkRequest "dev") (request_body 0) 7;
   EndSession 9;
   TransportSessionEnded 1 None;
   Register (mkRequest "dev") (request_body 1) 7;
   TransportReplied 2 None
     (Some (mkBody (JsStr "assigning") (JsStr "op1"))) None (Some 100);
   TransportReplied 0 None
     (Some (mkBody (JsStr "assigned") JsUndefined)) None None;
   EndSession 10;
   TimerElapsed 3;
   EndSession 11].

(** What each resting state implies for the fields of the machine. *)
Definition shape (w : World) : Prop :=
  match state w with
  | disconnected | idle =>
      _currentOperationCallback w = None /\ inputQueue w = []
      /\ timers w = [] /\ carried_callbacks (calls w) = []
  | sendingRegistrationRequest | polling =>
      exists cb, _currentOperationCallback w = Some cb /\ inputQueue w = []
      /\ timers w = [] /\ carried_callbacks (calls w) = []
      /\ count_occ Nat.eq_dec (captured_callbacks (calls w)) cb <= 1
  | waitingToPoll =>
      exists cb h c, _currentOperationCallback w = Some cb /\ inputQueue w = []
      /\ timers w = [(h, c)] /\ _pollingTimer w = Some h
      /\ timer_callback c = cb
      /\ carried_callbacks (calls w) = []
      /\ ~ In cb (captured_callbacks (calls w))
  | responseReceived =>
      exists cb, _currentOperationCallback w = Some cb
      /\ timers w = [] /\ carried_callbacks (calls w) = []
  | endingSession =>
      _currentOperationCallback w = None /\ timers w = []
      /\ exists cb, carried_callbacks (calls w) = [cb]
  | responseComplete | responseError => False
  end.

(** The callbacks [l] of deferred [register] calls are pairwise distinct
    and captured by no outstanding completion. *)
Definition fresh_registers (l : list Callback) (cl : list (nat * Completion)) : Prop :=
  NoDup l /\ forall cb, In cb l -> ~ In cb (captured_callbacks cl).

(** The outstanding transport calls have distinct handles, all below the
    next one. *)
Definition handles_unique (w : World) : Prop :=
  NoDup (map fst (calls w)) /\ handles_below w.

(** The invariant, while the inputs [batch] taken off the queue are still
    to be replayed. *)
Definition consistent_with (batch : list Input) (w : World) : Prop :=
  targetReplayState w = state w
  /\ shape w
  /\ fresh_registers
       (register_callbacks batch ++ register_callbacks (inputQueue w)) (calls w)
  /\ handles_unique w.

(** The invariant between two events. *)
Definition consistent (w : World) : Prop := consistent_with [] w.

(** [m] never runs out of fuel. *)
Definition terminates {A} (m : M A) : Prop :=
  forall w, outcome_of (m w) <> OutOfFuel.

(** Nothing is deferred, unless the machine is in a state that defers. *)
Definition settled (w : World) : Prop :=
  deferring (state w) = true \/ inputQueue w = [].

(** How many transitions an [_onEnter] can nest. *)
Definition rank (e : Entry) : nat :=
  match e with
  | enter_responseReceived _ _ _ _ _ _
  | enter_responseReceived_unserialisable _ _ _ _ => 2
  | enter_responseComplete _ _ _ | enter_responseError _ _ _ _ => 1
  | _ => 0
  end.

(** [m] keeps [I]. *)
Definition preserves (I : World -> Prop) {A} (m : M A) : Prop :=
  forall w, I w -> I (world_of (m w)).

(** The worlds the machine can be in, whatever callbacks its callers
    pass. *)
Inductive reachable_any : World -> Prop :=
| reachable_any_initial : reachable_any initial
| reachable_any_step w ev :
    reachable_any w -> reachable_any (world_of (step ev w)).

(** ** What a run shows to the outside *)

(** The bodies emitted as [operationStatus], in order. *)
Definition emitted (l : list Effect) : list ResponseBody :=
  flat_map (fun e => match e with EmitOperationStatus b => [b] | _ => [] end) l.

(** The delays of the timers started, in order. *)
Definition delays (l : list Effect) : list (option nat) :=
  flat_map (fun e => match e with SetTimeout _ d => [d] | _ => [] end) l.

(** The status queries made: request and operation id, in order. *)
Definition queried (l : list Effect) : list (RegistrationRequest * JsValue) :=
  flat_map (fun e => match e with
                     | CallQueryOperationStatus _ rq op => [(rq, op)]
                     | _ => []
                     end) l.

(** The callbacks called, in order. *)
Definition resolved (l : list Effect) : list Callback :=
  flat_map (fun e => match e with Resolve cb _ _ _ => [cb] | _ => [] end) l.

(** How often [x] occurs in [l]. *)
Definition occ (x : nat) (l : list nat) : nat := count_occ Nat.eq_dec l x.

(** The callbacks of inputs, of both kinds. *)
Definition input_callbacks (q : list Input) : list Callback :=
  map (fun i => match i with
                | input_register _ _ cb => cb
                | input_endSession _ _ _ cb => cb
                end) q.

(** The callbacks the machine owes a call: the callback of the attempt in
    flight, the callback a teardown in progress carries, and the callbacks
    of the deferred inputs, those of [batch] included. *)
Definition held_with (batch : list Input) (w : World) : list Callback :=
  current_callbacks w ++ carried_callbacks (calls w)
    ++ input_callbacks batch ++ input_callbacks (inputQueue w).

Definition held (w : World) : list Callback := held_with [] w.

(** The callbacks the callers passed, in order. *)
Definition call_callbacks (evs : list Event) : list Callback :=
  flat_map (fun ev => match ev with
                      | Register _ _ cb => [cb]
                      | EndSession cb => [cb]
                      | _ => []
                      end) evs.

(** One round of polling: what the service answered to the outstanding
    request. *)
Record Round : Type := mkRound {
  round_body : ResponseBody;
  round_result : option ProtocolResult;
  round_interval : option nat
}.

(** The events of polling rounds: the response to call [id], then the
    elapse of the timer it starts, which has handle [next]; the status
    query made then has handle [S next]. *)
Fixpoint polling_events (id next : nat) (rounds : list Round) : list Event :=
  match rounds with
  | [] => []
  | r :: rounds' =>
      TransportReplied id None (Some (round_body r)) (round_result r) (round_interval r)
        :: TimerElapsed next
        :: polling_events (S next) (S (S next)) rounds'
  end.

(** The handle of the call that is outstanding after the rounds. *)
Fixpoint polling_id (id next : nat) (rounds : list Round) : nat :=
  match rounds with
  | [] => id
  | _ :: rounds' => polling_id (S next) (S (S next)) rounds'
  end.

(** The service answers "assigning", in whatever case. *)
Definition assigning (r : Round) : Prop :=
  exists s, status (round_body r) = JsStr s /\ toLowerCase s = "assigning"%string.

(** Every event of the run is admissible when it comes. *)
Fixpoint admissible_run (evs : list Event) (w : World) : Prop :=
  match evs with
  | [] => True
  | ev :: evs' => admissible ev w /\ admissible_run evs' (world_of (step ev w))
  end.

(** [m] never throws. *)
Definition quiet {A} (m : M A) : Prop :=
  forall w x, outcome_of (m w) <> Threw x.

(** The status of the body is there to be read. *)
Definition has_status (body : option ResponseBody) : Prop :=
  exists b s, body = Some b /\ status b = JsStr s.

(** The callbacks of [register] calls the machine or the transport still
    holds, those of the inputs of [batch] included. *)
Definition known_with (batch : list Input) (w : World) : list Callback :=
  current_callbacks w ++ captured_callbacks (calls w)
    ++ register_callbacks batch ++ register_callbacks (inputQueue w).

(** ** Basic facts *)

Ltac eval_status :=
  repeat match goal with
  | |- context [String.eqb (toLowerCase ?a) ?b] =>
      let v := eval vm_compute in (String.eqb (toLowerCase a) b) in
      change (String.eqb (toLowerCase a) b) with v
  end.

(** Runs the machine on a world whose state is known. *)
Ltac machine_eval :=
  repeat (progress (cbn -[toLowerCase String.eqb]; rewrite ?Nat.eqb_refl; eval_status)).

(** The same, with the handles of timers and calls left as they are. *)
Ltac machine_eval_handles :=
  repeat (progress (cbn -[toLowerCase String.eqb remove_handle lookup_handle];
                    rewrite ?Nat.eqb_refl; eval_status)).

Lemma StateName_eqb_refl (s : StateName) : StateName_eqb s s = true.
Proof. destruct s; reflexivity. Qed.

Lemma StateName_eqb_eq (a b : StateName) : StateName_eqb a b = true <-> a = b.
Proof. split; [destruct a, b; simpl; congruence | intros ->; apply StateName_eqb_refl]. Qed.

Lemma option_nat_eqb_eq (a b : option nat) : option_nat_eqb a b = true <-> a = b.
Proof.
  destruct a as [x|], b as [y|]; simpl; split; try congruence.
  - intros H. apply Nat.eqb_eq in H. congruence.
  - intros H. injection H as ->. apply Nat.eqb_refl.
Qed.

Lemma onResponse_stale tr request callback err body result pollingInterval w :
  _currentOperationCallback w <> Some callback ->
  onResponse tr request callback err body result pollingInterval w = (w, [], Returned tt).
Proof.
  intros H. unfold onResponse, bind, gets.
  destruct (option_nat_eqb (_currentOperationCallback w) (Some callback)) eqn:E.
  - apply option_nat_eqb_eq in E. contradiction.
  - reflexivity.
Qed.

(** A body that [JSON.stringify] rejects makes the [TypeError] that a
    missing body makes, one line earlier: in every world the machine does
    the same on both. *)
Lemma unserialisable_as_no_body id result pollingInterval w :
  step (TransportRepliedUnserialisable id result pollingInterval) w
  = step (TransportReplied id None None result pollingInterval) w.
Proof.
  cbn [step]. unfold onResponse, onUnserialisableResponse, fuel.
  change (transition 8) with (transitionWith (transition 7)).
  unfold transitionWith. cbn [onEnter target]. reflexivity.
Qed.

(** The setters on a world whose fields are known. *)
Lemma set_state_mk x s t q pt cur tm cl nh :
  set_state x (mkWorld s t q pt cur tm cl nh) = mkWorld x t q pt cur tm cl nh.
Proof. reflexivity. Qed.
Lemma set_targetReplayState_mk x s t q pt cur tm cl nh :
  set_targetReplayState x (mkWorld s t q pt cur tm cl nh) = mkWorld s x q pt cur tm cl nh.
Proof. reflexivity. Qed.
Lemma set_inputQueue_mk x s t q pt cur tm cl nh :
  set_inputQueue x (mkWorld s t q pt cur tm cl nh) = mkWorld s t x pt cur tm cl nh.
Proof. reflexivity. Qed.
Lemma set_pollingTimer_mk x s t q pt cur tm cl nh :
  set_pollingTimer x (mkWorld s t q pt cur tm cl nh) = mkWorld s t q x cur tm cl nh.
Proof. reflexivity. Qed.
Lemma set_currentOperationCallback_mk x s t q pt cur tm cl nh :
  set_currentOperationCallback x (mkWorld s t q pt cur tm cl nh)
  = mkWorld s t q pt x tm cl nh.
Proof. reflexivity. Qed.
Lemma set_timers_mk x s t q pt cur tm cl nh :
  set_timers x (mkWorld s t q pt cur tm cl nh) = mkWorld s t q pt cur x cl nh.
Proof. reflexivity. Qed.
Lemma set_calls_mk x s t q pt cur tm cl nh :
  set_calls x (mkWorld s t q pt cur tm cl nh) = mkWorld s t q pt cur tm x nh.
Proof. reflexivity. Qed.
Lemma set_nextHandle_mk x s t q pt cur tm cl nh :
  set_nextHandle x (mkWorld s t q pt cur tm cl nh) = mkWorld s t q pt cur tm cl x.
Proof. reflexivity. Qed.

Create Rewrite HintDb world.
#[local] Hint Rewrite set_state_mk set_targetReplayState_mk set_inputQueue_mk
  set_pollingTimer_mk set_currentOperationCallback_mk set_timers_mk set_calls_mk
  set_nextHandle_mk : world.

Ltac fields :=
  autorewrite with world;
  cbn [state targetReplayState inputQueue _pollingTimer
       _currentOperationCallback timers calls nextHandle app].

Ltac deliver H :=
  fields; unfold step, bind at 1, gets at 1; cbn [calls timers]; rewrite H.

(** ** Fuel *)

Lemma terminates_ret {A} (a : A) : terminates (ret a).
Proof. intros w. discriminate. Qed.

Lemma terminates_gets {A} (f : World -> A) : terminates (gets f).
Proof. intros w. discriminate. Qed.

Lemma terminates_modify f : terminates (modify f).
Proof. intros w. discriminate. Qed.

Lemma terminates_tell e : terminates (tell e).
Proof. intros w. discriminate. Qed.

Lemma terminates_throw {A} e : terminates (@throw A e).
Proof. intros w. discriminate. Qed.

Lemma terminates_bind {A B} (m : M A) (k : A -> M B) :
  terminates m -> (forall a, terminates (k a)) -> terminates (bind m k).
Proof.
  intros Hm Hk w. unfold bind. specialize (Hm w).
  destruct (m w) as [[w1 l1] [a|e|]]; cbn in *.
  - specialize (Hk a w1). destruct (k a w1) as [[w2 l2] o]. exact Hk.
  - discriminate.
  - contradiction.
Qed.

Create HintDb fuel.
#[local] Hint Resolve terminates_ret terminates_gets terminates_modify
  terminates_tell terminates_throw : fuel.

Ltac terminating :=
  repeat first
    [ assumption
    | progress auto with fuel nocore
    | apply terminates_bind; [|intros ?]
    | match goal with
      | |- terminates (match ?x with _ => _ end) => destruct x
      | |- terminates (if ?b then _ else _) => destruct b
      end ].

Lemma terminates_forEach {A} (f : A -> M unit) l :
  (forall a, terminates (f a)) -> terminates (forEach f l).
Proof.
  intros Hf. induction l as [|a l IH]; cbn [forEach].
  - apply terminates_ret.
  - apply terminates_bind; auto.
Qed.

(** A handler needs fuel only for the transition it makes. *)
Lemma terminates_handler tr s i :
  (forall e, terminates (tr e)) -> terminates (handler tr s i).
Proof.
  intros Htr. destruct s, i; cbn [handler]; unfold inProgress, deferUntilTransition,
    clearTimeout; terminating; apply Htr.
Qed.

(** An [_onEnter] needs fuel only for the transitions it makes, which
    lead to states of lower rank. *)
Lemma terminates_onEnter tr e :
  (forall e', rank e' < rank e -> terminates (tr e')) -> terminates (onEnter tr e).
Proof.
  intros Htr. destruct e; cbn [onEnter];
    unfold transport_registrationRequest, transport_queryOperationStatus,
      transport_endSession, setTimeout, fresh;
    terminating; apply Htr; cbn; lia.
Qed.

Lemma handle_settled n i w :
  settled w ->
  exists w' l,
    handle (transition (S n)) i w = (w', l, Returned tt) /\ settled w'.
Proof.
  intros Hs. destruct w as [s t q pt cur tm cl nh]. unfold settled in *.
  cbn [state inputQueue] in Hs.
  destruct s;
    try (destruct Hs as [Hs|Hs]; [discriminate Hs|subst q]);
    destruct i as [rq rb cb|e b r cb];
    try (destruct cur; destruct pt);
    eexists; eexists;
    (split; [cbn [transition]; machine_eval_handles; reflexivity
            | fields; auto]).
Qed.

Lemma replay_settled n batch :
  forall w,
    settled w ->
    exists w' l,
      forEach (handle (transition (S n))) batch w = (w', l, Returned tt)
      /\ settled w'.
Proof.
  induction batch as [|i batch IH]; intros w H.
  - exists w, []. split; [reflexivity | exact H].
  - destruct (handle_settled n i w H) as (w1 & l1 & E1 & H1).
    destruct (IH w1 H1) as (w2 & l2 & E2 & H2).
    exists w2, (l1 ++ l2). split; [|exact H2].
    cbn [forEach]. unfold bind. rewrite E1, E2. reflexivity.
Qed.

(** Replaying the queue needs fuel for one transition, whatever the queue:
    once an input has been deferred again, no replayed input makes a
    transition. *)
Lemma terminates_processQueue n :
  terminates (processQueue (handle (transition (S n)))).
Proof.
  intros w. unfold processQueue, bind, gets, modify.
  destruct (replay_settled n (inputQueue w) (set_inputQueue [] w)) as (w' & l & E & _).
  { right. reflexivity. }
  rewrite E. discriminate.
Qed.

Lemma terminates_transitionWith tr e :
  terminates (onEnter tr e) ->
  terminates (processQueue (handle tr)) ->
  terminates (transitionWith tr e).
Proof.
  intros H1 H2. unfold transitionWith. terminating; assumption.
Qed.

Lemma terminates_transition n :
  forall e, rank e <= n -> terminates (transition (S (S n)) e).
Proof.
  induction n as [|n IH]; intros e He; cbn [transition].
  - apply terminates_transitionWith; [|apply (terminates_processQueue 0)].
    apply terminates_onEnter. intros e' He'. lia.
  - apply terminates_transitionWith; [|apply (terminates_processQueue (S n))].
    apply terminates_onEnter. intros e' He'. apply IH. lia.
Qed.

Lemma terminates_fuel e : terminates (transition fuel e).
Proof.
  apply (terminates_transition 6). destruct e; cbn; lia.
Qed.

(** X14. The fuel of [step] is enough in every world, for every event. *)
Theorem step_never_out_of_fuel ev w : outcome_of (step ev w) <> OutOfFuel.
Proof.
  revert w. change (terminates (step ev)).
  pose proof terminates_fuel as Hfuel.
  pose proof (fun s i => terminates_handler (transition fuel) s i Hfuel) as Hhandler.
  destruct ev; cbn [step];
    unfold handle, onTimer, onResponse, onUnserialisableResponse, onSessionEnded;
    terminating.
Qed.

(** ** The happy path *)

(** C2. [register] from the initial state, a registration response with
    status "assigning", operation id "op1" and polling interval 100, the
    delay of 100 elapsing, and a query response with status "assigned":
    the caller's callback is called with no error, the final body and the
    final result; two [operationStatus] events are emitted, the assigning
    body then the assigned body, the second before the callback is called. *)
Theorem happy_path :
  forall request requestBody callback result1 result2 interval2 opId2,
    run [Register request requestBody callback;
         TransportReplied 0 None (Some (mkBody (JsStr "assigning") (JsStr "op1")))
           result1 (Some 100);
         TimerElapsed 1;
         TransportReplied 2 None (Some (mkBody (JsStr "assigned") opId2))
           result2 interval2] initial
    = (mkWorld idle idle [] (Some 1) None [] [] 3,
       [Transitioned disconnected sendingRegistrationRequest;
        CallRegistrationRequest 0 request requestBody;
        Transitioned sendingRegistrationRequest responseReceived;
        EmitOperationStatus (mkBody (JsStr "assigning") (JsStr "op1"));
        Transitioned responseReceived waitingToPoll;
        SetTimeout 1 (Some 100);
        Transitioned waitingToPoll polling;
        CallQueryOperationStatus 2 request (JsStr "op1");
        Transitioned polling responseReceived;
        Transitioned responseReceived responseComplete;
        EmitOperationStatus (mkBody (JsStr "assigned") opId2);
        Transitioned responseComplete idle;
        Resolve callback None (Some (mkBody (JsStr "assigned") opId2)) result2]).
Proof.
  intros. unfold run. machine_eval. reflexivity.
Qed.

(** ** Rejected calls *)

(** C5. [register] while a request is being sent, while waiting to poll or
    while polling fails at once with an [InvalidOperationError]; the world
    (state, pending callback, timer, outstanding calls) is left as it was,
    so whatever happens afterwards happens as if the call had not been
    made. *)
Theorem register_in_flight_rejected :
  forall w request requestBody callback,
    in_flight (state w) = true ->
    step (Register request requestBody callback) w
    = (w, [Resolve callback
             (Some (InvalidOperationError "another operation is in progress"))
             None None],
       Returned tt)
    /\ forall evs,
        run (Register request requestBody callback :: evs) w
        = (fst (run evs w),
           Resolve callback
             (Some (InvalidOperationError "another operation is in progress"))
             None None :: snd (run evs w)).
Proof.
  intros w request requestBody callback H.
  assert (E : step (Register request requestBody callback) w
              = (w, [Resolve callback
                       (Some (InvalidOperationError "another operation is in progress"))
                       None None], Returned tt)).
  { destruct w as [s t q pt cb tm cl nh]. simpl in H.
    destruct s; try discriminate; reflexivity. }
  split; [exact E|].
  intros evs. cbn [run]. rewrite E. destruct (run evs w). reflexivity.
Qed.

Lemma register_in_flight_rejected_witness :
  in_flight (state (mkWorld polling polling [] None (Some 4) []
                      [(0, queryCompletion (mkRequest "dev") 4)] 1)) = true
  /\ step (Register (mkRequest "dev") (request_body 0) 5)
        (mkWorld polling polling [] None (Some 4) []
           [(0, queryCompletion (mkRequest "dev") 4)] 1)
     = (mkWorld polling polling [] None (Some 4) []
          [(0, queryCompletion (mkRequest "dev") 4)] 1,
        [Resolve 5 (Some (InvalidOperationError "another operation is in progress"))
           None None],
        Returned tt).
Proof.
  split; [reflexivity|].
  apply (register_in_flight_rejected
           (mkWorld polling polling [] None (Some 4) []
              [(0, queryCompletion (mkRequest "dev") 4)] 1)
           (mkRequest "dev") (request_body 0) 5).
  reflexivity.
Defined.

(** ** One step of the machine, state by state *)

Ltac open_awaiting H w :=
  let s := fresh "s" in
  destruct w as [s ? ? ? ? ? ? ?];
  destruct H as ([Hs|Hs] & Hc & Hq & k & Hl & [Hk|Hk]);
  cbn [state _currentOperationCallback inputQueue calls _pollingTimer timers nextHandle] in *;
  subst.

Section Responses.

Variables (w : World) (id : nat) (request : RegistrationRequest)
          (callback : Callback).
Hypothesis awaiting : awaiting_response w id request callback.

Lemma reply_error e body result pollingInterval :
  step (TransportReplied id (Some e) body result pollingInterval) w
  = (ending w (remove_handle id (calls w)) (Some e) body result callback,
     [Transitioned (state w) responseReceived;
      Transitioned responseReceived responseError;
      Transitioned responseError endingSession;
      CallEndSession (nextHandle w)],
     Returned tt).
Proof.
  revert awaiting. intros H. open_awaiting H w; deliver Hl; machine_eval; reflexivity.
Qed.

Lemma reply_no_body result pollingInterval :
  step (TransportReplied id None None result pollingInterval) w
  = (mkWorld responseReceived responseReceived [] (_pollingTimer w)
       (Some callback) (timers w) (remove_handle id (calls w)) (nextHandle w),
     [Transitioned (state w) responseReceived],
     Threw TypeError).
Proof.
  revert awaiting. intros H. open_awaiting H w; deliver Hl; machine_eval; reflexivity.
Qed.


Lemma reply_no_status b result pollingInterval :
  status b = JsUndefined \/ status b = JsNull ->
  step (TransportReplied id None (Some b) result pollingInterval) w
  = (mkWorld responseReceived responseReceived [] (_pollingTimer w)
       (Some callback) (timers w) (remove_handle id (calls w)) (nextHandle w),
     [Transitioned (state w) responseReceived],
     Threw TypeError).
Proof.
  revert awaiting. intros H Hb. destruct b as [st op]. cbn [status] in Hb.
  open_awaiting H w; deliver Hl; destruct Hb; subst; machine_eval; reflexivity.
Qed.

Lemma reply_not_a_string b tag result pollingInterval :
  status b = JsOther tag ->
  step (TransportReplied id None (Some b) result pollingInterval) w
  = (mkWorld responseReceived responseReceived [] (_pollingTimer w)
       (Some callback) (timers w) (remove_handle id (calls w)) (nextHandle w),
     [Transitioned (state w) responseReceived],
     Threw TypeError).
Proof.
  revert awaiting. intros H Hb. destruct b as [st op]. cbn [status] in Hb. subst st.
  open_awaiting H w; deliver Hl; machine_eval; reflexivity.
Qed.

Lemma reply_assigned b s result pollingInterval :
  status b = JsStr s ->
  toLowerCase s = "assigned"%string ->
  step (TransportReplied id None (Some b) result pollingInterval) w
  = (mkWorld idle idle [] (_pollingTimer w) None (timers w)
       (remove_handle id (calls w)) (nextHandle w),
     [Transitioned (state w) responseReceived;
      Transitioned responseReceived responseComplete;
      EmitOperationStatus b;
      Transitioned responseComplete idle;
      Resolve callback None (Some b) result],
     Returned tt).
Proof.
  revert awaiting. intros H Hb Hlow. destruct b as [st op]. cbn [status] in Hb. subst st.
  open_awaiting H w; deliver Hl; cbn -[toLowerCase String.eqb];
    rewrite ?Nat.eqb_refl; cbn -[toLowerCase String.eqb]; rewrite Hlow;
    machine_eval; reflexivity.
Qed.

Lemma reply_assigning b s result pollingInterval :
  status b = JsStr s ->
  toLowerCase s = "assigning"%string ->
  step (TransportReplied id None (Some b) result pollingInterval) w
  = (mkWorld waitingToPoll waitingToPoll [] (Some (nextHandle w))
       (Some callback)
       (timers w ++ [(nextHandle w,
                      mkTimer request (operationId b) pollingInterval callback)])
       (remove_handle id (calls w)) (S (nextHandle w)),
     [Transitioned (state w) responseReceived;
      EmitOperationStatus b;
      Transitioned responseReceived waitingToPoll;
      SetTimeout (nextHandle w) pollingInterval],
     Returned tt).
Proof.
  revert awaiting. intros H Hb Hlow. destruct b as [st op]. cbn [status] in Hb. subst st.
  open_awaiting H w; deliver Hl; cbn -[toLowerCase String.eqb];
    rewrite ?Nat.eqb_refl; cbn -[toLowerCase String.eqb]; rewrite Hlow;
    machine_eval; reflexivity.
Qed.

Lemma reply_failed b s result pollingInterval :
  status b = JsStr s ->
  toLowerCase s = "failed"%string ->
  step (TransportReplied id None (Some b) result pollingInterval) w
  = (ending w (remove_handle id (calls w))
       (Some (DeviceRegistrationFailedError "registration failed" result b))
       (Some b) result callback,
     [Transitioned (state w) responseReceived;
      Transitioned responseReceived responseError;
      Transitioned responseError endingSession;
      CallEndSession (nextHandle w)],
     Returned tt).
Proof.
  revert awaiting. intros H Hb Hlow. destruct b as [st op]. cbn [status] in Hb. subst st.
  open_awaiting H w; deliver Hl; cbn -[toLowerCase String.eqb];
    rewrite ?Nat.eqb_refl; cbn -[toLowerCase String.eqb]; rewrite Hlow;
    machine_eval; reflexivity.
Qed.

Lemma reply_unknown b s result pollingInterval :
  status b = JsStr s ->
  toLowerCase s <> "assigned"%string ->
  toLowerCase s <> "assigning"%string ->
  toLowerCase s <> "failed"%string ->
  step (TransportReplied id None (Some b) result pollingInterval) w
  = (ending w (remove_handle id (calls w))
       (Some (SyntaxError ("status is " ++ s)%string result b))
       (Some b) result callback,
     [Transitioned (state w) responseReceived;
      Transitioned responseReceived responseError;
      Transitioned responseError endingSession;
      CallEndSession (nextHandle w)],
     Returned tt).
Proof.
  revert awaiting. intros H Hb H1 H2 H3. destruct b as [st op]. cbn [status] in Hb. subst st.
  apply String.eqb_neq in H1, H2, H3.
  open_awaiting H w; deliver Hl; cbn -[toLowerCase String.eqb];
    rewrite ?Nat.eqb_refl; cbn -[toLowerCase String.eqb]; rewrite H1, H2, H3;
    machine_eval; reflexivity.
Qed.

End Responses.

Lemma lookup_handle_In {A} h (l : list (nat * A)) a :
  lookup_handle h l = Some a -> In (h, a) l.
Proof.
  unfold lookup_handle. destruct (find _ l) as [[h' a']|] eqn:E; [|discriminate].
  intros [= <-]. apply find_some in E. destruct E as [Hin Heq].
  apply Nat.eqb_eq in Heq. simpl in Heq. now subst.
Qed.

Lemma In_remove_handle {A} h (l : list (nat * A)) p :
  In p (remove_handle h l) -> In p l /\ fst p <> h.
Proof.
  unfold remove_handle. intros H. apply filter_In in H. destruct H as [H1 H2].
  split; [exact H1|]. intros E. rewrite E, Nat.eqb_refl in H2. discriminate.
Qed.

Lemma lookup_handle_new {A} h (l : list (nat * A)) a :
  (forall p, In p l -> fst p <> h) ->
  lookup_handle h (l ++ [(h, a)]) = Some a.
Proof.
  intros H. unfold lookup_handle. induction l as [|[h' a'] l IH]; simpl.
  - now rewrite Nat.eqb_refl.
  - destruct (Nat.eqb h' h) eqn:E.
    + apply Nat.eqb_eq in E. exfalso. apply (H (h', a')); [now left | exact E].
    + apply IH. intros p Hp. apply H. now right.
Qed.

Lemma remove_handle_new {A} h (l : list (nat * A)) a :
  (forall p, In p l -> fst p <> h) ->
  remove_handle h (l ++ [(h, a)]) = l.
Proof.
  intros H. unfold remove_handle. rewrite filter_app. simpl. rewrite Nat.eqb_refl. simpl.
  rewrite app_nil_r. induction l as [|p l IH]; simpl; [reflexivity|].
  destruct (Nat.eqb (fst p) h) eqn:E.
  - apply Nat.eqb_eq in E. exfalso. apply (H p); [now left | exact E].
  - simpl. f_equal. apply IH. intros q Hq. apply H. now right.
Qed.

(** A response whose captured callback is not the current operation
    callback is dropped: only the transport's record of the call goes. *)
Lemma reply_stale w id k request callback err body result pollingInterval :
  lookup_handle id (calls w) = Some k ->
  response_completion k request callback ->
  _currentOperationCallback w <> Some callback ->
  step (TransportReplied id err body result pollingInterval) w
  = (set_calls (remove_handle id (calls w)) w, [], Returned tt).
Proof.
  intros Hl [Hk|Hk] Hc; subst k; deliver Hl; unfold bind, modify;
    rewrite onResponse_stale by exact Hc; reflexivity.
Qed.

(** The transport's end-session call completes while nothing is deferred. *)
Lemma session_ended_quiet w id err body result callback disconnectErr :
  state w = endingSession ->
  inputQueue w = [] ->
  lookup_handle id (calls w) = Some (endSessionCompletion err body result callback) ->
  step (TransportSessionEnded id disconnectErr) w
  = (mkWorld disconnected disconnected [] (_pollingTimer w) None (timers w)
       (remove_handle id (calls w)) (nextHandle w),
     [Transitioned endingSession disconnected;
      Resolve callback (js_or err disconnectErr) body result],
     Returned tt).
Proof.
  intros Hs Hq Hl. destruct w as [s t q pt cb tm cl nh]. simpl in Hs, Hq, Hl. subst.
  deliver Hl. machine_eval. reflexivity.
Qed.

Lemma session_ended_effects w id err body result callback disconnectErr :
  state w = endingSession ->
  lookup_handle id (calls w) = Some (endSessionCompletion err body result callback) ->
  exists rest,
    effects_of (step (TransportSessionEnded id disconnectErr) w)
    = Transitioned endingSession disconnected
        :: Resolve callback (js_or err disconnectErr) body result :: rest.
Proof.
  intros Hs Hl. destruct w as [s t q pt cb tm cl nh]. simpl in Hs, Hl. subst s.
  deliver Hl.
  unfold fuel. cbn [transition]. remember (transition 7) as tr.
  unfold onSessionEnded, transitionWith.
  cbn -[processQueue].
  match goal with |- context [processQueue ?h ?w] => destruct (processQueue h w) as [[w2 l2] o2] end.
  eexists. reflexivity.
Qed.

(** The end-session call issued by a teardown is the one that answers to
    the handle the teardown took. *)
Lemma ending_lookup w pending err body result callback :
  (forall p, In p pending -> fst p < nextHandle w) ->
  lookup_handle (nextHandle w) (calls (ending w pending err body result callback))
  = Some (endSessionCompletion err body result callback)
  /\ remove_handle (nextHandle w) (calls (ending w pending err body result callback))
     = pending.
Proof.
  intros H. cbn [ending calls].
  assert (H' : forall p, In p pending -> fst p <> nextHandle w).
  { intros p Hp. specialize (H p Hp). lia. }
  split; [now apply lookup_handle_new | now apply remove_handle_new].
Qed.

Lemma handles_below_removed w id :
  handles_below w ->
  forall p, In p (remove_handle id (calls w)) -> fst p < nextHandle w.
Proof.
  intros H p Hp. apply In_remove_handle in Hp. apply H. tauto.
Qed.

(** [endSession] while idle or while an attempt is in flight. *)
Lemma endSession_step w callback :
  state w = idle \/ in_flight (state w) = true ->
  inputQueue w = [] ->
  step (EndSession callback) w
  = (mkWorld endingSession endingSession [] (pollingTimer_after_endSession w) None
       (timers_after_endSession w)
       (calls w ++ [(nextHandle w, endSessionCompletion None None None callback)])
       (S (nextHandle w)),
     timer_cleared w ++ [Transitioned (state w) endingSession] ++ cancellation w
       ++ [CallEndSession (nextHandle w)],
     Returned tt).
Proof.
  intros Hs Hq. destruct w as [s t q pt cb tm cl nh]. simpl in Hs, Hq. subst q.
  destruct Hs as [Hs|Hs]; [subst s|destruct s; try discriminate];
    destruct cb as [cb|]; destruct pt as [h|]; reflexivity.
Qed.

Lemma endSession_disconnected w callback :
  state w = disconnected ->
  step (EndSession callback) w = (w, [Resolve callback None None None], Returned tt).
Proof.
  intros Hs. destruct w as [s t q pt cb tm cl nh]. simpl in Hs. subst s. reflexivity.
Qed.

(** In the states that defer, a call only joins the queue. *)
Lemma register_deferred w request requestBody callback :
  deferring (state w) = true ->
  step (Register request requestBody callback) w
  = (set_inputQueue (inputQueue w ++ [input_register request requestBody callback]) w,
     [], Returned tt).
Proof.
  intros Hs. destruct w as [s t q pt cb tm cl nh]. simpl in Hs.
  destruct s; try discriminate; reflexivity.
Qed.

Lemma endSession_deferred w callback :
  deferring (state w) = true ->
  step (EndSession callback) w
  = (set_inputQueue (inputQueue w ++ [input_endSession None None None callback]) w,
     [], Returned tt).
Proof.
  intros Hs. destruct w as [s t q pt cb tm cl nh]. simpl in Hs.
  destruct s; try discriminate; reflexivity.
Qed.

(** ** Stale completions *)

(** C1. The completion of a registration request or of a status query whose
    captured callback is not the current operation callback changes neither
    the state nor any field of the machine and calls nobody; when an attempt
    is cancelled by [endSession] while its request is being sent, the late
    response to that request resolves nothing, before or after the session
    has ended: the attempt's callback has been called once, by the
    cancellation. *)
Theorem stale_completion_ignored :
  (forall w id k request callback err body result pollingInterval,
      lookup_handle id (calls w) = Some k ->
      response_completion k request callback ->
      _currentOperationCallback w <> Some callback ->
      step (TransportReplied id err body result pollingInterval) w
      = (set_calls (remove_handle id (calls w)) w, [], Returned tt))
  /\ (forall request requestBody callback callback2 err body result pollingInterval,
      run [Register request requestBody callback;
           EndSession callback2;
           TransportReplied 0 err body result pollingInterval] initial
      = (mkWorld endingSession endingSession [] None None []
           [(1, endSessionCompletion None None None callback2)] 2,
         [Transitioned disconnected sendingRegistrationRequest;
          CallRegistrationRequest 0 request requestBody;
          Transitioned sendingRegistrationRequest endingSession;
          Resolve callback (Some (OperationCancelledError "")) None None;
          CallEndSession 1]))
  /\ (forall request requestBody callback callback2 disconnectErr
             err body result pollingInterval,
      run [Register request requestBody callback;
           EndSession callback2;
           TransportSessionEnded 1 disconnectErr;
           TransportReplied 0 err body result pollingInterval] initial
      = (mkWorld disconnected disconnected [] None None [] [] 2,
         [Transitioned disconnected sendingRegistrationRequest;
          CallRegistrationRequest 0 request requestBody;
          Transitioned sendingRegistrationRequest endingSession;
          Resolve callback (Some (OperationCancelledError "")) None None;
          CallEndSession 1;
          Transitioned endingSession disconnected;
          Resolve callback2 disconnectErr None None])).
Proof.
  split; [|split].
  - intros. eapply reply_stale; eassumption.
  - intros. unfold run. machine_eval. reflexivity.
  - intros. unfold run. machine_eval. reflexivity.
Qed.

Lemma stale_completion_ignored_witness :
  step (TransportReplied 0 None (Some (mkBody (JsStr "assigned") JsUndefined)) None None)
    (mkWorld endingSession endingSession [] None None []
       [(0, registrationCompletion (mkRequest "dev") 7);
        (1, endSessionCompletion None None None 9)] 2)
  = (mkWorld endingSession endingSession [] None None []
       [(1, endSessionCompletion None None None 9)] 2,
     [], Returned tt).
Proof.
  apply (proj1 stale_completion_ignored
           (mkWorld endingSession endingSession [] None None []
              [(0, registrationCompletion (mkRequest "dev") 7);
               (1, endSessionCompletion None None None 9)] 2)
           0 (registrationCompletion (mkRequest "dev") 7) (mkRequest "dev") 7).
  - reflexivity.
  - left. reflexivity.
  - simpl. discriminate.
Defined.

(** ** The disconnect sequence *)

(** C7. When the transport's end-session call completes in [endingSession],
    the machine moves to [disconnected] and calls the carried callback with
    [err || disconnectErr]: the carried error when there is one, the
    disconnect error only when there is none. *)
Theorem carried_error_not_overridden :
  forall w id err body result callback disconnectErr,
    state w = endingSession ->
    lookup_handle id (calls w) = Some (endSessionCompletion err body result callback) ->
    (exists rest,
        effects_of (step (TransportSessionEnded id disconnectErr) w)
        = Transitioned endingSession disconnected
            :: Resolve callback (js_or err disconnectErr) body result :: rest)
    /\ (forall e, err = Some e -> js_or err disconnectErr = Some e)
    /\ (err = None -> js_or err disconnectErr = disconnectErr).
Proof.
  intros w id err body result callback disconnectErr Hs Hl. split; [|split].
  - now apply session_ended_effects.
  - intros e ->. reflexivity.
  - intros ->. reflexivity.
Qed.

Lemma carried_error_not_overridden_witness :
  exists rest,
    effects_of (step (TransportSessionEnded 1 (Some (TransportError 2)))
                  (mkWorld endingSession endingSession [] None None []
                     [(1, endSessionCompletion (Some (TransportError 1)) None None 7)] 2))
    = Transitioned endingSession disconnected
        :: Resolve 7 (Some (TransportError 1)) None None :: rest.
Proof.
  exact (proj1 (carried_error_not_overridden
                  (mkWorld endingSession endingSession [] None None []
                     [(1, endSessionCompletion (Some (TransportError 1)) None None 7)] 2)
                  1 (Some (TransportError 1)) None None 7 (Some (TransportError 2))
                  eq_refl eq_refl)).
Defined.

(** The end-session call that was issued last completes while nothing is
    deferred. *)
Lemma session_ended_last w pending h err body result callback disconnectErr :
  state w = endingSession ->
  inputQueue w = [] ->
  calls w = pending ++ [(h, endSessionCompletion err body result callback)] ->
  (forall p, In p pending -> fst p < h) ->
  step (TransportSessionEnded h disconnectErr) w
  = (mkWorld disconnected disconnected [] (_pollingTimer w) None (timers w)
       pending (nextHandle w),
     [Transitioned endingSession disconnected;
      Resolve callback (js_or err disconnectErr) body result],
     Returned tt).
Proof.
  intros Hs Hq Hc Hp.
  assert (Hne : forall p, In p pending -> fst p <> h).
  { intros p Hin. specialize (Hp p Hin). lia. }
  rewrite (session_ended_quiet w h err body result callback disconnectErr Hs Hq).
  - rewrite Hc, remove_handle_new by exact Hne. reflexivity.
  - rewrite Hc. now apply lookup_handle_new.
Qed.

Lemma resolutions_app callback l1 l2 :
  resolutions callback (l1 ++ l2) = resolutions callback l1 + resolutions callback l2.
Proof. unfold resolutions. now rewrite filter_app, length_app. Qed.

Lemma resolutions_self callback err body result :
  resolutions callback [Resolve callback err body result] = 1.
Proof. unfold resolutions. simpl. now rewrite Nat.eqb_refl. Qed.

Lemma resolutions_other callback callback2 err body result :
  callback2 <> callback ->
  resolutions callback [Resolve callback2 err body result] = 0.
Proof.
  intros H. unfold resolutions. simpl.
  destruct (Nat.eqb callback2 callback) eqn:E; [|reflexivity].
  apply Nat.eqb_eq in E. contradiction.
Qed.


(** X16. Calls made while the session is ending are deferred: they change
    nothing but the queue, and the teardown still enters [disconnected]
    and calls the callback it carries before any of them is replayed. *)
Lemma teardown_with_deferred_calls w id err body result callback disconnectErr evs :
  state w = endingSession ->
  lookup_handle id (calls w) = Some (endSessionCompletion err body result callback) ->
  Forall (fun ev => is_call ev = true) evs ->
  exists rest,
    snd (run (evs ++ [TransportSessionEnded id disconnectErr]) w)
    = Transitioned endingSession disconnected
        :: Resolve callback (js_or err disconnectErr) body result :: rest.
Proof.
  intros Hs Hl Hevs. revert w Hs Hl.
  induction Hevs as [|ev evs Hev _ IH]; intros w Hs Hl.
  - destruct (session_ended_effects w id err body result callback disconnectErr Hs Hl)
      as (rest & E).
    exists rest. cbn [app run]. unfold effects_of in E.
    destruct (step (TransportSessionEnded id disconnectErr) w) as [[w1 l1] o].
    cbn [fst snd] in *. now rewrite app_nil_r.
  - assert (Hd : deferring (state w) = true) by now rewrite Hs.
    cbn [app run].
    destruct ev as [rq rb cb|cb| | | |]; try discriminate Hev.
    + rewrite register_deferred by exact Hd.
      destruct (IH (set_inputQueue (inputQueue w ++ [input_register rq rb cb]) w) Hs Hl)
        as (rest & E).
      exists rest.
      destruct (run (evs ++ [TransportSessionEnded id disconnectErr]) _) as [w2 l2].
      exact E.
    + rewrite endSession_deferred by exact Hd.
      destruct (IH (set_inputQueue (inputQueue w ++ [input_endSession None None None cb]) w)
                  Hs Hl) as (rest & E).
      exists rest.
      destruct (run (evs ++ [TransportSessionEnded id disconnectErr]) _) as [w2 l2].
      exact E.
Qed.

(** ** Classification of a response *)



(** ** Errors and cancellation *)

(** C3. A transport error, a status "failed", an unknown status and a
    cancellation all take the machine to [endingSession]; when the
    transport's end-session call then completes, the machine is
    [disconnected] with no current operation callback, and over the two
    steps the callback of the attempt has been called exactly once, with
    the error that ended the attempt. *)
Theorem errors_end_the_session_once :
  forall w callback ev e disconnectErr,
    handles_below w ->
    attempt_ends w callback ev e ->
    let r := run [ev; TransportSessionEnded (nextHandle w) disconnectErr] w in
    state (world_of (step ev w)) = endingSession
    /\ state (fst r) = disconnected
    /\ _currentOperationCallback (fst r) = None
    /\ resolutions callback (snd r) = 1
    /\ exists body result, In (Resolve callback (Some e) body result) (snd r).
Proof.
  intros w callback ev e disconnectErr Hb Hev r. subst r.
  assert (Hrem : forall id p, In p (remove_handle id (calls w)) -> fst p < nextHandle w).
  { intros id. now apply handles_below_removed. }
  destruct Hev as [id request e body result pi Ha
                  |id request b s result pi Ha Hst Hlow
                  |id request b s result pi Ha Hst H1 H2 H3
                  |callback2 Hfl Hcur Hq Hne]; cbn [run].
  - rewrite (reply_error w id request callback Ha).
    rewrite (session_ended_last _ (remove_handle id (calls w)) (nextHandle w)
               (Some e) body result callback disconnectErr)
      by (try reflexivity; apply Hrem).
    unfold world_of, resolutions. cbn. rewrite Nat.eqb_refl.
    repeat split; try reflexivity. exists body, result. tauto.
  - rewrite (reply_failed w id request callback Ha b s) by assumption.
    rewrite (session_ended_last _ (remove_handle id (calls w)) (nextHandle w)
               (Some (DeviceRegistrationFailedError "registration failed" result b))
               (Some b) result callback disconnectErr)
      by (try reflexivity; apply Hrem).
    unfold world_of, resolutions. cbn. rewrite Nat.eqb_refl.
    repeat split; try reflexivity. exists (Some b), result. tauto.
  - rewrite (reply_unknown w id request callback Ha b s) by assumption.
    rewrite (session_ended_last _ (remove_handle id (calls w)) (nextHandle w)
               (Some (SyntaxError ("status is " ++ s)%string result b))
               (Some b) result callback disconnectErr)
      by (try reflexivity; apply Hrem).
    unfold world_of, resolutions. cbn. rewrite Nat.eqb_refl.
    repeat split; try reflexivity. exists (Some b), result. tauto.
  - rewrite (endSession_step w callback2) by tauto.
    rewrite (session_ended_last _ (calls w) (nextHandle w)
               None None None callback2 disconnectErr)
      by (try reflexivity; apply Hb).
    unfold world_of, cancellation. rewrite Hcur. cbn [fst snd state _currentOperationCallback].
    repeat split; try reflexivity.
    + rewrite !resolutions_app, resolutions_self.
      change [Transitioned endingSession disconnected;
              Resolve callback2 (js_or None disconnectErr) None None]
        with ([Transitioned endingSession disconnected]
                ++ [Resolve callback2 (js_or None disconnectErr) None None]).
      rewrite !resolutions_app, resolutions_other by exact Hne.
      unfold timer_cleared. destruct (state w); reflexivity.
    + exists None, None. rewrite !in_app_iff. simpl. auto 10.
Qed.

Lemma errors_end_the_session_once_witness :
  resolutions 7
    (snd (run [TransportReplied 0 (Some (TransportError 3)) None None None;
               TransportSessionEnded 1 None]
            (mkWorld sendingRegistrationRequest sendingRegistrationRequest []
               None (Some 7) [] [(0, registrationCompletion (mkRequest "dev") 7)] 1)))
  = 1.
Proof.
  refine (proj1 (proj2 (proj2 (proj2 (errors_end_the_session_once
    (mkWorld sendingRegistrationRequest sendingRegistrationRequest []
       None (Some 7) [] [(0, registrationCompletion (mkRequest "dev") 7)] 1)
    7 (TransportReplied 0 (Some (TransportError 3)) None None None)
    (TransportError 3) None _ _))))).
  - intros p [<-|[]]. simpl. lia.
  - apply (ends_by_transport_error _ _ 0 (mkRequest "dev")).
    repeat split; try reflexivity. left. reflexivity.
    exists (registrationCompletion (mkRequest "dev") 7). split; [reflexivity|now left].
Defined.

(** ** [endSession] *)

(** A deferred [endSession] is replayed when the teardown it waited for
    completes. *)
Lemma endSession_replayed w id err body result callback callback2 disconnectErr :
  state w = endingSession ->
  inputQueue w = [] ->
  lookup_handle id (calls w) = Some (endSessionCompletion err body result callback) ->
  run [EndSession callback2; TransportSessionEnded id disconnectErr] w
  = (mkWorld disconnected disconnected [] (_pollingTimer w) None (timers w)
       (remove_handle id (calls w)) (nextHandle w),
     [Transitioned endingSession disconnected;
      Resolve callback (js_or err disconnectErr) body result;
      Resolve callback2 None None None]).
Proof.
  intros Hs Hq Hl. destruct w as [s t q pt cb tm cl nh]. simpl in Hs, Hq, Hl. subst.
  cbn [run]. rewrite endSession_deferred by reflexivity.
  deliver Hl. machine_eval. reflexivity.
Qed.

(** C6, as the code has it.  In [disconnected] the callback of [endSession]
    is called at once with no error and the transport is not called.  In
    [idle] and while an attempt is in flight, the attempt's callback (if
    any) is first failed with an [OperationCancelledError], the transport's
    end-session call is made, and when it completes the callback of
    [endSession] receives the error that call reported, which is no error
    exactly when the transport reported none; the cancellation error goes to
    the attempt's callback only.  In [endingSession] the call is deferred
    and, replayed after the teardown in progress, is answered with no
    error. *)
Theorem endSession_outcome :
  forall w callback2 disconnectErr,
    handles_below w ->
    inputQueue w = [] ->
    (state w = disconnected ->
       step (EndSession callback2) w
       = (w, [Resolve callback2 None None None], Returned tt))
    /\ (state w = idle \/ in_flight (state w) = true ->
       let r := run [EndSession callback2;
                     TransportSessionEnded (nextHandle w) disconnectErr] w in
       snd r
       = timer_cleared w ++ [Transitioned (state w) endingSession]
           ++ cancellation w
           ++ [CallEndSession (nextHandle w);
               Transitioned endingSession disconnected;
               Resolve callback2 disconnectErr None None]
       /\ state (fst r) = disconnected)
    /\ (state w = endingSession ->
       forall id err body result callback,
         lookup_handle id (calls w)
         = Some (endSessionCompletion err body result callback) ->
         snd (run [EndSession callback2; TransportSessionEnded id disconnectErr] w)
         = [Transitioned endingSession disconnected;
            Resolve callback (js_or err disconnectErr) body result;
            Resolve callback2 None None None]).
Proof.
  intros w callback2 disconnectErr Hb Hq. split; [|split].
  - intros Hs. now apply endSession_disconnected.
  - intros Hs r. subst r. cbn [run].
    rewrite (endSession_step w callback2) by assumption.
    rewrite (session_ended_last _ (calls w) (nextHandle w)
               None None None callback2 disconnectErr)
      by (try reflexivity; apply Hb).
    cbn [fst snd state js_or]. split; [|reflexivity].
    rewrite <- !app_assoc. reflexivity.
  - intros Hs id err body result callback Hl.
    rewrite (endSession_replayed w id err body result callback) by assumption.
    reflexivity.
Qed.

Lemma endSession_outcome_witness :
  snd (run [EndSession 9; TransportSessionEnded 1 (Some (TransportError 5))]
         (mkWorld polling polling [] (Some 0) (Some 7) []
            [(0, queryCompletion (mkRequest "dev") 7)] 1))
  = [Transitioned polling endingSession;
     Resolve 7 (Some (OperationCancelledError "")) None None;
     CallEndSession 1;
     Transitioned endingSession disconnected;
     Resolve 9 (Some (TransportError 5)) None None].
Proof.
  refine (proj1 (proj1 (proj2 (endSession_outcome
    (mkWorld polling polling [] (Some 0) (Some 7) []
       [(0, queryCompletion (mkRequest "dev") 7)] 1)
    9 (Some (TransportError 5)) _ _)) _)).
  - intros p [<-|[]]. simpl. lia.
  - reflexivity.
  - right. reflexivity.
Defined.

(** The callback of [endSession] does receive an error: the one the
    transport's end-session call reports. *)
Lemma endSession_caller_receives_disconnect_error :
  snd (run [Register (mkRequest "dev") (request_body 0) 7;
            EndSession 9;
            TransportSessionEnded 1 (Some (TransportError 5))] initial)
  = [Transitioned disconnected sendingRegistrationRequest;
     CallRegistrationRequest 0 (mkRequest "dev") (request_body 0);
     Transitioned sendingRegistrationRequest endingSession;
     Resolve 7 (Some (OperationCancelledError "")) None None;
     CallEndSession 1;
     Transitioned endingSession disconnected;
     Resolve 9 (Some (TransportError 5)) None None]
  /\ ~ In (Resolve 9 None None None)
        (snd (run [Register (mkRequest "dev") (request_body 0) 7;
                   EndSession 9;
                   TransportSessionEnded 1 (Some (TransportError 5))] initial)).
Proof.
  split; [reflexivity|].
  intros H. vm_compute in H.
  repeat (destruct H as [H|H]; [discriminate H|]). exact H.
Qed.

(** ** A response without a status *)

(** C8, on the code: a response that carries no transport error and whose
    body is missing, or has a missing or [null] status, makes
    [responseReceived] throw a [TypeError] when it reads the status.
    Nobody is called; the machine stays in [responseReceived] with the
    operation callback still set, where every later call is deferred. *)
Theorem absent_status_throws :
  forall w id request callback body result pollingInterval,
    awaiting_response w id request callback ->
    body = None
    \/ (exists b, body = Some b /\ (status b = JsUndefined \/ status b = JsNull)) ->
    let r := step (TransportReplied id None body result pollingInterval) w in
    outcome_of r = Threw TypeError
    /\ effects_of r = [Transitioned (state w) responseReceived]
    /\ state (world_of r) = responseReceived
    /\ _currentOperationCallback (world_of r) = Some callback
    /\ forall request' requestBody' callback',
        effects_of (step (Register request' requestBody' callback') (world_of r)) = []
        /\ effects_of (step (EndSession callback') (world_of r)) = []
        /\ state (world_of (step (EndSession callback') (world_of r))) = responseReceived.
Proof.
  intros w id request callback body result pollingInterval Ha Hbody r. subst r.
  assert (E : step (TransportReplied id None body result pollingInterval) w
              = (mkWorld responseReceived responseReceived [] (_pollingTimer w)
                   (Some callback) (timers w) (remove_handle id (calls w)) (nextHandle w),
                 [Transitioned (state w) responseReceived], Threw TypeError)).
  { destruct Hbody as [->|(b & -> & Hb)].
    - now apply (reply_no_body w id request callback).
    - now apply (reply_no_status w id request callback). }
  rewrite E. repeat split.
Qed.

Lemma absent_status_throws_witness :
  outcome_of (step (TransportReplied 0 None
                      (Some (mkBody JsUndefined (JsStr "op1"))) None (Some 100))
                (mkWorld sendingRegistrationRequest sendingRegistrationRequest []
                   None (Some 7) [] [(0, registrationCompletion (mkRequest "dev") 7)] 1))
  = Threw TypeError.
Proof.
  refine (proj1 (absent_status_throws
    (mkWorld sendingRegistrationRequest sendingRegistrationRequest []
       None (Some 7) [] [(0, registrationCompletion (mkRequest "dev") 7)] 1)
    0 (mkRequest "dev") 7 (Some (mkBody JsUndefined (JsStr "op1"))) None (Some 100) _ _)).
  - repeat split; try reflexivity. left. reflexivity.
    exists (registrationCompletion (mkRequest "dev") 7). split; [reflexivity|now left].
  - right. exists (mkBody JsUndefined (JsStr "op1")). split; [reflexivity|now left].
Defined.

(** ** Deferred calls *)




(** ** The invariant of reachable worlds *)

Lemma captured_app l1 l2 :
  captured_callbacks (l1 ++ l2) = captured_callbacks l1 ++ captured_callbacks l2.
Proof. apply flat_map_app. Qed.

Lemma carried_app l1 l2 :
  carried_callbacks (l1 ++ l2) = carried_callbacks l1 ++ carried_callbacks l2.
Proof. apply flat_map_app. Qed.

Lemma register_callbacks_app q1 q2 :
  register_callbacks (q1 ++ q2) = register_callbacks q1 ++ register_callbacks q2.
Proof. apply flat_map_app. Qed.

Lemma remove_handle_absent {A} h (l : list (nat * A)) :
  ~ In h (map fst l) -> remove_handle h l = l.
Proof.
  intros H. unfold remove_handle. induction l as [|p l IH]; simpl; [reflexivity|].
  destruct (Nat.eqb (fst p) h) eqn:E.
  - apply Nat.eqb_eq in E. exfalso. apply H. left. exact E.
  - simpl. f_equal. apply IH. intros Hin. apply H. now right.
Qed.

(** With distinct handles, answering a call takes exactly that call off
    the transport's list. *)
Lemma lookup_split {A} h (l : list (nat * A)) a :
  NoDup (map fst l) ->
  lookup_handle h l = Some a ->
  exists l1 l2, l = l1 ++ (h, a) :: l2 /\ remove_handle h l = l1 ++ l2.
Proof.
  induction l as [|[h' a'] l IH]; intros Hnd Hl.
  - discriminate.
  - simpl in Hnd. apply NoDup_cons_iff in Hnd. destruct Hnd as [Hnotin Hnd].
    unfold lookup_handle in Hl. simpl in Hl.
    destruct (Nat.eqb h' h) eqn:E.
    + apply Nat.eqb_eq in E. subst h'. simpl in Hl. injection Hl as ->.
      exists [], l. split; [reflexivity|].
      unfold remove_handle. simpl. rewrite Nat.eqb_refl. simpl.
      now apply remove_handle_absent.
    + destruct (IH Hnd Hl) as (l1 & l2 & -> & Hr).
      exists ((h', a') :: l1), l2. split; [reflexivity|].
      unfold remove_handle in *. simpl. rewrite E. simpl. now rewrite Hr.
Qed.

Lemma fresh_registers_perm l l' cl :
  Permutation l l' -> fresh_registers l cl -> fresh_registers l' cl.
Proof.
  intros Hp [Hnd Hfr]. split.
  - eapply Permutation_NoDup; eassumption.
  - intros cb Hin. apply Hfr. eapply Permutation_in; [apply Permutation_sym|]; eassumption.
Qed.

Lemma fresh_registers_sub l cl cl' :
  (forall cb, In cb (captured_callbacks cl') -> In cb (captured_callbacks cl)) ->
  fresh_registers l cl -> fresh_registers l cl'.
Proof.
  intros Hsub [Hnd Hfr]. split; [exact Hnd|].
  intros cb Hin Hc. apply (Hfr cb Hin). now apply Hsub.
Qed.

Lemma fresh_registers_tail cb l cl :
  fresh_registers (cb :: l) cl -> fresh_registers l cl.
Proof.
  intros [Hnd Hfr]. apply NoDup_cons_iff in Hnd. split; [tauto|].
  intros c Hin. apply Hfr. now right.
Qed.

(** A replayed [register] starts an attempt: its callback becomes captured
    by one more completion, and the other deferred callbacks stay fresh. *)
Lemma fresh_registers_attempt cb l cl h k :
  captured_callbacks [(h, k)] = [cb] ->
  fresh_registers (cb :: l) cl ->
  fresh_registers l (cl ++ [(h, k)])
  /\ count_occ Nat.eq_dec (captured_callbacks (cl ++ [(h, k)])) cb <= 1.
Proof.
  intros Hk [Hnd Hfr]. apply NoDup_cons_iff in Hnd. destruct Hnd as [Hnotin Hnd].
  unfold fresh_registers. rewrite !captured_app, Hk. split.
  - split; [exact Hnd|]. intros c Hin Hc. apply in_app_iff in Hc.
    destruct Hc as [Hc|[Hc|[]]].
    + apply (Hfr c); [now right | exact Hc].
    + subst c. contradiction.
  - rewrite count_occ_app, count_occ_cons_eq by reflexivity.
    rewrite (proj1 (count_occ_not_In Nat.eq_dec (captured_callbacks cl) cb)).
    + simpl. lia.
    + apply Hfr. now left.
Qed.

Lemma handles_unique_new w h k w' :
  handles_unique w ->
  h = nextHandle w ->
  calls w' = calls w ++ [(h, k)] ->
  nextHandle w' = S h ->
  handles_unique w'.
Proof.
  intros [Hnd Hb] -> Hc Hn. unfold handles_unique, handles_below. rewrite Hc, Hn. split.
  - rewrite map_app. simpl.
    apply NoDup_app; [exact Hnd | repeat constructor; intros [] | ].
    intros x Hx [<-|[]]. apply in_map_iff in Hx. destruct Hx as (p & Hp & Hin).
    specialize (Hb p Hin). lia.
  - intros p Hin. apply in_app_iff in Hin. destruct Hin as [Hin|[<-|[]]].
    + specialize (Hb p Hin). lia.
    + simpl. lia.
Qed.

Lemma consistent_with_skip i batch w :
  consistent_with (i :: batch) w -> consistent_with batch w.
Proof.
  intros (Hr & Hsh & Hfr & Hu). repeat split; try assumption; try apply Hu.
  - destruct i; cbn [register_callbacks flat_map app] in Hfr.
    + apply fresh_registers_tail in Hfr. apply Hfr.
    + apply Hfr.
  - destruct i; cbn [register_callbacks flat_map app] in Hfr.
    + apply fresh_registers_tail in Hfr. apply Hfr.
    + apply Hfr.
Qed.

Lemma consistent_with_defer i batch w :
  deferring (state w) = true ->
  consistent_with (i :: batch) w ->
  consistent_with batch (set_inputQueue (inputQueue w ++ [i]) w).
Proof.
  intros Hd (Hr & Hsh & Hfr & Hu). destruct w as [s t q pt cur tm cl nh].
  unfold consistent_with, shape, set_inputQueue in *.
  cbn [state targetReplayState inputQueue _pollingTimer
       _currentOperationCallback timers calls nextHandle] in *.
  split; [exact Hr|]. split; [destruct s; try discriminate; assumption|].
  split; [|exact Hu].
  eapply fresh_registers_perm; [|exact Hfr].
  rewrite register_callbacks_app.
  replace (register_callbacks (i :: batch))
    with (register_callbacks [i] ++ register_callbacks batch)
    by (cbn [register_callbacks flat_map]; now rewrite app_nil_r).
  rewrite <- app_assoc. apply Permutation_app_rot.
Qed.

(** An attempt goes on with a new transport call, for a callback that no
    outstanding completion captures. *)
Lemma consistent_attempt batch w0 s pt k callback :
  s = sendingRegistrationRequest \/ s = polling ->
  captured_callbacks [(nextHandle w0, k)] = [callback] ->
  carried_callbacks [(nextHandle w0, k)] = [] ->
  carried_callbacks (calls w0) = [] ->
  fresh_registers (callback :: register_callbacks batch ++ []) (calls w0) ->
  handles_unique w0 ->
  consistent_with batch
    (mkWorld s s [] pt (Some callback) []
       (calls w0 ++ [(nextHandle w0, k)]) (S (nextHandle w0))).
Proof.
  intros Hs Hk1 Hk2 Hcar Hfr Hu.
  destruct (fresh_registers_attempt callback (register_callbacks batch ++ [])
              (calls w0) (nextHandle w0) k Hk1 Hfr) as [Hfr' Hcount].
  unfold consistent_with, shape.
  cbn [state targetReplayState inputQueue _pollingTimer
       _currentOperationCallback timers calls nextHandle register_callbacks flat_map].
  split; [reflexivity|]. split; [|split].
  - destruct Hs; subst s; exists callback; rewrite carried_app, Hcar, Hk2;
      repeat split; try reflexivity; exact Hcount.
  - exact Hfr'.
  - eapply handles_unique_new; try eassumption; reflexivity.
Qed.

(** A teardown starts: one end-session call is outstanding. *)
Lemma consistent_teardown batch w0 pt err body result callback :
  carried_callbacks (calls w0) = [] ->
  fresh_registers (register_callbacks batch ++ []) (calls w0) ->
  handles_unique w0 ->
  consistent_with batch
    (mkWorld endingSession endingSession [] pt None []
       (calls w0 ++ [(nextHandle w0, endSessionCompletion err body result callback)])
       (S (nextHandle w0))).
Proof.
  intros Hcar Hfr Hu.
  unfold consistent_with, shape.
  cbn [state targetReplayState inputQueue _pollingTimer
       _currentOperationCallback timers calls nextHandle register_callbacks flat_map].
  split; [reflexivity|]. split; [|split].
  - rewrite carried_app, Hcar. repeat split; try reflexivity. now exists callback.
  - eapply fresh_registers_sub; [|exact Hfr].
    intros cb. rewrite captured_app. cbn. now rewrite app_nil_r.
  - eapply handles_unique_new; try eassumption; reflexivity.
Qed.

Ltac by_attempt :=
  match goal with
  | Hu : handles_unique ?w0
    |- consistent_with ?b
         (mkWorld ?s _ _ ?pt (Some ?cb) _ (_ ++ [(_, ?k)]) _) =>
      apply (consistent_attempt b w0 s pt k cb); auto
  end.

Ltac by_teardown :=
  match goal with
  | Hu : handles_unique ?w0
    |- consistent_with ?b
         (mkWorld _ _ _ ?pt _ _ (_ ++ [(_, endSessionCompletion ?e ?bd ?r ?cb)]) _) =>
      apply (consistent_teardown b w0 pt e bd r cb); assumption
  end.

Ltac handled :=
  eexists; eexists;
  split; [cbn [transition]; machine_eval_handles; reflexivity | fields].

Lemma remove_handle_single {A} h (a : A) : remove_handle h [(h, a)] = [].
Proof. unfold remove_handle. simpl. now rewrite Nat.eqb_refl. Qed.

(** Handling one input, a call or a replayed one, keeps the invariant and
    needs no more fuel than one transition. *)
Lemma handle_consistent n i batch w :
  consistent_with (i :: batch) w ->
  exists w' l,
    handle (transition (S n)) i w = (w', l, Returned tt)
    /\ consistent_with batch w'.
Proof.
  intros H. pose proof H as (Hr & Hsh & Hfr & Hu). unfold shape in Hsh.
  pose proof (consistent_with_skip _ _ _ H) as (_ & _ & Hfr' & _).
  destruct w as [s t q pt cur tm cl nh].
  cbn [state targetReplayState inputQueue _pollingTimer
       _currentOperationCallback timers calls nextHandle] in *.
  destruct s; try contradiction.
  - (* disconnected *)
    destruct Hsh as (-> & -> & -> & Hcar). subst t.
    destruct i as [request requestBody callback|err body result callback]; handled.
    + by_attempt.
    + eapply consistent_with_skip. exact H.
  - (* idle *)
    destruct Hsh as (-> & -> & -> & Hcar). subst t.
    destruct i as [request requestBody callback|err body result callback]; handled.
    + by_attempt.
    + by_teardown.
  - (* sendingRegistrationRequest *)
    destruct Hsh as (cb & -> & -> & -> & Hcar & Hcount). subst t.
    destruct i as [request requestBody callback|err body result callback]; handled.
    + eapply consistent_with_skip. exact H.
    + by_teardown.
  - (* responseReceived *)
    match goal with
    | H : consistent_with _ ?w |- _ =>
        exists (set_inputQueue (inputQueue w ++ [i]) w), []
    end.
    split; [destruct i; reflexivity|].
    apply consistent_with_defer; [reflexivity | exact H].
  - (* waitingToPoll *)
    destruct Hsh as (cb & h & c & -> & -> & -> & -> & Hc & Hcar & Hnotin). subst t.
    destruct i as [request requestBody callback|err body result callback]; handled.
    + eapply consistent_with_skip. exact H.
    + rewrite remove_handle_single. by_teardown.
  - (* polling *)
    destruct Hsh as (cb & -> & -> & -> & Hcar & Hcount). subst t.
    destruct i as [request requestBody callback|err body result callback]; handled.
    + eapply consistent_with_skip. exact H.
    + by_teardown.
  - (* endingSession *)
    match goal with
    | H : consistent_with _ ?w |- _ =>
        exists (set_inputQueue (inputQueue w ++ [i]) w), []
    end.
    split; [destruct i; reflexivity|].
    apply consistent_with_defer; [reflexivity | exact H].
Qed.

(** Replaying the deferred inputs keeps the invariant. *)
Lemma replay_consistent n batch :
  forall w,
    consistent_with batch w ->
    exists w' l,
      forEach (handle (transition (S n))) batch w = (w', l, Returned tt)
      /\ consistent w'.
Proof.
  induction batch as [|i batch IH]; intros w H.
  - exists w, []. split; [reflexivity | exact H].
  - destruct (handle_consistent n i batch w H) as (w1 & l1 & E1 & H1).
    destruct (IH w1 H1) as (w2 & l2 & E2 & H2).
    exists w2, (l1 ++ l2). split; [|exact H2].
    cbn [forEach]. unfold bind. rewrite E1, E2. reflexivity.
Qed.

Lemma In_captured id k cb (cl : list (nat * Completion)) :
  In (id, k) cl -> In cb (captured_callbacks [(id, k)]) -> In cb (captured_callbacks cl).
Proof.
  intros Hin Hcb. unfold captured_callbacks in *. apply in_flat_map.
  exists (id, k). split; [exact Hin|]. cbn [flat_map] in Hcb. now rewrite app_nil_r in Hcb.
Qed.

Lemma handles_unique_removed w id w' :
  handles_unique w ->
  calls w' = remove_handle id (calls w) ->
  nextHandle w' = nextHandle w ->
  handles_unique w'.
Proof.
  intros [Hnd Hb] Hc Hn. unfold handles_unique, handles_below. rewrite Hc, Hn. split.
  - unfold remove_handle. clear Hb Hc. induction (calls w) as [|p l IH]; simpl.
    + constructor.
    + simpl in Hnd. apply NoDup_cons_iff in Hnd. destruct Hnd as [Hnotin Hnd].
      destruct (negb (Nat.eqb (fst p) id)); [|now apply IH].
      simpl. constructor; [|now apply IH].
      intros Hin. apply Hnotin. apply in_map_iff in Hin.
      destruct Hin as (x & Hx & Hf). apply filter_In in Hf.
      apply in_map_iff. exists x. tauto.
  - now apply handles_below_removed.
Qed.

(** What is left once the transport has answered call [id]: the callbacks
    of the other calls. *)
Lemma removed_callbacks id k (cl : list (nat * Completion)) :
  NoDup (map fst cl) ->
  lookup_handle id cl = Some k ->
  exists l1 l2,
    remove_handle id cl = l1 ++ l2
    /\ captured_callbacks cl
       = captured_callbacks l1 ++ captured_callbacks [(id, k)] ++ captured_callbacks l2
    /\ carried_callbacks cl
       = carried_callbacks l1 ++ carried_callbacks [(id, k)] ++ carried_callbacks l2
    /\ captured_callbacks (remove_handle id cl)
       = captured_callbacks l1 ++ captured_callbacks l2
    /\ carried_callbacks (remove_handle id cl)
       = carried_callbacks l1 ++ carried_callbacks l2.
Proof.
  intros Hnd Hl. destruct (lookup_split id cl k Hnd Hl) as (l1 & l2 & -> & Hr).
  exists l1, l2. rewrite Hr.
  change ((id, k) :: l2) with ([(id, k)] ++ l2).
  now rewrite !captured_app, !carried_app.
Qed.

Lemma count_In_le (l l' : list nat) :
  (forall x, count_occ Nat.eq_dec l' x <= count_occ Nat.eq_dec l x) ->
  forall x, In x l' -> In x l.
Proof.
  intros H x Hin. apply (count_occ_In Nat.eq_dec) in Hin.
  apply (count_occ_In Nat.eq_dec). specialize (H x). lia.
Qed.

(** The invariant does not depend on calls that capture or carry nothing
    new. *)
Lemma consistent_calls_shrunk w cl' :
  consistent w ->
  carried_callbacks cl' = carried_callbacks (calls w) ->
  (forall x, count_occ Nat.eq_dec (captured_callbacks cl') x
             <= count_occ Nat.eq_dec (captured_callbacks (calls w)) x) ->
  handles_unique (set_calls cl' w) ->
  consistent (set_calls cl' w).
Proof.
  intros (Hr & Hsh & Hfr & Hu) Hcar Hcount Hu'.
  pose proof (count_In_le _ _ Hcount) as Hsub.
  destruct w as [s t q pt cur tm cl nh].
  unfold consistent, consistent_with, shape, set_calls in *.
  cbn [state targetReplayState inputQueue _pollingTimer
       _currentOperationCallback timers calls nextHandle] in *.
  split; [exact Hr|]. split; [|split; [|exact Hu']].
  - rewrite Hcar. destruct s; try assumption.
    + destruct Hsh as (cb & H1 & H2 & H3 & H4 & H5). exists cb.
      repeat split; try assumption. specialize (Hcount cb). lia.
    + destruct Hsh as (cb & h & c & H1 & H2 & H3 & H4 & H5 & H6 & H7). exists cb, h, c.
      repeat split; try assumption. intros Hin. apply H7. now apply Hsub.
    + destruct Hsh as (cb & H1 & H2 & H3 & H4 & H5). exists cb.
      repeat split; try assumption. specialize (Hcount cb). lia.
  - eapply fresh_registers_sub; [exact Hsub | exact Hfr].
Qed.

(** The transport has answered a registration request or a status query:
    its completion is gone, whatever the machine then does with it. *)
Lemma consistent_answered w id k request callback :
  consistent w ->
  lookup_handle id (calls w) = Some k ->
  response_completion k request callback ->
  consistent (set_calls (remove_handle id (calls w)) w)
  /\ carried_callbacks (remove_handle id (calls w)) = carried_callbacks (calls w)
  /\ count_occ Nat.eq_dec (captured_callbacks (calls w)) callback
     = S (count_occ Nat.eq_dec (captured_callbacks (remove_handle id (calls w))) callback).
Proof.
  intros H Hl Hk. pose proof H as (_ & _ & _ & Hu).
  destruct (removed_callbacks id k (calls w) (proj1 Hu) Hl)
    as (l1 & l2 & Hrem & Hcap & Hcar & Hcap' & Hcar').
  assert (Hk1 : captured_callbacks [(id, k)] = [callback])
    by (destruct Hk; subst k; reflexivity).
  assert (Hk2 : carried_callbacks [(id, k)] = [])
    by (destruct Hk; subst k; reflexivity).
  rewrite Hk1 in Hcap. rewrite Hk2 in Hcar. cbn [app] in Hcar.
  assert (Hcareq : carried_callbacks (remove_handle id (calls w))
                   = carried_callbacks (calls w)) by congruence.
  assert (Hcount : forall x,
             count_occ Nat.eq_dec (captured_callbacks (remove_handle id (calls w))) x
             <= count_occ Nat.eq_dec (captured_callbacks (calls w)) x).
  { intros x. rewrite Hcap, Hcap', !count_occ_app. lia. }
  split; [|split].
  - apply consistent_calls_shrunk; try assumption.
    eapply handles_unique_removed; [exact Hu | reflexivity | reflexivity].
  - exact Hcareq.
  - rewrite Hcap, Hcap', !count_occ_app, count_occ_cons_eq by reflexivity.
    cbn [count_occ]. lia.
Qed.

Lemma handles_unique_next w w' :
  handles_unique w ->
  calls w' = calls w ->
  nextHandle w <= nextHandle w' ->
  handles_unique w'.
Proof.
  intros [Hnd Hb] Hc Hn. unfold handles_unique, handles_below. rewrite Hc.
  split; [exact Hnd|]. intros p Hin. specialize (Hb p Hin). lia.
Qed.

(** The worlds a response to the current attempt can lead to. *)
Lemma consistent_after_response w1 callback :
  consistent w1 ->
  state w1 = sendingRegistrationRequest \/ state w1 = polling ->
  _currentOperationCallback w1 = Some callback ->
  ~ In callback (captured_callbacks (calls w1)) ->
  (forall err body result,
      consistent (ending w1 (calls w1) err body result callback))
  /\ consistent (mkWorld idle idle [] (_pollingTimer w1) None (timers w1)
                   (calls w1) (nextHandle w1))
  /\ (forall c, timer_callback c = callback ->
      consistent (mkWorld waitingToPoll waitingToPoll [] (Some (nextHandle w1))
                    (Some callback) (timers w1 ++ [(nextHandle w1, c)])
                    (calls w1) (S (nextHandle w1))))
  /\ consistent (mkWorld responseReceived responseReceived [] (_pollingTimer w1)
                   (Some callback) (timers w1) (calls w1) (nextHandle w1)).
Proof.
  intros (Hr & Hsh & Hfr & Hu) Hs Hcur Hnotin.
  assert (Hfacts : inputQueue w1 = [] /\ timers w1 = []
                   /\ carried_callbacks (calls w1) = []).
  { unfold shape in Hsh. destruct Hs as [Hs|Hs]; rewrite Hs in Hsh;
      destruct Hsh as (cb & _ & H2 & H3 & H4 & _); auto. }
  destruct Hfacts as (Hq & Ht & Hcar). rewrite Hq in Hfr.
  split; [|split; [|split]].
  - intros err body result. unfold ending. rewrite Ht.
    apply (consistent_teardown [] w1); assumption.
  - unfold consistent, consistent_with, shape.
    cbn [state targetReplayState inputQueue _pollingTimer
         _currentOperationCallback timers calls nextHandle].
    repeat split; try assumption; try reflexivity; try apply Hfr; apply Hu.
  - intros c Hc. unfold consistent, consistent_with, shape.
    cbn [state targetReplayState inputQueue _pollingTimer
         _currentOperationCallback timers calls nextHandle].
    split; [reflexivity|]. split; [|split].
    + exists callback, (nextHandle w1), c. rewrite Ht. repeat split; assumption.
    + exact Hfr.
    + eapply handles_unique_next; [exact Hu | reflexivity | cbn; lia].
  - unfold consistent, consistent_with, shape.
    cbn [state targetReplayState inputQueue _pollingTimer
         _currentOperationCallback timers calls nextHandle].
    split; [reflexivity|]. split; [|split].
    + exists callback. repeat split; assumption.
    + exact Hfr.
    + eapply handles_unique_next; [exact Hu | reflexivity | cbn; lia].
Qed.

Lemma reply_wedged w id k request callback err body result pollingInterval :
  state w = responseReceived ->
  lookup_handle id (calls w) = Some k ->
  response_completion k request callback ->
  step (TransportReplied id err body result pollingInterval) w
  = (set_calls (remove_handle id (calls w)) w, [], Returned tt).
Proof.
  intros Hs Hl Hk.
  destruct (option_nat_eqb (_currentOperationCallback w) (Some callback)) eqn:E.
  - apply option_nat_eqb_eq in E. destruct w as [s t q pt cur tm cl nh].
    cbn [state _currentOperationCallback calls] in *. subst s cur.
    destruct Hk; subst k; deliver Hl; machine_eval; reflexivity.
  - eapply reply_stale; try eassumption.
    intros E'. apply option_nat_eqb_eq in E'. congruence.
Qed.

(** A response to the current attempt keeps the invariant, whether it is
    classified or makes the handler throw. *)
Lemma reply_current_consistent w id request callback err body result pollingInterval :
  consistent w ->
  awaiting_response w id request callback ->
  exists w' l o,
    step (TransportReplied id err body result pollingInterval) w = (w', l, o)
    /\ o <> OutOfFuel
    /\ consistent w'.
Proof.
  intros H Ha. pose proof Ha as (Hs & Hcur & Hq & k & Hl & Hk).
  destruct (consistent_answered w id k request callback H Hl Hk) as (H1 & Hcar & Hcount).
  assert (Hnotin : ~ In callback (captured_callbacks (remove_handle id (calls w)))).
  { apply (count_occ_not_In Nat.eq_dec).
    destruct H as (_ & Hsh & _ & _). unfold shape in Hsh.
    destruct Hs as [Hs|Hs]; rewrite Hs in Hsh;
      destruct Hsh as (cb & Hcb & _ & _ & _ & Hle);
      assert (cb = callback) by congruence; subst cb; lia. }
  destruct (consistent_after_response (set_calls (remove_handle id (calls w)) w)
              callback H1 Hs Hcur Hnotin) as (Hend & Hidle & Hwait & Hwedged).
  destruct err as [e|].
  { rewrite (reply_error w id request callback Ha).
    do 3 eexists. split; [reflexivity|]. split; [discriminate|]. apply Hend. }
  destruct body as [b|].
  2: { rewrite (reply_no_body w id request callback Ha).
       do 3 eexists. split; [reflexivity|]. split; [discriminate|]. apply Hwedged. }
  destruct (status b) as [| |s|tag] eqn:Hst.
  4:{ rewrite (reply_not_a_string w id request callback Ha b tag) by assumption.
      do 3 eexists. split; [reflexivity|]. split; [discriminate|]. apply Hwedged. }
  { rewrite (reply_no_status w id request callback Ha) by auto.
    do 3 eexists. split; [reflexivity|]. split; [discriminate|]. apply Hwedged. }
  { rewrite (reply_no_status w id request callback Ha) by auto.
    do 3 eexists. split; [reflexivity|]. split; [discriminate|]. apply Hwedged. }
  destruct (string_dec (toLowerCase s) "assigned") as [E1|E1].
  { rewrite (reply_assigned w id request callback Ha b s) by assumption.
    do 3 eexists. split; [reflexivity|]. split; [discriminate|]. apply Hidle. }
  destruct (string_dec (toLowerCase s) "assigning") as [E2|E2].
  { rewrite (reply_assigning w id request callback Ha b s) by assumption.
    do 3 eexists. split; [reflexivity|]. split; [discriminate|].
    apply (Hwait (mkTimer request (operationId b) pollingInterval callback)). reflexivity. }
  destruct (string_dec (toLowerCase s) "failed") as [E3|E3].
  { rewrite (reply_failed w id request callback Ha b s) by assumption.
    do 3 eexists. split; [reflexivity|]. split; [discriminate|]. apply Hend. }
  rewrite (reply_unknown w id request callback Ha b s) by assumption.
  do 3 eexists. split; [reflexivity|]. split; [discriminate|]. apply Hend.
Qed.

Lemma reply_consistent w id err body result pollingInterval :
  consistent w ->
  exists w' l o,
    step (TransportReplied id err body result pollingInterval) w = (w', l, o)
    /\ o <> OutOfFuel
    /\ consistent w'.
Proof.
  intros H.
  assert (Hsame : forall r, r = (w, @nil Effect, Returned tt) ->
            exists w' l o, r = (w', l, o) /\ o <> OutOfFuel /\ consistent w').
  { intros r ->. do 3 eexists. split; [reflexivity|]. split; [discriminate|exact H]. }
  destruct (lookup_handle id (calls w)) as [k|] eqn:Hl.
  2: { apply Hsame. unfold step, bind, gets. rewrite Hl. reflexivity. }
  assert (Hkind : (exists request callback, response_completion k request callback)
                  \/ exists e b r cb, k = endSessionCompletion e b r cb).
  { destruct k as [rq cb|rq cb|e b r cb].
    - left. exists rq, cb. now left.
    - left. exists rq, cb. now right.
    - right. now exists e, b, r, cb. }
  destruct Hkind as [(request & callback & Hk)|(e & b & r & cb & ->)].
  2: { apply Hsame. unfold step, bind, gets. rewrite Hl. reflexivity. }
  destruct (consistent_answered w id k request callback H Hl Hk) as (H1 & _ & _).
  assert (Hgone : forall r,
            r = (set_calls (remove_handle id (calls w)) w, @nil Effect, Returned tt) ->
            exists w' l o, r = (w', l, o) /\ o <> OutOfFuel /\ consistent w').
  { intros r ->. do 3 eexists. split; [reflexivity|]. split; [discriminate|exact H1]. }
  destruct (option_nat_eqb (_currentOperationCallback w) (Some callback)) eqn:E.
  2: { apply Hgone. eapply reply_stale; try eassumption.
       intros E'. apply option_nat_eqb_eq in E'. congruence. }
  apply option_nat_eqb_eq in E.
  pose proof H as (_ & Hsh & _ & _). unfold shape in Hsh.
  destruct (state w) eqn:Hs; try contradiction.
  - destruct Hsh as (Hnone & _). congruence.
  - destruct Hsh as (Hnone & _). congruence.
  - destruct Hsh as (cb & Hcb & Hq & _).
    apply (reply_current_consistent w id request callback); [exact H|].
    repeat split; auto. exists k. auto.
  - apply Hgone. eapply reply_wedged; eassumption.
  - destruct Hsh as (cb & h & c & Hcb & _ & _ & _ & _ & _ & Hnotin).
    exfalso. apply Hnotin. assert (cb = callback) by congruence. subst cb.
    apply (In_captured id k); [now apply lookup_handle_In|].
    destruct Hk; subst k; now left.
  - destruct Hsh as (cb & Hcb & Hq & _).
    apply (reply_current_consistent w id request callback); [exact H|].
    repeat split; auto. exists k. auto.
  - destruct Hsh as (Hnone & _). congruence.
Qed.

Lemma timer_consistent w h :
  consistent w ->
  exists w' l o,
    step (TimerElapsed h) w = (w', l, o) /\ o <> OutOfFuel /\ consistent w'.
Proof.
  intros H.
  assert (Hsame : forall r, r = (w, @nil Effect, Returned tt) ->
            exists w' l o, r = (w', l, o) /\ o <> OutOfFuel /\ consistent w').
  { intros r ->. do 3 eexists. split; [reflexivity|]. split; [discriminate|exact H]. }
  destruct (lookup_handle h (timers w)) as [c|] eqn:Hl.
  2: { apply Hsame. unfold step, bind, gets. rewrite Hl. reflexivity. }
  pose proof H as (Hr & Hsh & Hfr & Hu). unfold shape in Hsh.
  destruct w as [s t q pt cur tm cl nh].
  cbn [state targetReplayState inputQueue _pollingTimer
       _currentOperationCallback timers calls nextHandle] in *.
  destruct s; try contradiction;
    try (destruct Hsh as (? & ? & ? & ?); subst; discriminate);
    try (destruct Hsh as (? & ? & ? & ? & ?); subst; discriminate).
  destruct Hsh as (cb & h0 & c0 & -> & -> & -> & -> & Hc & Hcar & Hnotin). subst t.
  pose proof Hl as Hl'. unfold lookup_handle in Hl'. cbn [find fst snd] in Hl'.
  destruct (Nat.eqb h0 h) eqn:E; simpl in Hl'; [|discriminate]. injection Hl' as <-.
  destruct c0 as [rq op pi tcb]. cbn [timer_callback] in Hc. subst tcb.
  do 2 eexists. exists (Returned tt). split; [|split; [discriminate|]].
  - deliver Hl. unfold remove_handle. cbn [filter fst]. rewrite E. cbn [negb].
    unfold fuel. cbn [transition]. machine_eval. reflexivity.
  - fields.
    match goal with
    | Hu : handles_unique ?w0 |- _ =>
        apply (consistent_attempt [] w0 polling (Some h0) (queryCompletion rq cb) cb);
          auto
    end.
    split.
    + repeat constructor. intros [].
    + intros x [<-|[]]. exact Hnotin.
Qed.

Lemma app_eq_single {A} (l1 l2 : list A) a b :
  l1 ++ a :: l2 = [b] -> l1 = [] /\ l2 = [].
Proof.
  intros H. apply (f_equal (@List.length A)) in H. rewrite length_app in H.
  cbn in H. destruct l1, l2; cbn in H; try lia. auto.
Qed.

Lemma session_ended_consistent w id disconnectErr :
  consistent w ->
  exists w' l o,
    step (TransportSessionEnded id disconnectErr) w = (w', l, o)
    /\ o <> OutOfFuel /\ consistent w'.
Proof.
  intros H.
  assert (Hsame : forall r, r = (w, @nil Effect, Returned tt) ->
            exists w' l o, r = (w', l, o) /\ o <> OutOfFuel /\ consistent w').
  { intros r ->. do 3 eexists. split; [reflexivity|]. split; [discriminate|exact H]. }
  destruct (lookup_handle id (calls w)) as [k|] eqn:Hl.
  2: { apply Hsame. unfold step, bind, gets. rewrite Hl. reflexivity. }
  destruct k as [rq cb|rq cb|e b r cb];
    try (apply Hsame; unfold step, bind, gets; rewrite Hl; reflexivity).
  pose proof H as (Hr & Hsh & Hfr & Hu). unfold shape in Hsh.
  destruct (removed_callbacks id _ (calls w) (proj1 Hu) Hl)
    as (l1 & l2 & Hrem & Hcap & Hcar & Hcap' & Hcar').
  cbn [captured_callbacks carried_callbacks flat_map snd app] in Hcap, Hcar.
  assert (Hin : In cb (carried_callbacks (calls w))).
  { rewrite Hcar. apply in_or_app. right. now left. }
  destruct w as [s t q pt cur tm cl nh].
  cbn [state targetReplayState inputQueue _pollingTimer
       _currentOperationCallback timers calls nextHandle] in *.
  destruct s; try contradiction;
    try (destruct Hsh as (_ & _ & _ & Hnil); rewrite Hnil in Hin; contradiction);
    try (destruct Hsh as (? & _ & _ & _ & Hnil & _); rewrite Hnil in Hin; contradiction);
    try (destruct Hsh as (? & _ & _ & Hnil); rewrite Hnil in Hin; contradiction);
    try (destruct Hsh as (? & ? & ? & _ & _ & _ & _ & _ & Hnil & _);
         rewrite Hnil in Hin; contradiction).
  destruct Hsh as (-> & -> & cb0 & Hone). subst t.
  rewrite Hcar in Hone. apply app_eq_single in Hone. destruct Hone as [Hc1 Hc2].
  rewrite Hc1, Hc2 in Hcar'. cbn [app] in Hcar'.
  set (w0 := mkWorld disconnected disconnected [] pt None [] (remove_handle id cl) nh).
  assert (Hw0 : consistent_with q w0).
  { unfold consistent_with, shape, w0.
    cbn [state targetReplayState inputQueue _pollingTimer
         _currentOperationCallback timers calls nextHandle register_callbacks flat_map].
    split; [reflexivity|]. split; [auto|]. split.
    - rewrite app_nil_r. eapply fresh_registers_sub; [|exact Hfr].
      intros x. rewrite Hcap, Hcap'. auto.
    - eapply handles_unique_removed; [exact Hu | reflexivity | reflexivity]. }
  destruct (replay_consistent 6 q w0 Hw0) as (w' & l & E & Hc').
  exists w', ([Transitioned endingSession disconnected;
               Resolve cb (js_or e disconnectErr) b r] ++ l), (Returned tt).
  split; [|split; [discriminate|exact Hc']].
  deliver Hl. unfold fuel.
  change (transition 8) with (transitionWith (transition 7)).
  remember (transition 7) as tr eqn:Htr.
  unfold onSessionEnded, transitionWith.
  cbn -[processQueue forEach handle remove_handle]. fields.
  unfold processQueue, gets, modify, bind at 1 2. fields. subst tr.
  unfold w0 in E. rewrite E. reflexivity.
Qed.

Lemma call_consistent w i :
  consistent w ->
  (forall cb, In cb (register_callbacks [i]) -> ~ In cb (known_callbacks w)) ->
  exists w' l o,
    handle (transition fuel) i w = (w', l, o) /\ o <> OutOfFuel /\ consistent w'.
Proof.
  intros (Hr & Hsh & Hfr & Hu) Hnew.
  assert (H : consistent_with [i] w).
  { split; [exact Hr|]. split; [exact Hsh|]. split; [|exact Hu].
    cbn [register_callbacks flat_map app] in Hfr.
    destruct i as [rq rb cb|e b r cb]; cbn [register_callbacks flat_map app] in *;
      [|exact Hfr].
    assert (Hk : ~ In cb (known_callbacks w)) by (apply Hnew; now left).
    unfold known_callbacks in Hk. rewrite !in_app_iff in Hk.
    destruct Hfr as [Hnd Hfresh]. split.
    - constructor; [tauto | exact Hnd].
    - intros x [<-|Hx]; [tauto | now apply Hfresh]. }
  destruct (handle_consistent 7 i [] w H) as (w' & l & E & Hc).
  exists w', l, (Returned tt). split; [exact E|]. split; [discriminate|exact Hc].
Qed.

(** Every admissible event keeps the invariant, and the fuel of [step] is
    enough for it. *)
Theorem step_consistent w ev :
  consistent w ->
  admissible ev w ->
  exists w' l o,
    step ev w = (w', l, o) /\ o <> OutOfFuel /\ consistent w'.
Proof.
  intros H Ha. destruct ev as [rq rb cb|cb|h|id e b r pi|id r pi|id de].
  - apply call_consistent; [exact H|]. intros x [<-|[]]. exact Ha.
  - apply call_consistent; [exact H|]. intros x [].
  - now apply timer_consistent.
  - now apply reply_consistent.
  - rewrite unserialisable_as_no_body. now apply reply_consistent.
  - now apply session_ended_consistent.
Qed.

Lemma initial_consistent : consistent initial.
Proof.
  unfold consistent, consistent_with, shape, initial, fresh_registers,
    handles_unique, handles_below. cbn.
  repeat split; auto; try constructor; intros ? [].
Qed.

Lemma reachable_consistent w : reachable w -> consistent w.
Proof.
  induction 1 as [|w ev Hw IH Ha].
  - apply initial_consistent.
  - destruct (step_consistent w ev IH Ha) as (w' & l & o & E & _ & Hc).
    rewrite E. exact Hc.
Qed.


(** In a reachable world the handles of outstanding calls are below the
    next one, and inputs are queued only in the states that defer. *)
Lemma reachable_settled w :
  reachable w -> handles_below w /\ settled w.
Proof.
  intros Hw. apply reachable_consistent in Hw.
  destruct Hw as (_ & Hsh & _ & Hu). split; [apply Hu|].
  unfold shape in Hsh. unfold settled.
  destruct (state w); try contradiction; cbn [deferring]; auto; right.
  - apply Hsh.
  - apply Hsh.
  - destruct Hsh as (cb & _ & Hq & _). exact Hq.
  - destruct Hsh as (cb & h & c & _ & Hq & _). exact Hq.
  - destruct Hsh as (cb & _ & Hq & _). exact Hq.
Qed.

(** ** What every event keeps *)

Section Preservation.

Variable I : World -> Prop.

Lemma preserves_ret {A} (a : A) : preserves I (ret a).
Proof. intros w H. exact H. Qed.

Lemma preserves_gets {A} (f : World -> A) : preserves I (gets f).
Proof. intros w H. exact H. Qed.

Lemma preserves_tell e : preserves I (tell e).
Proof. intros w H. exact H. Qed.

Lemma preserves_throw {A} e : preserves I (@throw A e).
Proof. intros w H. exact H. Qed.

Lemma preserves_outOfFuel {A} : preserves I (@outOfFuel A).
Proof. intros w H. exact H. Qed.

Lemma preserves_modify f : (forall w, I w -> I (f w)) -> preserves I (modify f).
Proof. intros Hf w H. apply Hf, H. Qed.

Lemma preserves_bind {A B} (m : M A) (k : A -> M B) :
  preserves I m -> (forall a, preserves I (k a)) -> preserves I (bind m k).
Proof.
  intros Hm Hk w H. unfold bind. specialize (Hm w H).
  destruct (m w) as [[w1 l1] [a|e|]]; unfold world_of in *; cbn [fst snd] in *.
  - specialize (Hk a w1 Hm). destruct (k a w1) as [[w2 l2] o]. exact Hk.
  - exact Hm.
  - exact Hm.
Qed.

Lemma preserves_forEach {A} (f : A -> M unit) l :
  (forall a, preserves I (f a)) -> preserves I (forEach f l).
Proof.
  intros Hf. induction l as [|a l IH]; cbn [forEach].
  - apply preserves_ret.
  - apply preserves_bind; auto.
Qed.

End Preservation.

Create HintDb keeps.
#[local] Hint Resolve preserves_ret preserves_gets preserves_tell preserves_throw
  preserves_outOfFuel : keeps.

Ltac preserving :=
  repeat first
    [ assumption
    | progress auto with keeps nocore
    | match goal with
      | |- preserves _ (match ?x with _ => _ end) => destruct x
      | |- preserves _ (if ?b then _ else _) => destruct b
      | |- preserves _ (bind _ _) => apply preserves_bind; [|intros ?]
      | |- preserves _ (modify _) => apply preserves_modify; intros ? ?
      end ].

(** *** Handles stay distinct *)

Lemma handles_unique_same w w' :
  handles_unique w -> calls w' = calls w -> nextHandle w' = nextHandle w ->
  handles_unique w'.
Proof.
  intros H Hc Hn. eapply handles_unique_next; [exact H | exact Hc | lia].
Qed.

Lemma keeps_handles_transport_registrationRequest request requestBody k :
  preserves handles_unique (transport_registrationRequest request requestBody k).
Proof.
  intros w H. eapply handles_unique_new; [exact H | reflexivity | reflexivity | reflexivity].
Qed.

Lemma keeps_handles_transport_queryOperationStatus request opId k :
  preserves handles_unique (transport_queryOperationStatus request opId k).
Proof.
  intros w H. eapply handles_unique_new; [exact H | reflexivity | reflexivity | reflexivity].
Qed.

Lemma keeps_handles_transport_endSession k :
  preserves handles_unique (transport_endSession k).
Proof.
  intros w H. eapply handles_unique_new; [exact H | reflexivity | reflexivity | reflexivity].
Qed.

Lemma keeps_handles_setTimeout c delay :
  preserves handles_unique (setTimeout c delay).
Proof.
  intros w H. eapply handles_unique_next; [exact H | reflexivity | cbn; lia].
Qed.

Lemma keeps_handles_clearTimeout h :
  preserves handles_unique (clearTimeout h).
Proof.
  intros w H. destruct h; (eapply handles_unique_same; [exact H | reflexivity | reflexivity]).
Qed.

#[local] Hint Resolve keeps_handles_transport_registrationRequest
  keeps_handles_transport_queryOperationStatus keeps_handles_transport_endSession
  keeps_handles_setTimeout keeps_handles_clearTimeout : keeps.

Ltac same_handles :=
  match goal with
  | H : handles_unique ?w |- handles_unique _ =>
      apply (handles_unique_same w); [exact H | reflexivity | reflexivity]
  end.

Lemma keeps_handles_onEnter tr e :
  (forall e', preserves handles_unique (tr e')) ->
  preserves handles_unique (onEnter tr e).
Proof.
  intros Htr. destruct e; cbn [onEnter]; preserving; try same_handles; apply Htr.
Qed.

Lemma keeps_handles_handler tr s i :
  (forall e', preserves handles_unique (tr e')) ->
  preserves handles_unique (handler tr s i).
Proof.
  intros Htr. destruct s, i; cbn [handler]; unfold inProgress, deferUntilTransition;
    preserving; try same_handles; apply Htr.
Qed.

Lemma keeps_handles_transitionWith tr e :
  (forall e', preserves handles_unique (tr e')) ->
  preserves handles_unique (transitionWith tr e).
Proof.
  intros Htr. unfold transitionWith, processQueue, handle.
  pose proof (keeps_handles_onEnter tr e Htr).
  preserving; try same_handles.
  apply preserves_forEach. intros i. preserving. now apply keeps_handles_handler.
Qed.

Lemma keeps_handles_transition n : forall e, preserves handles_unique (transition n e).
Proof.
  induction n as [|n IH]; intros e; cbn [transition].
  - apply preserves_outOfFuel.
  - now apply keeps_handles_transitionWith.
Qed.

Lemma preserves_after {A} (I : World -> Prop) f (m : M A) w :
  I (f w) -> preserves I m -> I (world_of ((modify f;; m) w)).
Proof.
  intros Hf Hm. unfold bind, modify. specialize (Hm (f w) Hf). unfold world_of in *.
  destruct (m (f w)) as [[w2 l2] o]. exact Hm.
Qed.

Lemma preserves_reading {A B} (I : World -> Prop) (f : World -> A) (k : A -> M B) w :
  I (world_of (k (f w) w)) -> I (world_of ((x <- gets f;; k x) w)).
Proof.
  unfold bind, gets, world_of. destruct (k (f w) w) as [[w2 l2] o]. exact (fun H => H).
Qed.

Lemma keeps_handles_step ev : preserves handles_unique (step ev).
Proof.
  pose proof (keeps_handles_transition fuel) as Htr.
  pose proof (fun s i => keeps_handles_handler (transition fuel) s i Htr) as Hh.
  destruct ev as [rq rb cb|cb|h|id e b r pi|id r pi|id de]; cbn [step].
  - unfold handle. preserving.
  - unfold handle. preserving.
  - intros w H. apply preserves_reading.
    destruct (lookup_handle h (timers w)) as [c|]; [|exact H].
    apply preserves_after; [exact H|]. unfold onTimer. preserving.
  - intros w H. apply preserves_reading.
    assert (Hrem : handles_unique (set_calls (remove_handle id (calls w)) w)).
    { eapply handles_unique_removed; [exact H | reflexivity | reflexivity]. }
    destruct (lookup_handle id (calls w)) as [[rq cb|rq cb|e' b' r' cb]|];
      try exact H;
      (apply preserves_after; [exact Hrem|]; unfold onResponse; preserving).
  - intros w H. apply preserves_reading.
    assert (Hrem : handles_unique (set_calls (remove_handle id (calls w)) w)).
    { eapply handles_unique_removed; [exact H | reflexivity | reflexivity]. }
    destruct (lookup_handle id (calls w)) as [[rq cb|rq cb|e' b' r' cb]|];
      try exact H;
      (apply preserves_after; [exact Hrem|]; unfold onUnserialisableResponse;
       preserving).
  - intros w H. apply preserves_reading.
    assert (Hrem : handles_unique (set_calls (remove_handle id (calls w)) w)).
    { eapply handles_unique_removed; [exact H | reflexivity | reflexivity]. }
    destruct (lookup_handle id (calls w)) as [[rq cb|rq cb|e' b' r' cb]|];
      try exact H.
    apply preserves_after; [exact Hrem|]. unfold onSessionEnded. preserving.
Qed.

(** *** Inputs wait only in the states that defer *)

Lemma processQueue_settles n w :
  settled (world_of (processQueue (handle (transition (S n))) w)).
Proof.
  unfold processQueue, bind, gets, modify.
  destruct (replay_settled n (inputQueue w) (set_inputQueue [] w)) as (w' & l & E & H).
  { right. reflexivity. }
  rewrite E. exact H.
Qed.

Ltac replayed :=
  match goal with
  | |- context [processQueue (handle (transition (S ?n))) ?w] =>
      pose proof (processQueue_settles n w) as Hp;
      destruct (processQueue (handle (transition (S n))) w) as [[? ?] ?];
      exact Hp
  end.

(** Entering a state in which the machine rests ends with the replay of
    the queue. *)
Lemma keeps_settled_rest n e :
  rank e = 0 -> preserves settled (transitionWith (transition (S n)) e).
Proof.
  intros He w H. destruct w as [s t q pt cur tm cl nh].
  destruct e; try discriminate He; destruct s;
    try exact H;
    unfold transitionWith;
    try (destruct callback); try (destruct cur);
    cbn -[processQueue transition remove_handle lookup_handle];
    replayed.
Qed.

(** Entering a state that only classifies and moves on: the queue is left
    to the states it moves on to. *)
Lemma keeps_settled_passing tr e :
  0 < rank e ->
  (forall e', rank e' < rank e -> preserves settled (tr e')) ->
  preserves settled (processQueue (handle tr)) ->
  preserves settled (transitionWith tr e).
Proof.
  intros He Htr Hq. unfold transitionWith.
  destruct e; cbn [rank] in He; try lia; cbn [target onEnter];
    preserving; try (left; reflexivity); apply Htr; cbn; lia.
Qed.

Lemma keeps_settled_transition n :
  forall e, rank e <= n -> preserves settled (transition (S (S n)) e).
Proof.
  induction n as [|n IH]; intros e He.
  - change (preserves settled (transitionWith (transition 1) e)).
    apply keeps_settled_rest. lia.
  - change (preserves settled (transitionWith (transition (S (S n))) e)).
    destruct (rank e) as [|r] eqn:Hr.
    + now apply keeps_settled_rest.
    + apply keeps_settled_passing.
      * lia.
      * intros e' He'. apply IH. lia.
      * intros w _. apply processQueue_settles.
Qed.

Lemma keeps_settled_fuel e : preserves settled (transition fuel e).
Proof.
  apply (keeps_settled_transition 6). destruct e; cbn; lia.
Qed.

Lemma keeps_settled_step ev : preserves settled (step ev).
Proof.
  pose proof keeps_settled_fuel as Htr.
  destruct ev as [rq rb cb|cb|h|id e b r pi|id r pi|id de]; cbn [step].
  - intros w H. destruct (handle_settled 7 (input_register rq rb cb) w H)
      as (w' & l & E & H'). unfold fuel. rewrite E. exact H'.
  - intros w H. destruct (handle_settled 7 (input_endSession None None None cb) w H)
      as (w' & l & E & H'). unfold fuel. rewrite E. exact H'.
  - intros w H. apply preserves_reading.
    destruct (lookup_handle h (timers w)) as [c|]; [|exact H].
    apply preserves_after; [exact H|]. unfold onTimer. preserving.
  - intros w H. apply preserves_reading.
    destruct (lookup_handle id (calls w)) as [[rq cb|rq cb|e' b' r' cb]|];
      try exact H;
      (apply preserves_after; [exact H|]; unfold onResponse; preserving).
  - intros w H. apply preserves_reading.
    destruct (lookup_handle id (calls w)) as [[rq cb|rq cb|e' b' r' cb]|];
      try exact H;
      (apply preserves_after; [exact H|]; unfold onUnserialisableResponse; preserving).
  - intros w H. apply preserves_reading.
    destruct (lookup_handle id (calls w)) as [[rq cb|rq cb|e' b' r' cb]|];
      try exact H.
    apply preserves_after; [exact H|]. unfold onSessionEnded. preserving.
Qed.

(** Whatever the callers, the transport and the scheduler do, the handles
    of outstanding calls are distinct and below the next one, and inputs
    are queued only in the states that defer. *)
Theorem reachable_any_settled w :
  reachable_any w -> handles_unique w /\ settled w.
Proof.
  induction 1 as [|w ev Hw [IHu IHs]].
  - split; [apply initial_consistent | right; reflexivity].
  - split; [now apply keeps_handles_step | now apply keeps_settled_step].
Qed.

(** ** One token, one pending call *)

(** X17. When every [register] call brings a callback that no earlier call
    is still known by, then in every reachable world the machine serves at
    most one caller (the callback of the attempt in flight, or the callback
    its teardown will call; callers whose calls are deferred wait in the
    queue); the operation callback is set while a request is being sent,
    while waiting to poll and while polling, and is [null] in
    [disconnected], [idle] and [endingSession]. *)
Theorem one_pending_call :
  forall w,
    reachable w ->
    List.length (pending_calls w) <= 1
    /\ (in_flight (state w) = true ->
        exists cb, _currentOperationCallback w = Some cb /\ pending_calls w = [cb])
    /\ (state w = disconnected \/ state w = idle ->
        _currentOperationCallback w = None /\ pending_calls w = [])
    /\ (state w = endingSession ->
        _currentOperationCallback w = None /\ exists cb, pending_calls w = [cb]).
Proof.
  intros w Hw. apply reachable_consistent in Hw.
  destruct Hw as (_ & Hsh & _ & _). unfold shape in Hsh.
  unfold pending_calls, current_callbacks.
  split; [|split; [|split]].
  - destruct (state w); try contradiction.
    + destruct Hsh as (-> & _ & _ & ->). cbn. lia.
    + destruct Hsh as (-> & _ & _ & ->). cbn. lia.
    + destruct Hsh as (cb & -> & _ & _ & -> & _). cbn. lia.
    + destruct Hsh as (cb & -> & _ & ->). cbn. lia.
    + destruct Hsh as (cb & h & c & -> & _ & _ & _ & _ & -> & _). cbn. lia.
    + destruct Hsh as (cb & -> & _ & _ & -> & _). cbn. lia.
    + destruct Hsh as (-> & _ & cb & ->). cbn. lia.
  - intros Hf. destruct (state w); try discriminate.
    + destruct Hsh as (cb & -> & _ & _ & -> & _). now exists cb.
    + destruct Hsh as (cb & h & c & -> & _ & _ & _ & _ & -> & _). now exists cb.
    + destruct Hsh as (cb & -> & _ & _ & -> & _). now exists cb.
  - intros [Hs|Hs]; rewrite Hs in Hsh; destruct Hsh as (-> & _ & _ & ->); auto.
  - intros Hs. rewrite Hs in Hsh. destruct Hsh as (-> & _ & cb & ->).
    split; [reflexivity|]. now exists cb.
Qed.

Lemma one_pending_call_witness :
  List.length
    (pending_calls
       (world_of (step (Register (mkRequest "dev") (request_body 0) 7) initial)))
  <= 1.
Proof.
  refine (proj1 (one_pending_call _
            (reachable_step initial (Register (mkRequest "dev") (request_body 0) 7)
               reachable_initial _))).
  simpl. intros [].
Defined.

(** C9, on the code: two callers wait at once when [register] is called
    twice with one and the same callback.  The completion of the cancelled
    first attempt is still outstanding when the second attempt waits to
    poll; its late response passes the check of line 61, for the operation
    callback is that same function, and ends the second attempt with the
    response of the first.  The poll timer of the second attempt outlives
    it: it fires while an [endSession] is being served and makes the
    machine poll, where a second [endSession] starts a second teardown. *)
Lemma shared_callback_two_pending_calls :
  state (fst (run (firstn 5 shared_callback_events) initial)) = waitingToPoll
  /\ _currentOperationCallback (fst (run (firstn 5 shared_callback_events) initial))
     = Some 7
  /\ calls (fst (run (firstn 5 shared_callback_events) initial))
     = [(0, registrationCompletion (mkRequest "dev") 7)]
  /\ effects_of
       (step (TransportReplied 0 None
                (Some (mkBody (JsStr "assigned") JsUndefined)) None None)
          (fst (run (firstn 5 shared_callback_events) initial)))
     = [Transitioned waitingToPoll responseReceived;
        Transitioned responseReceived responseComplete;
        EmitOperationStatus (mkBody (JsStr "assigned") JsUndefined);
        Transitioned responseComplete idle;
        Resolve 7 None (Some (mkBody (JsStr "assigned") JsUndefined)) None]
  /\ state (fst (run (firstn 6 shared_callback_events) initial)) = idle
  /\ map fst (timers (fst (run (firstn 6 shared_callback_events) initial))) = [3]
  /\ pending_calls (fst (run shared_callback_events initial)) = [10; 11]
  /\ ~ List.length (pending_calls (fst (run shared_callback_events initial))) <= 1.
Proof.
  repeat split; try reflexivity. vm_compute. lia.
Qed.

(** * Further properties of the machine *)

(** ** Polling *)

Lemma run_app evs1 evs2 w :
  run (evs1 ++ evs2) w
  = (fst (run evs2 (fst (run evs1 w))),
     snd (run evs1 w) ++ snd (run evs2 (fst (run evs1 w)))).
Proof.
  revert w. induction evs1 as [|ev evs1 IH]; intros w; cbn [app run].
  - cbn [fst snd app]. destruct (run evs2 w); reflexivity.
  - destruct (step ev w) as [[w1 l1] o]. rewrite IH.
    destruct (run evs1 w1) as [w2 l2]. cbn [fst snd]. now rewrite app_assoc.
Qed.

(** The poll timer elapses: the status query is made for the request and
    the operation id the timer was started with. *)
Lemma timer_elapsed_step w h c :
  state w = waitingToPoll ->
  inputQueue w = [] ->
  lookup_handle h (timers w) = Some c ->
  step (TimerElapsed h) w
  = (mkWorld polling polling [] (_pollingTimer w) (_currentOperationCallback w)
       (remove_handle h (timers w))
       (calls w ++ [(nextHandle w,
                     queryCompletion (timer_request c) (timer_callback c))])
       (S (nextHandle w)),
     [Transitioned waitingToPoll polling;
      CallQueryOperationStatus (nextHandle w) (timer_request c) (timer_operationId c)],
     Returned tt).
Proof.
  intros Hs Hq Hl. destruct w as [s t q pt cur tm cl nh]. cbn in Hs, Hq, Hl. subst.
  deliver Hl. unfold fuel. cbn [transition]. machine_eval_handles. reflexivity.
Qed.

(** One round: the service answers "assigning", the delay it asked for
    elapses, and the machine asks again. *)
Lemma poll_round w id request callback r :
  awaiting_response w id request callback ->
  handles_below w ->
  timers w = [] ->
  assigning r ->
  let w' := mkWorld polling polling [] (Some (nextHandle w)) (Some callback) []
              (remove_handle id (calls w)
                 ++ [(S (nextHandle w), queryCompletion request callback)])
              (S (S (nextHandle w))) in
  run [TransportReplied id None (Some (round_body r)) (round_result r) (round_interval r);
       TimerElapsed (nextHandle w)] w
  = (w',
     [Transitioned (state w) responseReceived;
      EmitOperationStatus (round_body r);
      Transitioned responseReceived waitingToPoll;
      SetTimeout (nextHandle w) (round_interval r);
      Transitioned waitingToPoll polling;
      CallQueryOperationStatus (S (nextHandle w)) request (operationId (round_body r))])
  /\ awaiting_response w' (S (nextHandle w)) request callback
  /\ handles_below w'
  /\ timers w' = [].
Proof.
  intros Ha Hb Ht (s & Hst & Hlow) w'. split; [|split; [|split]].
  - cbn [run].
    rewrite (reply_assigning w id request callback Ha (round_body r) s) by assumption.
    rewrite Ht. cbn [app].
    rewrite (timer_elapsed_step _ (nextHandle w)
               (mkTimer request (operationId (round_body r)) (round_interval r) callback))
      by (try reflexivity; apply (lookup_handle_new _ []); intros p []).
    cbn [state _pollingTimer _currentOperationCallback timers calls nextHandle
         timer_request timer_callback timer_operationId app].
    rewrite remove_handle_single. reflexivity.
  - unfold awaiting_response, w'.
    cbn [state _currentOperationCallback inputQueue calls].
    repeat split; auto.
    exists (queryCompletion request callback). split; [|now right].
    apply lookup_handle_new. intros p Hp.
    apply (handles_below_removed w id Hb) in Hp. lia.
  - unfold handles_below, w'. cbn [calls nextHandle]. intros p Hp.
    apply in_app_iff in Hp. destruct Hp as [Hp|[<-|[]]].
    + apply (handles_below_removed w id Hb) in Hp. lia.
    + cbn. lia.
  - reflexivity.
Qed.

(** Any number of rounds, one after the other. *)
Lemma polling_rounds :
  forall rounds w id request callback,
    awaiting_response w id request callback ->
    handles_below w ->
    timers w = [] ->
    Forall assigning rounds ->
    let r := run (polling_events id (nextHandle w) rounds) w in
    emitted (snd r) = map round_body rounds
    /\ delays (snd r) = map round_interval rounds
    /\ queried (snd r) = map (fun x => (request, operationId (round_body x))) rounds
    /\ resolved (snd r) = []
    /\ awaiting_response (fst r) (polling_id id (nextHandle w) rounds) request callback
    /\ handles_below (fst r)
    /\ timers (fst r) = [].
Proof.
  induction rounds as [|x rounds IH]; intros w id request callback Ha Hb Ht Hall r.
  - subst r. cbn. repeat split; auto; apply Ha.
  - inversion Hall as [|? ? Hx Hrest]; subst.
    destruct (poll_round w id request callback x Ha Hb Ht Hx) as (E & Ha' & Hb' & Ht').
    subst r.
    change (polling_events id (nextHandle w) (x :: rounds))
      with ([TransportReplied id None (Some (round_body x)) (round_result x)
               (round_interval x);
             TimerElapsed (nextHandle w)]
              ++ polling_events (S (nextHandle w)) (S (S (nextHandle w))) rounds).
    rewrite run_app, E. cbn [fst snd polling_id].
    specialize (IH _ (S (nextHandle w)) request callback Ha' Hb' Ht' Hrest).
    cbn [nextHandle] in IH.
    destruct IH as (I1 & I2 & I3 & I4 & I5 & I6 & I7).
    unfold emitted, delays, queried, resolved in *.
    rewrite !flat_map_app, I1, I2, I3, I4.
    split; [reflexivity|]. split; [reflexivity|]. split; [reflexivity|].
    split; [reflexivity|]. split; [exact I5|]. split; [exact I6|exact I7].
Qed.

(** X1. While the service answers "assigning" the machine keeps polling: every
    body is notified, in order; each wait is the delay the service asked
    for in that answer; each query is made for the request of the call and
    the operation id of that answer; and the caller's callback is not
    called. *)
Theorem polling_while_assigning :
  forall rounds w id request callback,
    awaiting_response w id request callback ->
    handles_below w ->
    timers w = [] ->
    Forall assigning rounds ->
    let r := run (polling_events id (nextHandle w) rounds) w in
    emitted (snd r) = map round_body rounds
    /\ delays (snd r) = map round_interval rounds
    /\ queried (snd r) = map (fun x => (request, operationId (round_body x))) rounds
    /\ resolved (snd r) = []
    /\ awaiting_response (fst r) (polling_id id (nextHandle w) rounds) request callback
    /\ handles_below (fst r)
    /\ timers (fst r) = [].
Proof.
  intros rounds w id request callback Ha Hb Ht Hall.
  exact (polling_rounds rounds w id request callback Ha Hb Ht Hall).
Qed.

Lemma polling_while_assigning_witness :
  emitted
    (snd (run (polling_events 0 1
                 [mkRound (mkBody (JsStr "Assigning") (JsStr "op1")) None (Some 100);
                  mkRound (mkBody (JsStr "assigning") (JsStr "op1")) None (Some 200)])
            (mkWorld sendingRegistrationRequest sendingRegistrationRequest [] None
               (Some 7) [] [(0, registrationCompletion (mkRequest "dev") 7)] 1)))
  = [mkBody (JsStr "Assigning") (JsStr "op1"); mkBody (JsStr "assigning") (JsStr "op1")].
Proof.
  refine (proj1 (polling_while_assigning
    [mkRound (mkBody (JsStr "Assigning") (JsStr "op1")) None (Some 100);
     mkRound (mkBody (JsStr "assigning") (JsStr "op1")) None (Some 200)]
    (mkWorld sendingRegistrationRequest sendingRegistrationRequest [] None
       (Some 7) [] [(0, registrationCompletion (mkRequest "dev") 7)] 1)
    0 (mkRequest "dev") 7 _ _ _ _)).
  - repeat split; try reflexivity. left. reflexivity.
    exists (registrationCompletion (mkRequest "dev") 7). split; [reflexivity|now left].
  - intros p [<-|[]]. simpl. lia.
  - reflexivity.
  - repeat constructor.
    + exists "Assigning"%string. split; reflexivity.
    + exists "assigning"%string. split; reflexivity.
Defined.

(** X2. Polling ends when the service answers "assigned": that body is the
    last one notified, and then the caller's callback is called, once,
    with no error, that body and its result, after any number of rounds. *)
Theorem polling_until_assigned :
  forall rounds w id request callback b s result pollingInterval,
    awaiting_response w id request callback ->
    handles_below w ->
    timers w = [] ->
    Forall assigning rounds ->
    status b = JsStr s ->
    toLowerCase s = "assigned"%string ->
    let r := run (polling_events id (nextHandle w) rounds
                    ++ [TransportReplied (polling_id id (nextHandle w) rounds)
                          None (Some b) result pollingInterval]) w in
    emitted (snd r) = map round_body rounds ++ [b]
    /\ delays (snd r) = map round_interval rounds
    /\ resolved (snd r) = [callback]
    /\ (exists l, snd r = l ++ [EmitOperationStatus b;
                                Transitioned responseComplete idle;
                                Resolve callback None (Some b) result])
    /\ state (fst r) = idle
    /\ _currentOperationCallback (fst r) = None.
Proof.
  intros rounds w id request callback b s result pollingInterval Ha Hb Ht Hall Hst Hlow r.
  destruct (polling_rounds rounds w id request callback Ha Hb Ht Hall)
    as (I1 & I2 & _ & I4 & Ha' & _ & _).
  subst r. rewrite run_app. cbn [fst snd run].
  rewrite (reply_assigned _ _ request callback Ha' b s) by assumption.
  cbn [fst snd state _currentOperationCallback]. rewrite app_nil_r.
  unfold emitted, delays, resolved in *.
  rewrite !flat_map_app, I1, I2, I4. cbn.
  repeat split; try reflexivity; try apply app_nil_r.
  match goal with
  | |- exists l, ?a ++ [?x1; ?x2; ?x3; ?x4; ?x5] = _ => exists (a ++ [x1; x2])
  end.
  rewrite <- app_assoc. reflexivity.
Qed.

Lemma polling_until_assigned_witness :
  resolved
    (snd (run (polling_events 0 1
                 [mkRound (mkBody (JsStr "assigning") (JsStr "op1")) None (Some 100)]
                 ++ [TransportReplied 2 None (Some (mkBody (JsStr "assigned") JsUndefined))
                       None None])
            (mkWorld sendingRegistrationRequest sendingRegistrationRequest [] None
               (Some 7) [] [(0, registrationCompletion (mkRequest "dev") 7)] 1)))
  = [7].
Proof.
  refine (proj1 (proj2 (proj2 (polling_until_assigned
    [mkRound (mkBody (JsStr "assigning") (JsStr "op1")) None (Some 100)]
    (mkWorld sendingRegistrationRequest sendingRegistrationRequest [] None
       (Some 7) [] [(0, registrationCompletion (mkRequest "dev") 7)] 1)
    0 (mkRequest "dev") 7 (mkBody (JsStr "assigned") JsUndefined) "assigned" None None
    _ _ _ _ _ _)))).
  - repeat split; try reflexivity. left. reflexivity.
    exists (registrationCompletion (mkRequest "dev") 7). split; [reflexivity|now left].
  - intros p [<-|[]]. simpl. lia.
  - reflexivity.
  - repeat constructor. exists "assigning"%string. split; reflexivity.
  - reflexivity.
  - reflexivity.
Defined.

(** ** Notifications *)

(** X3. A response to the current attempt is notified as [operationStatus]
    exactly when it carries no transport error and its status is
    "assigned" or "assigning", in whatever case, and then once, with its
    body; a failed, unknown or unreadable status and a transport error are
    not notified. *)
Theorem notification_per_response :
  forall w id request callback err body result pollingInterval,
    awaiting_response w id request callback ->
    emitted (effects_of (step (TransportReplied id err body result pollingInterval) w))
    = match err, body with
      | None, Some b =>
          match status b with
          | JsStr s =>
              if (String.eqb (toLowerCase s) "assigned"
                  || String.eqb (toLowerCase s) "assigning")%bool
              then [b] else []
          | _ => []
          end
      | _, _ => []
      end.
Proof.
  intros w id request callback err body result pollingInterval Ha.
  destruct err as [e|].
  { rewrite (reply_error w id request callback Ha). reflexivity. }
  destruct body as [b|].
  2: { rewrite (reply_no_body w id request callback Ha). reflexivity. }
  destruct (status b) as [| |s|tag] eqn:Hst.
  4:{ rewrite (reply_not_a_string w id request callback Ha b tag) by assumption.
      reflexivity. }
  { rewrite (reply_no_status w id request callback Ha) by auto. reflexivity. }
  { rewrite (reply_no_status w id request callback Ha) by auto. reflexivity. }
  destruct (String.eqb_spec (toLowerCase s) "assigned") as [E1|E1].
  { rewrite (reply_assigned w id request callback Ha b s) by assumption. reflexivity. }
  destruct (String.eqb_spec (toLowerCase s) "assigning") as [E2|E2].
  { rewrite (reply_assigning w id request callback Ha b s) by assumption. reflexivity. }
  destruct (string_dec (toLowerCase s) "failed") as [E3|E3].
  { rewrite (reply_failed w id request callback Ha b s) by assumption. reflexivity. }
  rewrite (reply_unknown w id request callback Ha b s) by assumption. reflexivity.
Qed.

Lemma notification_per_response_witness :
  emitted
    (effects_of
       (step (TransportReplied 0 None (Some (mkBody (JsStr "failed") JsUndefined)) None None)
          (mkWorld sendingRegistrationRequest sendingRegistrationRequest [] None
             (Some 7) [] [(0, registrationCompletion (mkRequest "dev") 7)] 1)))
  = [].
Proof.
  refine (notification_per_response
    (mkWorld sendingRegistrationRequest sendingRegistrationRequest [] None
       (Some 7) [] [(0, registrationCompletion (mkRequest "dev") 7)] 1)
    0 (mkRequest "dev") 7 None (Some (mkBody (JsStr "failed") JsUndefined)) None None _).
  repeat split; try reflexivity. left. reflexivity.
  exists (registrationCompletion (mkRequest "dev") 7). split; [reflexivity|now left].
Defined.

(** ** Starting an attempt *)

(** X4. Whatever happened before, [register] in [disconnected] or [idle] makes
    one call of the transport's [registrationRequest], with the request and
    the body of the call, and makes the callback of the call the current
    operation callback. *)
Theorem register_starts_attempt :
  forall w request requestBody callback,
    reachable_any w ->
    state w = disconnected \/ state w = idle ->
    step (Register request requestBody callback) w
    = (mkWorld sendingRegistrationRequest sendingRegistrationRequest []
         (_pollingTimer w) (Some callback) (timers w)
         (calls w ++ [(nextHandle w, registrationCompletion request callback)])
         (S (nextHandle w)),
       [Transitioned (state w) sendingRegistrationRequest;
        CallRegistrationRequest (nextHandle w) request requestBody],
       Returned tt).
Proof.
  intros w request requestBody callback Hw Hs.
  destruct (reachable_any_settled w Hw) as [_ Hq].
  destruct w as [s t q pt cur tm cl nh]. unfold settled in Hq. cbn in Hs, Hq.
  destruct Hs; subst s; (destruct Hq as [Hq|Hq]; [discriminate Hq|]); subst q;
    reflexivity.
Qed.

Lemma register_starts_attempt_witness :
  effects_of (step (Register (mkRequest "dev") (request_body 0) 7) initial)
  = [Transitioned disconnected sendingRegistrationRequest;
     CallRegistrationRequest 0 (mkRequest "dev") (request_body 0)].
Proof.
  exact (f_equal (fun r => effects_of r)
           (register_starts_attempt initial (mkRequest "dev") (request_body 0) 7
              reachable_any_initial (or_introl eq_refl))).
Defined.

(** ** Resting states *)

(** X5. With a callback of its own for every [register]: a poll timer is
    pending exactly while the machine waits to poll; it is the one kept in
    [_pollingTimer], and it was started for the current operation
    callback. *)
Theorem one_timer_while_waiting :
  forall w,
    reachable w ->
    (state w = waitingToPoll ->
       exists h c, timers w = [(h, c)] /\ _pollingTimer w = Some h
                   /\ _currentOperationCallback w = Some (timer_callback c))
    /\ (state w <> waitingToPoll -> timers w = []).
Proof.
  intros w Hw. apply reachable_consistent in Hw.
  destruct Hw as (_ & Hsh & _ & _). unfold shape in Hsh. split.
  - intros Hs. rewrite Hs in Hsh.
    destruct Hsh as (cb & h & c & Hcur & _ & Ht & Hp & Hc & _).
    exists h, c. subst cb. auto.
  - intros Hs. destruct (state w); try contradiction; try apply Hsh.
    + destruct Hsh as (cb & _ & _ & Ht & _). exact Ht.
    + destruct Hsh as (cb & _ & Ht & _). exact Ht.
    + destruct Hsh as (cb & _ & _ & Ht & _). exact Ht.
Qed.

Lemma one_timer_while_waiting_witness :
  timers (world_of (step (Register (mkRequest "dev") (request_body 0) 7) initial)) = [].
Proof.
  refine (proj2 (one_timer_while_waiting _
            (reachable_step initial (Register (mkRequest "dev") (request_body 0) 7)
               reachable_initial _)) _).
  - simpl. intros [].
  - simpl. discriminate.
Defined.

(** X6. With a callback of its own for every [register]: a call of the
    transport's [endSession] is outstanding exactly while the machine is in
    [endingSession], and then there is one. *)
Theorem one_endSession_call_while_ending :
  forall w,
    reachable w ->
    (state w = endingSession -> exists cb, carried_callbacks (calls w) = [cb])
    /\ (state w <> endingSession -> carried_callbacks (calls w) = []).
Proof.
  intros w Hw. apply reachable_consistent in Hw.
  destruct Hw as (_ & Hsh & _ & _). unfold shape in Hsh. split.
  - intros Hs. rewrite Hs in Hsh. apply Hsh.
  - intros Hs. destruct (state w); try contradiction; try apply Hsh.
    + destruct Hsh as (cb & _ & _ & _ & Hc & _). exact Hc.
    + destruct Hsh as (cb & _ & _ & Hc). exact Hc.
    + destruct Hsh as (cb & h & c & _ & _ & _ & _ & _ & Hc & _). exact Hc.
    + destruct Hsh as (cb & _ & _ & _ & Hc & _). exact Hc.
Qed.

Lemma one_endSession_call_while_ending_witness :
  exists cb,
    carried_callbacks
      (calls (world_of (step (EndSession 9)
                          (world_of (step (Register (mkRequest "dev") (request_body 0) 7)
                                       initial)))))
    = [cb].
Proof.
  refine (proj1 (one_endSession_call_while_ending _
            (reachable_step _ (EndSession 9)
               (reachable_step initial (Register (mkRequest "dev") (request_body 0) 7)
                  reachable_initial _) _)) _).
  - simpl. intros [].
  - exact I.
  - reflexivity.
Defined.

(** X7. With a callback of its own for every [register]: between two events
    the machine is never in [responseComplete] or [responseError], the
    states that only pass a result on. *)
Theorem passing_states_never_rest :
  forall w,
    reachable w -> state w <> responseComplete /\ state w <> responseError.
Proof.
  intros w Hw. apply reachable_consistent in Hw.
  destruct Hw as (_ & Hsh & _ & _). unfold shape in Hsh.
  split; intros Hs; rewrite Hs in Hsh; exact Hsh.
Qed.

Lemma passing_states_never_rest_witness :
  state (world_of (step (Register (mkRequest "dev") (request_body 0) 7) initial))
  <> responseComplete.
Proof.
  refine (proj1 (passing_states_never_rest _
            (reachable_step initial (Register (mkRequest "dev") (request_body 0) 7)
               reachable_initial _))).
  simpl. intros [].
Defined.

(** ** Cancellation while waiting to poll *)

(** X8. With a callback of its own for every [register]: [endSession] while the
    machine waits to poll clears the pending timer, fails the attempt with
    an [OperationCancelledError] and calls the transport's [endSession];
    no timer is left, so no elapse can make the machine poll. *)
Theorem cancelled_timer_never_fires :
  forall w callback2,
    reachable w ->
    state w = waitingToPoll ->
    let r := step (EndSession callback2) w in
    (exists h cb,
        _pollingTimer w = Some h
        /\ _currentOperationCallback w = Some cb
        /\ effects_of r
           = [ClearTimeout (Some h);
              Transitioned waitingToPoll endingSession;
              Resolve cb (Some (OperationCancelledError "")) None None;
              CallEndSession (nextHandle w)])
    /\ timers (world_of r) = []
    /\ forall h', step (TimerElapsed h') (world_of r) = (world_of r, [], Returned tt).
Proof.
  intros w callback2 Hw Hs r. apply reachable_consistent in Hw.
  destruct Hw as (_ & Hsh & _ & _). unfold shape in Hsh. rewrite Hs in Hsh.
  destruct Hsh as (cb & h & c & Hcur & Hq & Ht & Hp & _).
  subst r. rewrite (endSession_step w callback2) by (try assumption; right; now rewrite Hs).
  unfold world_of, effects_of, timer_cleared, cancellation, timers_after_endSession.
  cbn [fst snd timers]. rewrite Hs, Hp, Hcur, Ht, remove_handle_single.
  split; [|split].
  - exists h, cb. auto.
  - reflexivity.
  - intros h'. reflexivity.
Qed.

Lemma cancelled_timer_never_fires_witness :
  timers
    (world_of
       (step (EndSession 9)
          (world_of
             (step (TransportReplied 0 None
                      (Some (mkBody (JsStr "assigning") (JsStr "op1"))) None (Some 100))
                (world_of (step (Register (mkRequest "dev") (request_body 0) 7)
                             initial))))))
  = [].
Proof.
  refine (proj1 (proj2 (cancelled_timer_never_fires _ 9
    (reachable_step _ (TransportReplied 0 None
                         (Some (mkBody (JsStr "assigning") (JsStr "op1"))) None (Some 100))
       (reachable_step initial (Register (mkRequest "dev") (request_body 0) 7)
          reachable_initial _) _) _))).
  - simpl. intros [].
  - exact I.
  - reflexivity.
Defined.

(** ** Where the machine throws *)

Lemma quiet_ret {A} (a : A) : quiet (ret a).
Proof. intros w x. discriminate. Qed.

Lemma quiet_gets {A} (f : World -> A) : quiet (gets f).
Proof. intros w x. discriminate. Qed.

Lemma quiet_modify f : quiet (modify f).
Proof. intros w x. discriminate. Qed.

Lemma quiet_tell e : quiet (tell e).
Proof. intros w x. discriminate. Qed.

Lemma quiet_outOfFuel {A} : quiet (@outOfFuel A).
Proof. intros w x. discriminate. Qed.

Lemma quiet_bind {A B} (m : M A) (k : A -> M B) :
  quiet m -> (forall a, quiet (k a)) -> quiet (bind m k).
Proof.
  intros Hm Hk w x. unfold bind. specialize (Hm w).
  destruct (m w) as [[w1 l1] [a|e|]]; cbn in *.
  - specialize (Hk a w1 x). destruct (k a w1) as [[w2 l2] o]. exact Hk.
  - now destruct (Hm e).
  - discriminate.
Qed.

Create HintDb quiet.
#[local] Hint Resolve quiet_ret quiet_gets quiet_modify quiet_tell quiet_outOfFuel : quiet.

Ltac quietly :=
  repeat first
    [ assumption
    | progress auto with quiet nocore
    | match goal with
      | |- quiet (bind _ _) => apply quiet_bind; [|intros ?]
      | |- quiet (match ?x with _ => _ end) => destruct x
      | |- quiet (if ?b then _ else _) => destruct b
      end ].

Lemma quiet_forEach {A} (f : A -> M unit) l :
  (forall a, quiet (f a)) -> quiet (forEach f l).
Proof.
  intros Hf. induction l as [|a l IH]; cbn [forEach].
  - apply quiet_ret.
  - apply quiet_bind; auto.
Qed.

(** No handler reads a response: it throws only if the transition it makes
    does, and that is never one to [responseReceived]. *)
Lemma quiet_handler tr s i :
  (forall e, target e <> responseReceived -> quiet (tr e)) ->
  quiet (handler tr s i).
Proof.
  intros Htr. destruct s, i; cbn [handler];
    unfold inProgress, deferUntilTransition, clearTimeout; quietly;
    apply Htr; discriminate.
Qed.

(** Of the [_onEnter] functions only that of [responseReceived] reads a
    response, and no other leads there. *)
Lemma quiet_onEnter tr e :
  (forall e', target e' <> responseReceived -> quiet (tr e')) ->
  target e <> responseReceived ->
  quiet (onEnter tr e).
Proof.
  intros Htr He. destruct e; try (now destruct He); cbn [onEnter];
    unfold transport_registrationRequest, transport_queryOperationStatus,
      transport_endSession, setTimeout, fresh;
    quietly; apply Htr; discriminate.
Qed.

(** [responseReceived] reads the status without harm when the transport
    reports an error, or when the body has a status. *)
Lemma quiet_onEnter_responseReceived tr err request body result pollingInterval callback :
  (forall e', target e' <> responseReceived -> quiet (tr e')) ->
  err <> None \/ has_status body ->
  quiet (onEnter tr (enter_responseReceived err request body result pollingInterval
                       callback)).
Proof.
  intros Htr H. cbn [onEnter]. destruct err as [e|].
  - apply Htr. discriminate.
  - destruct H as [H|(b & s & -> & Hs)]; [congruence|]. rewrite Hs.
    quietly; apply Htr; discriminate.
Qed.

Lemma quiet_transitionWith tr e :
  (forall e', target e' <> responseReceived -> quiet (tr e')) ->
  quiet (onEnter tr e) ->
  quiet (transitionWith tr e).
Proof.
  intros Htr He. unfold transitionWith, processQueue. quietly.
  apply quiet_forEach. intros i. unfold handle. quietly. now apply quiet_handler.
Qed.

Lemma quiet_transition n :
  forall e, target e <> responseReceived -> quiet (transition n e).
Proof.
  induction n as [|n IH]; intros e He; cbn [transition].
  - apply quiet_outOfFuel.
  - apply quiet_transitionWith; [exact IH|]. now apply quiet_onEnter.
Qed.

(** A response makes the machine throw only when it is one to the current
    attempt, without a transport error and without a status to read, and
    the machine is not in [responseReceived] already. *)
Lemma reply_throws id err body result pollingInterval w x :
  outcome_of (step (TransportReplied id err body result pollingInterval) w) = Threw x ->
  err = None
  /\ ~ has_status body
  /\ state w <> responseReceived
  /\ exists k request callback,
       lookup_handle id (calls w) = Some k
       /\ response_completion k request callback
       /\ _currentOperationCallback w = Some callback.
Proof.
  intros H.
  pose proof (quiet_transition 7) as Htr.
  destruct (lookup_handle id (calls w)) as [k|] eqn:Hl.
  2:{ exfalso. revert H. cbn [step]. unfold bind at 1, gets at 1. rewrite Hl.
      discriminate. }
  assert (Hk : exists request callback,
             response_completion k request callback
             /\ step (TransportReplied id err body result pollingInterval) w
                = (modify (set_calls (remove_handle id (calls w))) ;;
                   onResponse (transition fuel) request callback err body result
                     pollingInterval) w).
  { destruct k as [rq cb|rq cb|e' b' r' cb].
    - exists rq, cb. split; [left; reflexivity|].
      cbn [step]. unfold bind at 1, gets at 1. rewrite Hl.
      now destruct (bind _ _ w) as [[w2 l2] o].
    - exists rq, cb. split; [right; reflexivity|].
      cbn [step]. unfold bind at 1, gets at 1. rewrite Hl.
      now destruct (bind _ _ w) as [[w2 l2] o].
    - exfalso. revert H. cbn [step]. unfold bind at 1, gets at 1. rewrite Hl.
      discriminate. }
  destruct Hk as (request & callback & Hk & E).
  assert (Hs : state w <> responseReceived).
  { intros Hs. rewrite (reply_wedged w id k request callback) in H by assumption.
    discriminate. }
  rewrite E in H. clear E.
  destruct (option_nat_eqb (_currentOperationCallback w) (Some callback)) eqn:Hcur.
  2:{ exfalso. revert H. unfold onResponse, bind, gets, modify.
      cbn [_currentOperationCallback set_calls]. rewrite Hcur. discriminate. }
  apply option_nat_eqb_eq in Hcur.
  assert (Hbad : ~ (err <> None \/ has_status body)).
  { intros Hgood. revert H.
    assert (Q : quiet (modify (set_calls (remove_handle id (calls w))) ;;
                       onResponse (transition fuel) request callback err body result
                         pollingInterval)).
    { unfold onResponse. quietly.
      change (transition fuel) with (transitionWith (transition 7)).
      apply quiet_transitionWith; [exact Htr|].
      now apply quiet_onEnter_responseReceived. }
    apply Q. }
  destruct err as [e|].
  { exfalso. apply Hbad. left. discriminate. }
  split; [reflexivity|]. split; [|split; [exact Hs|]].
  - intros Hh. apply Hbad. now right.
  - exists k, request, callback. auto.
Qed.

(** X9. The machine throws nowhere but in [responseReceived._onEnter], and
    there only on a response to the current attempt that carries no
    transport error and either a body that [JSON.stringify] rejects
    (line 79) or no status to read (line 80): in every world, an event
    whose handler throws is such a response, delivered while the machine
    is not in [responseReceived]. *)
Theorem throws_only_on_unreadable_response :
  forall ev w x,
    outcome_of (step ev w) = Threw x ->
    exists id result pollingInterval k request callback,
      (ev = TransportRepliedUnserialisable id result pollingInterval
       \/ exists body,
            ev = TransportReplied id None body result pollingInterval
            /\ ~ has_status body)
      /\ state w <> responseReceived
      /\ lookup_handle id (calls w) = Some k
      /\ response_completion k request callback
      /\ _currentOperationCallback w = Some callback.
Proof.
  intros ev w x H.
  assert (Hfuel : forall e, target e <> responseReceived -> quiet (transition fuel e))
    by apply quiet_transition.
  assert (Hcall : forall i, quiet (handle (transition fuel) i)).
  { intros i. unfold handle. quietly. now apply quiet_handler. }
  destruct ev as [rq rb cb|cb|h|id err body result pollingInterval
                 |id result pollingInterval|id de].
  - now apply Hcall in H.
  - now apply Hcall in H.
  - exfalso. revert H.
    assert (Q : quiet (step (TimerElapsed h))).
    { cbn [step]. unfold onTimer. quietly. apply Hfuel. discriminate. }
    apply Q.
  - apply reply_throws in H.
    destruct H as (-> & Hbody & Hs & k & request & callback & Hl & Hk & Hcur).
    exists id, result, pollingInterval, k, request, callback.
    split; [right; now exists body|]. auto.
  - rewrite unserialisable_as_no_body in H. apply reply_throws in H.
    destruct H as (_ & _ & Hs & k & request & callback & Hl & Hk & Hcur).
    exists id, result, pollingInterval, k, request, callback.
    split; [now left|]. auto.
  - exfalso. revert H.
    assert (Q : quiet (step (TransportSessionEnded id de))).
    { cbn [step]. unfold onSessionEnded. quietly. apply Hfuel. discriminate. }
    apply Q.
Qed.

Lemma throws_only_on_unreadable_response_witness :
  exists id result pollingInterval k request callback,
    (TransportRepliedUnserialisable 0 None (Some 100)
     = TransportRepliedUnserialisable id result pollingInterval
     \/ exists body,
          TransportRepliedUnserialisable 0 None (Some 100)
          = TransportReplied id None body result pollingInterval
          /\ ~ has_status body)
    /\ state (mkWorld sendingRegistrationRequest sendingRegistrationRequest []
                None (Some 7) [] [(0, registrationCompletion (mkRequest "dev") 7)] 1)
       <> responseReceived
    /\ lookup_handle id
         (calls (mkWorld sendingRegistrationRequest sendingRegistrationRequest []
                   None (Some 7) [] [(0, registrationCompletion (mkRequest "dev") 7)] 1))
       = Some k
    /\ response_completion k request callback
    /\ _currentOperationCallback
         (mkWorld sendingRegistrationRequest sendingRegistrationRequest []
            None (Some 7) [] [(0, registrationCompletion (mkRequest "dev") 7)] 1)
       = Some callback.
Proof.
  apply (throws_only_on_unreadable_response _ _ TypeError). reflexivity.
Defined.



(** ** After a throw *)

Lemma lookup_carried id e b r cb (cl : list (nat * Completion)) :
  lookup_handle id cl = Some (endSessionCompletion e b r cb) ->
  In cb (carried_callbacks cl).
Proof.
  intros Hl. apply lookup_handle_In in Hl. unfold carried_callbacks.
  apply in_flat_map. exists (id, endSessionCompletion e b r cb).
  split; [exact Hl | now left].
Qed.

(** In [responseReceived] no event has an effect or leads anywhere. *)
Lemma wedged_step w ev :
  state w = responseReceived ->
  timers w = [] ->
  carried_callbacks (calls w) = [] ->
  effects_of (step ev w) = [] /\ state (world_of (step ev w)) = responseReceived.
Proof.
  intros Hs Ht Hcar.
  assert (Hd : deferring (state w) = true) by now rewrite Hs.
  assert (Hreply : forall id err body result pollingInterval,
            effects_of (step (TransportReplied id err body result pollingInterval) w) = []
            /\ state (world_of (step (TransportReplied id err body result
                                        pollingInterval) w))
               = responseReceived).
  { intros id err body result pollingInterval.
    destruct (lookup_handle id (calls w)) as [k|] eqn:Hl.
    2:{ cbn [step]. unfold bind, gets. rewrite Hl. auto. }
    destruct k as [rq cb|rq cb|e b r cb].
    + rewrite (reply_wedged w id _ rq cb) by (try eassumption; now left). auto.
    + rewrite (reply_wedged w id _ rq cb) by (try eassumption; now right). auto.
    + cbn [step]. unfold bind, gets. rewrite Hl. auto. }
  destruct ev as [rq rb cb|cb|h|id err body result pollingInterval
                 |id result pollingInterval|id de].
  - rewrite register_deferred by exact Hd. auto.
  - rewrite endSession_deferred by exact Hd. auto.
  - cbn [step]. unfold bind, gets. rewrite Ht. auto.
  - apply Hreply.
  - rewrite unserialisable_as_no_body. apply Hreply.
  - destruct (lookup_handle id (calls w)) as [k|] eqn:Hl.
    2:{ cbn [step]. unfold bind, gets. rewrite Hl. auto. }
    destruct k as [rq cb|rq cb|e b r cb];
      try (cbn [step]; unfold bind, gets; rewrite Hl; auto).
    apply lookup_carried in Hl. rewrite Hcar in Hl. destruct Hl.
Qed.

(** X10. With a callback of its own for every [register]: once the machine
    rests in [responseReceived], where only a throwing handler leaves it,
    it stays there whatever comes: calls, responses, timers and session
    ends have no effect, so that no callback is called any more. *)
Theorem wedged_forever :
  forall evs w,
    reachable w ->
    state w = responseReceived ->
    admissible_run evs w ->
    snd (run evs w) = [] /\ state (fst (run evs w)) = responseReceived.
Proof.
  induction evs as [|ev evs IH]; intros w Hw Hs Ha.
  - auto.
  - destruct Ha as [Ha Hrest].
    pose proof (reachable_consistent w Hw) as (_ & Hsh & _ & _).
    unfold shape in Hsh. rewrite Hs in Hsh. destruct Hsh as (cb & _ & Ht & Hcar).
    destruct (wedged_step w ev Hs Ht Hcar) as [He Hs1].
    pose proof (reachable_step w ev Hw Ha) as Hw1.
    specialize (IH _ Hw1 Hs1 Hrest).
    cbn [run]. unfold world_of, effects_of in *.
    destruct (step ev w) as [[w1 l1] o]. cbn [fst snd] in *.
    destruct (run evs w1) as [w2 l2]. cbn [fst snd] in *.
    destruct IH as [-> ->]. subst l1. auto.
Qed.

Lemma wedged_forever_witness :
  snd (run [EndSession 9; TimerElapsed 1]
         (world_of
            (step (TransportReplied 0 None None None None)
               (world_of (step (Register (mkRequest "dev") (request_body 0) 7)
                            initial)))))
  = [].
Proof.
  refine (proj1 (wedged_forever [EndSession 9; TimerElapsed 1] _
    (reachable_step _ (TransportReplied 0 None None None None)
       (reachable_step initial (Register (mkRequest "dev") (request_body 0) 7)
          reachable_initial _) _) _ _)).
  - simpl. intros [].
  - exact I.
  - reflexivity.
  - repeat split.
Defined.

(** ** Every callback is called once *)

Lemma resolved_app l1 l2 : resolved (l1 ++ l2) = resolved l1 ++ resolved l2.
Proof. apply flat_map_app. Qed.

Lemma input_callbacks_app q1 q2 :
  input_callbacks (q1 ++ q2) = input_callbacks q1 ++ input_callbacks q2.
Proof. apply map_app. Qed.

Lemma occ_app x l1 l2 : occ x (l1 ++ l2) = occ x l1 + occ x l2.
Proof. apply count_occ_app. Qed.

Lemma occ_cons x a l : occ x (a :: l) = occ x [a] + occ x l.
Proof. apply (occ_app x [a] l). Qed.

Lemma occ_nil x : occ x [] = 0.
Proof. reflexivity. Qed.

Lemma input_callbacks_register rq rb cb q :
  input_callbacks (input_register rq rb cb :: q) = cb :: input_callbacks q.
Proof. reflexivity. Qed.

Lemma input_callbacks_endSession e b r cb q :
  input_callbacks (input_endSession e b r cb :: q) = cb :: input_callbacks q.
Proof. reflexivity. Qed.

Lemma input_callbacks_nil : input_callbacks [] = [].
Proof. reflexivity. Qed.

Lemma carried_ending h e b r cb :
  carried_callbacks [(h, endSessionCompletion e b r cb)] = [cb].
Proof. reflexivity. Qed.

Lemma carried_registration h rq cb :
  carried_callbacks [(h, registrationCompletion rq cb)] = [].
Proof. reflexivity. Qed.

Lemma carried_query h rq cb :
  carried_callbacks [(h, queryCompletion rq cb)] = [].
Proof. reflexivity. Qed.

Lemma current_callbacks_mk s t q pt cur tm cl nh :
  current_callbacks (mkWorld s t q pt cur tm cl nh)
  = match cur with Some cb => [cb] | None => [] end.
Proof. reflexivity. Qed.

(** Counts the callbacks of both sides of a goal. *)
Ltac counted :=
  unfold held, held_with; rewrite ?current_callbacks_mk; fields;
  rewrite ?carried_app, ?input_callbacks_app, ?resolved_app,
    ?input_callbacks_register, ?input_callbacks_endSession, ?input_callbacks_nil,
    ?carried_ending, ?carried_registration, ?carried_query;
  repeat match goal with H : carried_callbacks _ = _ |- _ => rewrite H end;
  cbn [resolved flat_map app];
  rewrite ?app_nil_r, ?occ_app;
  repeat match goal with
         | |- context [occ ?x (?a :: ?l)] =>
             lazymatch l with
             | [] => fail
             | _ => rewrite (occ_cons x a l)
             end
         end;
  rewrite ?occ_app, ?occ_nil; try lia.

(** Handling one input neither loses a callback nor calls one twice: the
    callback of the input is called, or the machine holds it afterwards. *)
Lemma handle_conserves n i batch w :
  consistent_with (i :: batch) w ->
  exists w' l,
    handle (transition (S n)) i w = (w', l, Returned tt)
    /\ forall x,
         occ x (resolved l) + occ x (held_with batch w')
         = occ x (held_with (i :: batch) w).
Proof.
  intros (Hr & Hsh & Hfr & Hu). unfold shape in Hsh.
  destruct w as [s t q pt cur tm cl nh].
  cbn [state targetReplayState inputQueue _pollingTimer
       _currentOperationCallback timers calls nextHandle] in *.
  destruct s; try contradiction.
  - destruct Hsh as (-> & -> & -> & Hcar). subst t.
    destruct i as [request requestBody callback|err body result callback]; handled;
      intros x; counted.
  - destruct Hsh as (-> & -> & -> & Hcar). subst t.
    destruct i as [request requestBody callback|err body result callback]; handled;
      intros x; counted.
  - destruct Hsh as (cb & -> & -> & -> & Hcar & Hcount). subst t.
    destruct i as [request requestBody callback|err body result callback]; handled;
      intros x; counted.
  - exists (mkWorld responseReceived t (q ++ [i]) pt cur tm cl nh), [].
    split; [destruct i; reflexivity|]. intros x. destruct i; counted.
  - destruct Hsh as (cb & h & c & -> & -> & -> & -> & Hc & Hcar & Hnotin). subst t.
    destruct i as [request requestBody callback|err body result callback]; handled;
      intros x; counted.
  - destruct Hsh as (cb & -> & -> & -> & Hcar & Hcount). subst t.
    destruct i as [request requestBody callback|err body result callback]; handled;
      intros x; counted.
  - exists (mkWorld endingSession t (q ++ [i]) pt cur tm cl nh), [].
    split; [destruct i; reflexivity|]. intros x. destruct i; counted.
Qed.

(** Replaying the deferred inputs conserves their callbacks. *)
Lemma replay_conserves n batch :
  forall w,
    consistent_with batch w ->
    exists w' l,
      forEach (handle (transition (S n))) batch w = (w', l, Returned tt)
      /\ forall x, occ x (resolved l) + occ x (held w') = occ x (held_with batch w).
Proof.
  induction batch as [|i batch IH]; intros w H.
  - exists w, []. split; [reflexivity|]. intros x. reflexivity.
  - destruct (handle_consistent n i batch w H) as (w1 & l1 & E1 & H1).
    destruct (handle_conserves n i batch w H) as (w1' & l1' & E1' & C1).
    rewrite E1 in E1'. injection E1' as <- <-.
    destruct (IH w1 H1) as (w2 & l2 & E2 & C2).
    exists w2, (l1 ++ l2). split.
    + cbn [forEach]. unfold bind. rewrite E1, E2. reflexivity.
    + intros x. specialize (C1 x). specialize (C2 x).
      rewrite resolved_app, occ_app. lia.
Qed.

(** A call of [register] with a callback of its own, or of [endSession],
    is an input the invariant allows for. *)
Lemma consistent_with_call w i :
  consistent w ->
  (forall cb, In cb (register_callbacks [i]) -> ~ In cb (known_callbacks w)) ->
  consistent_with [i] w.
Proof.
  intros (Hr & Hsh & Hfr & Hu) Hnew.
  split; [exact Hr|]. split; [exact Hsh|]. split; [|exact Hu].
  cbn [register_callbacks flat_map app] in Hfr.
  destruct i as [rq rb cb|e b r cb]; cbn [register_callbacks flat_map app] in *;
    [|exact Hfr].
  assert (Hk : ~ In cb (known_callbacks w)) by (apply Hnew; now left).
  unfold known_callbacks in Hk. rewrite !in_app_iff in Hk.
  destruct Hfr as [Hnd Hfresh]. split.
  - constructor; [tauto | exact Hnd].
  - intros x [<-|Hx]; [tauto | now apply Hfresh].
Qed.

Lemma call_conserves w i :
  consistent w ->
  (forall cb, In cb (register_callbacks [i]) -> ~ In cb (known_callbacks w)) ->
  forall x,
    occ x (resolved (effects_of (handle (transition fuel) i w)))
    + occ x (held (world_of (handle (transition fuel) i w)))
    = occ x (held w) + occ x (input_callbacks [i]).
Proof.
  intros H Hnew x.
  destruct (handle_conserves 7 i [] w (consistent_with_call w i H Hnew))
    as (w' & l & E & C).
  unfold fuel. rewrite E. unfold world_of, effects_of. cbn [fst snd].
  specialize (C x). unfold held. rewrite C. unfold held_with.
  rewrite !occ_app. destruct i; rewrite ?input_callbacks_register,
    ?input_callbacks_endSession, ?input_callbacks_nil, ?occ_nil; lia.
Qed.

Lemma timer_conserves w h :
  consistent w ->
  forall x,
    occ x (resolved (effects_of (step (TimerElapsed h) w)))
    + occ x (held (world_of (step (TimerElapsed h) w)))
    = occ x (held w).
Proof.
  intros H x.
  destruct (lookup_handle h (timers w)) as [c|] eqn:Hl.
  2:{ unfold step, bind, gets. rewrite Hl. reflexivity. }
  pose proof H as (Hr & Hsh & Hfr & Hu). unfold shape in Hsh.
  destruct (state w) eqn:Hs; try contradiction;
    try (destruct Hsh as (_ & _ & Ht & _); rewrite Ht in Hl; discriminate);
    try (destruct Hsh as (? & _ & _ & Ht & _); rewrite Ht in Hl; discriminate);
    try (destruct Hsh as (? & _ & Ht & _); rewrite Ht in Hl; discriminate);
    try (destruct Hsh as (_ & Ht & _); rewrite Ht in Hl; discriminate).
  destruct Hsh as (cb & h0 & c0 & Hcur & Hq & Ht & Hp & Hc & Hcar & Hnotin).
  rewrite (timer_elapsed_step w h c Hs Hq Hl).
  unfold world_of, effects_of. cbn [fst snd].
  unfold held at 2, held_with, current_callbacks. rewrite Hq, Hcur.
  counted.
Qed.

Lemma reply_conserves w id err body result pollingInterval :
  consistent w ->
  forall x,
    occ x (resolved (effects_of (step (TransportReplied id err body result
                                         pollingInterval) w)))
    + occ x (held (world_of (step (TransportReplied id err body result
                                     pollingInterval) w)))
    = occ x (held w).
Proof.
  intros H x.
  destruct (lookup_handle id (calls w)) as [k|] eqn:Hl.
  2:{ unfold step, bind, gets. rewrite Hl. reflexivity. }
  assert (Hkind : (exists request callback, response_completion k request callback)
                  \/ exists e b r cb, k = endSessionCompletion e b r cb).
  { destruct k as [rq cb|rq cb|e b r cb].
    - left. exists rq, cb. now left.
    - left. exists rq, cb. now right.
    - right. now exists e, b, r, cb. }
  destruct Hkind as [(request & callback & Hk)|(e & b & r & cb & ->)].
  2:{ unfold step, bind, gets. rewrite Hl. reflexivity. }
  destruct (consistent_answered w id k request callback H Hl Hk) as (_ & Hcar & _).
  assert (Hgone : occ x (held (set_calls (remove_handle id (calls w)) w))
                  = occ x (held w)).
  { unfold held, held_with, current_callbacks. destruct w as [s t q pt cur tm cl nh].
    fields. cbn [calls] in Hcar. now rewrite Hcar. }
  destruct (option_nat_eqb (_currentOperationCallback w) (Some callback)) eqn:E.
  2:{ rewrite (reply_stale w id k request callback)
        by (try assumption; intros E'; apply option_nat_eqb_eq in E'; congruence).
      exact Hgone. }
  apply option_nat_eqb_eq in E.
  pose proof H as (_ & Hsh & _ & _). unfold shape in Hsh.
  assert (Hcurrent :
            awaiting_response w id request callback ->
            carried_callbacks (calls w) = [] ->
            occ x (resolved (effects_of (step (TransportReplied id err body result
                                                 pollingInterval) w)))
            + occ x (held (world_of (step (TransportReplied id err body result
                                             pollingInterval) w)))
            = occ x (held w)).
  { intros Ha Hnone. rewrite Hnone in Hcar.
    pose proof Ha as (_ & _ & Hq & _).
    assert (Hw : occ x (held w) = occ x [callback]).
    { unfold held, held_with, current_callbacks. rewrite E, Hq, Hnone. reflexivity. }
    rewrite Hw. clear Hw Hgone.
    destruct err as [e|].
    { rewrite (reply_error w id request callback Ha). unfold ending.
      unfold world_of, effects_of. cbn [fst snd]. counted. }
    destruct body as [b|].
    2:{ rewrite (reply_no_body w id request callback Ha).
        unfold world_of, effects_of. cbn [fst snd]. counted. }
    destruct (status b) as [| |s|tag] eqn:Hst.
    4:{ rewrite (reply_not_a_string w id request callback Ha b tag) by assumption.
        unfold world_of, effects_of. cbn [fst snd]. counted. }
    { rewrite (reply_no_status w id request callback Ha) by auto.
      unfold world_of, effects_of. cbn [fst snd]. counted. }
    { rewrite (reply_no_status w id request callback Ha) by auto.
      unfold world_of, effects_of. cbn [fst snd]. counted. }
    destruct (string_dec (toLowerCase s) "assigned") as [E1|E1].
    { rewrite (reply_assigned w id request callback Ha b s) by assumption.
      unfold world_of, effects_of. cbn [fst snd]. counted. }
    destruct (string_dec (toLowerCase s) "assigning") as [E2|E2].
    { rewrite (reply_assigning w id request callback Ha b s) by assumption.
      unfold world_of, effects_of. cbn [fst snd]. counted. }
    destruct (string_dec (toLowerCase s) "failed") as [E3|E3].
    { rewrite (reply_failed w id request callback Ha b s) by assumption. unfold ending.
      unfold world_of, effects_of. cbn [fst snd]. counted. }
    rewrite (reply_unknown w id request callback Ha b s) by assumption. unfold ending.
    unfold world_of, effects_of. cbn [fst snd]. counted. }
  destruct (state w) eqn:Hs; try contradiction.
  - destruct Hsh as (Hnone & _). congruence.
  - destruct Hsh as (Hnone & _). congruence.
  - destruct Hsh as (cb & Hcb & Hq & _ & Hnone & _).
    apply Hcurrent; [|exact Hnone]. repeat split; auto. exists k. auto.
  - rewrite (reply_wedged w id k request callback) by assumption. exact Hgone.
  - destruct Hsh as (cb & h & c & Hcb & _ & _ & _ & _ & _ & Hnotin).
    exfalso. apply Hnotin. assert (cb = callback) by congruence. subst cb.
    apply (In_captured id k); [now apply lookup_handle_In|].
    destruct Hk; subst k; now left.
  - destruct Hsh as (cb & Hcb & Hq & _ & Hnone & _).
    apply Hcurrent; [|exact Hnone]. repeat split; auto. exists k. auto.
  - destruct Hsh as (Hnone & _). congruence.
Qed.

Lemma session_ended_conserves w id disconnectErr :
  consistent w ->
  forall x,
    occ x (resolved (effects_of (step (TransportSessionEnded id disconnectErr) w)))
    + occ x (held (world_of (step (TransportSessionEnded id disconnectErr) w)))
    = occ x (held w).
Proof.
  intros H x.
  destruct (lookup_handle id (calls w)) as [k|] eqn:Hl.
  2:{ unfold step, bind, gets. rewrite Hl. reflexivity. }
  destruct k as [rq cb|rq cb|e b r cb];
    try (unfold step, bind, gets; rewrite Hl; reflexivity).
  pose proof H as (Hr & Hsh & Hfr & Hu). unfold shape in Hsh.
  destruct (removed_callbacks id _ (calls w) (proj1 Hu) Hl)
    as (l1 & l2 & Hrem & Hcap & Hcar & Hcap' & Hcar').
  cbn [captured_callbacks carried_callbacks flat_map snd app] in Hcap, Hcar.
  assert (Hin : In cb (carried_callbacks (calls w))).
  { rewrite Hcar. apply in_or_app. right. now left. }
  destruct w as [s t q pt cur tm cl nh].
  cbn [state targetReplayState inputQueue _pollingTimer
       _currentOperationCallback timers calls nextHandle] in *.
  destruct s; try contradiction;
    try (destruct Hsh as (_ & _ & _ & Hnil); rewrite Hnil in Hin; contradiction);
    try (destruct Hsh as (? & _ & _ & _ & Hnil & _); rewrite Hnil in Hin; contradiction);
    try (destruct Hsh as (? & _ & _ & Hnil); rewrite Hnil in Hin; contradiction);
    try (destruct Hsh as (? & ? & ? & _ & _ & _ & _ & _ & Hnil & _);
         rewrite Hnil in Hin; contradiction).
  destruct Hsh as (-> & -> & cb0 & Hone). subst t.
  pose proof Hone as Hone'.
  rewrite Hcar in Hone. apply app_eq_single in Hone. destruct Hone as [Hc1 Hc2].
  rewrite Hc1, Hc2 in Hcar'. cbn [app] in Hcar'.
  rewrite Hc1, Hc2 in Hcar. cbn [app] in Hcar.
  set (w0 := mkWorld disconnected disconnected [] pt None [] (remove_handle id cl) nh).
  assert (Hw0 : consistent_with q w0).
  { unfold consistent_with, shape, w0.
    cbn [state targetReplayState inputQueue _pollingTimer
         _currentOperationCallback timers calls nextHandle register_callbacks flat_map].
    split; [reflexivity|]. split; [auto|]. split.
    - rewrite app_nil_r. eapply fresh_registers_sub; [|exact Hfr].
      intros y. rewrite Hcap, Hcap'. auto.
    - eapply handles_unique_removed; [exact Hu | reflexivity | reflexivity]. }
  destruct (replay_conserves 6 q w0 Hw0) as (w' & l & E & C).
  assert (Es : step (TransportSessionEnded id disconnectErr)
                 (mkWorld endingSession endingSession q pt None [] cl nh)
               = (w', [Transitioned endingSession disconnected;
                       Resolve cb (js_or e disconnectErr) b r] ++ l, Returned tt)).
  { deliver Hl. unfold fuel.
    change (transition 8) with (transitionWith (transition 7)).
    remember (transition 7) as tr eqn:Htr.
    unfold onSessionEnded, transitionWith.
    cbn -[processQueue forEach handle remove_handle]. fields.
    unfold processQueue, gets, modify, bind at 1 2. fields. subst tr.
    unfold w0 in E. rewrite E. reflexivity. }
  rewrite Es. unfold world_of, effects_of. cbn [fst snd].
  specialize (C x). unfold w0 in C. unfold held_with in C.
  rewrite current_callbacks_mk in C. cbn [calls inputQueue] in C.
  rewrite Hcar', input_callbacks_nil, app_nil_r in C. cbn [app] in C.
  unfold held at 2, held_with. rewrite current_callbacks_mk. cbn [calls inputQueue].
  rewrite Hcar, input_callbacks_nil, resolved_app, occ_app. cbn [app].
  change (resolved [Transitioned endingSession disconnected;
                    Resolve cb (js_or e disconnectErr) b r]) with [cb].
  rewrite (occ_cons x cb (input_callbacks q)). lia.
Qed.

(** Every event conserves the callbacks: what a call brings is called or
    held, and what is called is held no more. *)
Lemma step_conserves w ev :
  consistent w ->
  admissible ev w ->
  forall x,
    occ x (resolved (effects_of (step ev w))) + occ x (held (world_of (step ev w)))
    = occ x (held w) + occ x (call_callbacks [ev]).
Proof.
  intros H Ha x. destruct ev as [rq rb cb|cb|h|id e b r pi|id r pi|id de].
  - apply (call_conserves w (input_register rq rb cb) H). intros y [<-|[]]. exact Ha.
  - apply (call_conserves w (input_endSession None None None cb) H). intros y [].
  - rewrite timer_conserves by exact H. cbn [call_callbacks flat_map]. rewrite occ_nil. lia.
  - rewrite reply_conserves by exact H. cbn [call_callbacks flat_map]. rewrite occ_nil. lia.
  - rewrite unserialisable_as_no_body, reply_conserves by exact H.
    cbn [call_callbacks flat_map]. rewrite occ_nil. lia.
  - rewrite session_ended_conserves by exact H. cbn [call_callbacks flat_map].
    rewrite occ_nil. lia.
Qed.

Lemma call_callbacks_cons ev evs :
  call_callbacks (ev :: evs) = call_callbacks [ev] ++ call_callbacks evs.
Proof. unfold call_callbacks. cbn [flat_map]. now rewrite app_nil_r. Qed.

Lemma reachable_run evs :
  forall w, reachable w -> admissible_run evs w -> reachable (fst (run evs w)).
Proof.
  induction evs as [|ev evs IH]; intros w Hw Ha.
  - exact Hw.
  - destruct Ha as [Ha Hrest]. specialize (IH _ (reachable_step w ev Hw Ha) Hrest).
    cbn [run]. unfold world_of in IH.
    destruct (step ev w) as [[w1 l1] o]. cbn [fst] in IH.
    destruct (run evs w1) as [w2 l2]. exact IH.
Qed.

Lemma run_conserves evs :
  forall w,
    reachable w ->
    admissible_run evs w ->
    forall x,
      occ x (resolved (snd (run evs w))) + occ x (held (fst (run evs w)))
      = occ x (held w) + occ x (call_callbacks evs).
Proof.
  induction evs as [|ev evs IH]; intros w Hw Ha x.
  - cbn [run fst snd resolved flat_map call_callbacks]. rewrite occ_nil. lia.
  - destruct Ha as [Ha Hrest].
    pose proof (step_conserves w ev (reachable_consistent w Hw) Ha x) as C1.
    pose proof (IH _ (reachable_step w ev Hw Ha) Hrest x) as C2.
    rewrite call_callbacks_cons, occ_app.
    cbn [run]. unfold world_of, effects_of in *.
    destruct (step ev w) as [[w1 l1] o]. cbn [fst snd] in *.
    destruct (run evs w1) as [w2 l2]. cbn [fst snd] in *.
    rewrite resolved_app, occ_app. lia.
Qed.

(** X11. Callbacks are neither lost nor called twice.  In a run from the start
    in which every [register] brings a callback of its own, each callback
    is, as often as it was passed to [register] or [endSession], either
    called or still held by the machine: as the callback of the attempt in
    flight, as the callback a teardown in progress will call, or as the
    callback of a deferred call. *)
Theorem callbacks_conserved :
  forall evs x,
    admissible_run evs initial ->
    occ x (resolved (snd (run evs initial))) + occ x (held (fst (run evs initial)))
    = occ x (call_callbacks evs).
Proof.
  intros evs x Ha.
  now rewrite (run_conserves evs initial reachable_initial Ha x).
Qed.

Lemma callbacks_conserved_witness :
  occ 7 (resolved (snd (run [Register (mkRequest "dev") (request_body 0) 7;
                             EndSession 9] initial)))
  + occ 7 (held (fst (run [Register (mkRequest "dev") (request_body 0) 7;
                           EndSession 9] initial)))
  = occ 7 (call_callbacks [Register (mkRequest "dev") (request_body 0) 7; EndSession 9]).
Proof.
  apply (callbacks_conserved
           [Register (mkRequest "dev") (request_body 0) 7; EndSession 9] 7).
  simpl. split; [intros []|auto].
Defined.

(** X12. When the machine is back in [disconnected] or [idle], every callback
    passed to [register] or [endSession] has been called, as often as it
    was passed: the callbacks called are a permutation of those passed. *)
Theorem all_callbacks_called_at_rest :
  forall evs,
    admissible_run evs initial ->
    state (fst (run evs initial)) = disconnected
    \/ state (fst (run evs initial)) = idle ->
    Permutation (resolved (snd (run evs initial))) (call_callbacks evs).
Proof.
  intros evs Ha Hs.
  pose proof (reachable_run evs initial reachable_initial Ha) as Hw.
  apply reachable_consistent in Hw. destruct Hw as (_ & Hsh & _ & _).
  unfold shape in Hsh.
  assert (Hheld : held (fst (run evs initial)) = []).
  { unfold held, held_with, current_callbacks.
    destruct Hs as [Hs|Hs]; rewrite Hs in Hsh;
      destruct Hsh as (-> & -> & _ & ->); reflexivity. }
  apply (Permutation_count_occ Nat.eq_dec). intros x.
  pose proof (run_conserves evs initial reachable_initial Ha x) as C.
  rewrite Hheld in C. change (occ x (held initial)) with 0 in C.
  rewrite occ_nil in C. unfold occ in C. lia.
Qed.

Lemma all_callbacks_called_at_rest_witness :
  Permutation
    (resolved (snd (run [Register (mkRequest "dev") (request_body 0) 7;
                         EndSession 9;
                         TransportSessionEnded 1 None] initial)))
    (call_callbacks [Register (mkRequest "dev") (request_body 0) 7;
                     EndSession 9;
                     TransportSessionEnded 1 None]).
Proof.
  apply (all_callbacks_called_at_rest
           [Register (mkRequest "dev") (request_body 0) 7;
            EndSession 9;
            TransportSessionEnded 1 None]).
  - simpl. split; [intros []|auto].
  - left. reflexivity.
Defined.

(** ** Distinct callbacks *)

Lemma register_callbacks_register rq rb cb q :
  register_callbacks (input_register rq rb cb :: q) = cb :: register_callbacks q.
Proof. reflexivity. Qed.

Lemma register_callbacks_endSession e b r cb q :
  register_callbacks (input_endSession e b r cb :: q) = register_callbacks q.
Proof. reflexivity. Qed.

Lemma register_callbacks_nil : register_callbacks [] = [].
Proof. reflexivity. Qed.

Lemma captured_ending h e b r cb :
  captured_callbacks [(h, endSessionCompletion e b r cb)] = [].
Proof. reflexivity. Qed.

Lemma captured_registration h rq cb :
  captured_callbacks [(h, registrationCompletion rq cb)] = [cb].
Proof. reflexivity. Qed.

Lemma captured_query h rq cb :
  captured_callbacks [(h, queryCompletion rq cb)] = [cb].
Proof. reflexivity. Qed.

Lemma known_callbacks_with w : known_callbacks w = known_with [] w.
Proof. reflexivity. Qed.

(** Spells out the callbacks known in the worlds of a goal [In y _] and of
    the hypothesis [Hy]. *)
Ltac spelled Hy :=
  unfold known_with in *; rewrite ?current_callbacks_mk in *;
  autorewrite with world in Hy;
  cbn [state targetReplayState inputQueue _pollingTimer
       _currentOperationCallback timers calls nextHandle] in Hy;
  fields;
  rewrite ?captured_app, ?register_callbacks_app, ?register_callbacks_register,
    ?register_callbacks_endSession, ?register_callbacks_nil, ?captured_ending,
    ?captured_registration, ?captured_query in Hy;
  rewrite ?captured_app, ?register_callbacks_app, ?register_callbacks_register,
    ?register_callbacks_endSession, ?register_callbacks_nil, ?captured_ending,
    ?captured_registration, ?captured_query;
  repeat (progress (cbn [app In] in Hy; rewrite ?in_app_iff in Hy));
  repeat (progress (cbn [app In]; rewrite ?in_app_iff)).

(** Handling one input makes no callback known that was not known or
    brought by the input. *)
Lemma handle_known n i batch w :
  consistent_with (i :: batch) w ->
  exists w' l,
    handle (transition (S n)) i w = (w', l, Returned tt)
    /\ incl (known_with batch w') (known_with (i :: batch) w).
Proof.
  intros (Hr & Hsh & Hfr & Hu). unfold shape in Hsh.
  destruct w as [s t q pt cur tm cl nh].
  cbn [state targetReplayState inputQueue _pollingTimer
       _currentOperationCallback timers calls nextHandle] in *.
  destruct s; try contradiction.
  - destruct Hsh as (-> & -> & -> & Hcar). subst t.
    destruct i as [request requestBody callback|err body result callback]; handled;
      intros y Hy; spelled Hy; tauto.
  - destruct Hsh as (-> & -> & -> & Hcar). subst t.
    destruct i as [request requestBody callback|err body result callback]; handled;
      intros y Hy; spelled Hy; tauto.
  - destruct Hsh as (cb & -> & -> & -> & Hcar & Hcount). subst t.
    destruct i as [request requestBody callback|err body result callback]; handled;
      intros y Hy; spelled Hy; tauto.
  - exists (mkWorld responseReceived t (q ++ [i]) pt cur tm cl nh), [].
    split; [destruct i; reflexivity|]. intros y Hy. destruct i; spelled Hy; tauto.
  - destruct Hsh as (cb & h & c & -> & -> & -> & -> & Hc & Hcar & Hnotin). subst t.
    destruct i as [request requestBody callback|err body result callback]; handled;
      intros y Hy; spelled Hy; tauto.
  - destruct Hsh as (cb & -> & -> & -> & Hcar & Hcount). subst t.
    destruct i as [request requestBody callback|err body result callback]; handled;
      intros y Hy; spelled Hy; tauto.
  - exists (mkWorld endingSession t (q ++ [i]) pt cur tm cl nh), [].
    split; [destruct i; reflexivity|]. intros y Hy. destruct i; spelled Hy; tauto.
Qed.

Lemma replay_known n batch :
  forall w,
    consistent_with batch w ->
    exists w' l,
      forEach (handle (transition (S n))) batch w = (w', l, Returned tt)
      /\ incl (known_callbacks w') (known_with batch w).
Proof.
  induction batch as [|i batch IH]; intros w H.
  - exists w, []. split; [reflexivity|]. apply incl_refl.
  - destruct (handle_consistent n i batch w H) as (w1 & l1 & E1 & H1).
    destruct (handle_known n i batch w H) as (w1' & l1' & E1' & K1).
    rewrite E1 in E1'. injection E1' as <- <-.
    destruct (IH w1 H1) as (w2 & l2 & E2 & K2).
    exists w2, (l1 ++ l2). split.
    + cbn [forEach]. unfold bind. rewrite E1, E2. reflexivity.
    + eapply incl_tran; eassumption.
Qed.

Lemma captured_removed id (cl : list (nat * Completion)) :
  incl (captured_callbacks (remove_handle id cl)) (captured_callbacks cl).
Proof.
  intros y Hy. unfold captured_callbacks, remove_handle in *.
  apply in_flat_map in Hy. destruct Hy as (p & Hp & Hy). apply filter_In in Hp.
  apply in_flat_map. exists p. tauto.
Qed.

(** A world that holds no callback the world before an answer did not
    hold. *)
Lemma known_shrunk w w' id :
  incl (current_callbacks w') (current_callbacks w) ->
  incl (captured_callbacks (calls w')) (captured_callbacks (remove_handle id (calls w))) ->
  incl (register_callbacks (inputQueue w')) (register_callbacks (inputQueue w)) ->
  incl (known_callbacks w') (known_callbacks w).
Proof.
  intros H1 H2 H3 y Hy. unfold known_callbacks in *. rewrite !in_app_iff in *.
  destruct Hy as [Hy|[Hy|Hy]]; auto.
  right. left. now apply (captured_removed id), H2.
Qed.

Lemma call_known w i :
  consistent w ->
  (forall cb, In cb (register_callbacks [i]) -> ~ In cb (known_callbacks w)) ->
  incl (known_callbacks (world_of (handle (transition fuel) i w)))
    (known_callbacks w ++ input_callbacks [i]).
Proof.
  intros H Hnew.
  destruct (handle_known 7 i [] w (consistent_with_call w i H Hnew))
    as (w' & l & E & K).
  unfold fuel. rewrite E. unfold world_of. cbn [fst].
  intros y Hy. apply K in Hy. unfold known_callbacks, known_with in *.
  destruct i; rewrite ?register_callbacks_register, ?register_callbacks_endSession,
    ?register_callbacks_nil, ?input_callbacks_register, ?input_callbacks_endSession,
    ?input_callbacks_nil in *;
    rewrite ?in_app_iff in *; cbn [In] in *; tauto.
Qed.

Lemma timer_known w h :
  consistent w ->
  incl (known_callbacks (world_of (step (TimerElapsed h) w))) (known_callbacks w).
Proof.
  intros H.
  destruct (lookup_handle h (timers w)) as [c|] eqn:Hl.
  2:{ unfold step, bind, gets. rewrite Hl. apply incl_refl. }
  pose proof H as (Hr & Hsh & Hfr & Hu). unfold shape in Hsh.
  destruct (state w) eqn:Hs; try contradiction;
    try (destruct Hsh as (_ & _ & Ht & _); rewrite Ht in Hl; discriminate);
    try (destruct Hsh as (? & _ & _ & Ht & _); rewrite Ht in Hl; discriminate);
    try (destruct Hsh as (? & _ & Ht & _); rewrite Ht in Hl; discriminate);
    try (destruct Hsh as (_ & Ht & _); rewrite Ht in Hl; discriminate).
  destruct Hsh as (cb & h0 & c0 & Hcur & Hq & Ht & Hp & Hc & Hcar & Hnotin).
  rewrite (timer_elapsed_step w h c Hs Hq Hl).
  assert (c = c0).
  { apply lookup_handle_In in Hl. rewrite Ht in Hl. destruct Hl as [Hl|[]]. congruence. }
  subst c0. unfold world_of. cbn [fst]. intros y Hy.
  unfold known_callbacks, current_callbacks in *.
  cbn [_currentOperationCallback calls inputQueue] in Hy.
  rewrite Hcur, Hq in *. rewrite captured_app, captured_query, Hc in Hy.
  rewrite ?in_app_iff in *. cbn [In] in *. tauto.
Qed.

Lemma reply_known w id err body result pollingInterval :
  consistent w ->
  incl (known_callbacks
          (world_of (step (TransportReplied id err body result pollingInterval) w)))
    (known_callbacks w).
Proof.
  intros H.
  destruct (lookup_handle id (calls w)) as [k|] eqn:Hl.
  2:{ unfold step, bind, gets. rewrite Hl. apply incl_refl. }
  assert (Hkind : (exists request callback, response_completion k request callback)
                  \/ exists e b r cb, k = endSessionCompletion e b r cb).
  { destruct k as [rq cb|rq cb|e b r cb].
    - left. exists rq, cb. now left.
    - left. exists rq, cb. now right.
    - right. now exists e, b, r, cb. }
  destruct Hkind as [(request & callback & Hk)|(e & b & r & cb & ->)].
  2:{ unfold step, bind, gets. rewrite Hl. apply incl_refl. }
  assert (Hgone : incl (known_callbacks (set_calls (remove_handle id (calls w)) w))
                    (known_callbacks w)).
  { apply (known_shrunk w _ id); destruct w; apply incl_refl. }
  destruct (option_nat_eqb (_currentOperationCallback w) (Some callback)) eqn:E.
  2:{ rewrite (reply_stale w id k request callback)
        by (try assumption; intros E'; apply option_nat_eqb_eq in E'; congruence).
      exact Hgone. }
  apply option_nat_eqb_eq in E.
  pose proof H as (_ & Hsh & _ & _). unfold shape in Hsh.
  assert (Hcurrent :
            awaiting_response w id request callback ->
            incl (known_callbacks
                    (world_of (step (TransportReplied id err body result
                                       pollingInterval) w)))
              (known_callbacks w)).
  { intros Ha.
    assert (Hshrunk : forall s t pt cur tm l nh,
              incl (match cur with Some cb => [cb] | None => [] end) [callback] ->
              incl (captured_callbacks l)
                (captured_callbacks (remove_handle id (calls w))) ->
              incl (known_callbacks (mkWorld s t [] pt cur tm l nh)) (known_callbacks w)).
    { intros s t pt cur tm l nh H1 H2. apply (known_shrunk w _ id).
      - unfold current_callbacks at 2. rewrite E. exact H1.
      - exact H2.
      - intros y []. }
    assert (Hend : forall e b r cb,
              incl (captured_callbacks
                      (remove_handle id (calls w)
                         ++ [(nextHandle w, endSessionCompletion e b r cb)]))
                (captured_callbacks (remove_handle id (calls w)))).
    { intros e b r cb. rewrite captured_app, captured_ending, app_nil_r.
      apply incl_refl. }
    destruct err as [e|].
    { rewrite (reply_error w id request callback Ha). unfold ending.
      apply Hshrunk; [intros y []|apply Hend]. }
    destruct body as [b|].
    2:{ rewrite (reply_no_body w id request callback Ha).
        apply Hshrunk; apply incl_refl. }
    destruct (status b) as [| |s|tag] eqn:Hst.
    4:{ rewrite (reply_not_a_string w id request callback Ha b tag) by assumption.
        apply Hshrunk; apply incl_refl. }
    { rewrite (reply_no_status w id request callback Ha) by auto.
      apply Hshrunk; apply incl_refl. }
    { rewrite (reply_no_status w id request callback Ha) by auto.
      apply Hshrunk; apply incl_refl. }
    destruct (string_dec (toLowerCase s) "assigned") as [E1|E1].
    { rewrite (reply_assigned w id request callback Ha b s) by assumption.
      apply Hshrunk; [intros y []|apply incl_refl]. }
    destruct (string_dec (toLowerCase s) "assigning") as [E2|E2].
    { rewrite (reply_assigning w id request callback Ha b s) by assumption.
      apply Hshrunk; apply incl_refl. }
    destruct (string_dec (toLowerCase s) "failed") as [E3|E3].
    { rewrite (reply_failed w id request callback Ha b s) by assumption. unfold ending.
      apply Hshrunk; [intros y []|apply Hend]. }
    rewrite (reply_unknown w id request callback Ha b s) by assumption. unfold ending.
    apply Hshrunk; [intros y []|apply Hend]. }
  destruct (state w) eqn:Hs; try contradiction.
  - destruct Hsh as (Hnone & _). congruence.
  - destruct Hsh as (Hnone & _). congruence.
  - destruct Hsh as (cb & Hcb & Hq & _).
    apply Hcurrent. repeat split; auto. exists k. auto.
  - rewrite (reply_wedged w id k request callback) by assumption. exact Hgone.
  - destruct Hsh as (cb & h & c & Hcb & _ & _ & _ & _ & _ & Hnotin).
    exfalso. apply Hnotin. assert (cb = callback) by congruence. subst cb.
    apply (In_captured id k); [now apply lookup_handle_In|].
    destruct Hk; subst k; now left.
  - destruct Hsh as (cb & Hcb & Hq & _).
    apply Hcurrent. repeat split; auto. exists k. auto.
  - destruct Hsh as (Hnone & _). congruence.
Qed.

Lemma session_ended_known w id disconnectErr :
  consistent w ->
  incl (known_callbacks (world_of (step (TransportSessionEnded id disconnectErr) w)))
    (known_callbacks w).
Proof.
  intros H.
  destruct (lookup_handle id (calls w)) as [k|] eqn:Hl.
  2:{ unfold step, bind, gets. rewrite Hl. apply incl_refl. }
  destruct k as [rq cb|rq cb|e b r cb];
    try (unfold step, bind, gets; rewrite Hl; apply incl_refl).
  pose proof H as (Hr & Hsh & Hfr & Hu). unfold shape in Hsh.
  destruct (removed_callbacks id _ (calls w) (proj1 Hu) Hl)
    as (l1 & l2 & Hrem & Hcap & Hcar & Hcap' & Hcar').
  cbn [captured_callbacks carried_callbacks flat_map snd app] in Hcap, Hcar.
  assert (Hin : In cb (carried_callbacks (calls w))).
  { rewrite Hcar. apply in_or_app. right. now left. }
  destruct w as [s t q pt cur tm cl nh].
  cbn [state targetReplayState inputQueue _pollingTimer
       _currentOperationCallback timers calls nextHandle] in *.
  destruct s; try contradiction;
    try (destruct Hsh as (_ & _ & _ & Hnil); rewrite Hnil in Hin; contradiction);
    try (destruct Hsh as (? & _ & _ & _ & Hnil & _); rewrite Hnil in Hin; contradiction);
    try (destruct Hsh as (? & _ & _ & Hnil); rewrite Hnil in Hin; contradiction);
    try (destruct Hsh as (? & ? & ? & _ & _ & _ & _ & _ & Hnil & _);
         rewrite Hnil in Hin; contradiction).
  destruct Hsh as (-> & -> & cb0 & Hone). subst t.
  set (w0 := mkWorld disconnected disconnected [] pt None [] (remove_handle id cl) nh).
  assert (Hw0 : consistent_with q w0).
  { unfold consistent_with, shape, w0.
    cbn [state targetReplayState inputQueue _pollingTimer
         _currentOperationCallback timers calls nextHandle register_callbacks flat_map].
    rewrite Hcar in Hone. apply app_eq_single in Hone. destruct Hone as [Hc1 Hc2].
    rewrite Hc1, Hc2 in Hcar'. cbn [app] in Hcar'.
    split; [reflexivity|]. split; [auto|]. split.
    - rewrite app_nil_r. eapply fresh_registers_sub; [|exact Hfr].
      intros y. rewrite Hcap, Hcap'. auto.
    - eapply handles_unique_removed; [exact Hu | reflexivity | reflexivity]. }
  destruct (replay_known 6 q w0 Hw0) as (w' & l & E & K).
  assert (Es : step (TransportSessionEnded id disconnectErr)
                 (mkWorld endingSession endingSession q pt None [] cl nh)
               = (w', [Transitioned endingSession disconnected;
                       Resolve cb (js_or e disconnectErr) b r] ++ l, Returned tt)).
  { deliver Hl. unfold fuel.
    change (transition 8) with (transitionWith (transition 7)).
    remember (transition 7) as tr eqn:Htr.
    unfold onSessionEnded, transitionWith.
    cbn -[processQueue forEach handle remove_handle]. fields.
    unfold processQueue, gets, modify, bind at 1 2. fields. subst tr.
    unfold w0 in E. rewrite E. reflexivity. }
  rewrite Es. unfold world_of. cbn [fst].
  intros y Hy. apply K in Hy. unfold w0, known_with, known_callbacks in *.
  rewrite ?current_callbacks_mk in *. cbn [calls inputQueue] in *.
  rewrite register_callbacks_nil in Hy. rewrite ?in_app_iff in *. cbn [In] in *.
  destruct Hy as [[]|[Hy|[Hy|[]]]]; auto.
  right. left. now apply (captured_removed id).
Qed.

(** No event makes a callback known that was not known before or brought
    by the event. *)
Lemma step_known w ev :
  consistent w ->
  admissible ev w ->
  incl (known_callbacks (world_of (step ev w))) (known_callbacks w ++ call_callbacks [ev]).
Proof.
  intros H Ha. destruct ev as [rq rb cb|cb|h|id e b r pi|id r pi|id de].
  - apply (call_known w (input_register rq rb cb) H). intros y [<-|[]]. exact Ha.
  - apply (call_known w (input_endSession None None None cb) H). intros y [].
  - apply incl_appl. now apply timer_known.
  - apply incl_appl. now apply reply_known.
  - apply incl_appl. rewrite unserialisable_as_no_body. now apply reply_known.
  - apply incl_appl. now apply session_ended_known.
Qed.

(** Callers that never pass a callback twice pass to every [register] a
    callback of its own. *)
Lemma distinct_admissible evs :
  forall w seen,
    reachable w ->
    incl (known_callbacks w) seen ->
    NoDup (seen ++ call_callbacks evs) ->
    admissible_run evs w.
Proof.
  induction evs as [|ev evs IH]; intros w seen Hw Hk Hnd.
  - exact I.
  - rewrite call_callbacks_cons, app_assoc in Hnd.
    assert (Ha : admissible ev w).
    { destruct ev as [rq rb cb|cb|h|id e b r pi|id r pi|id de]; try exact I.
      cbn [admissible]. intros Hin. apply Hk in Hin.
      apply NoDup_app_remove_r in Hnd. cbn [call_callbacks flat_map app] in Hnd.
      apply NoDup_remove_2 in Hnd. apply Hnd. now rewrite app_nil_r. }
    split; [exact Ha|].
    apply (IH _ (seen ++ call_callbacks [ev])).
    + now apply reachable_step.
    + intros y Hy. apply (step_known w ev (reachable_consistent w Hw) Ha) in Hy.
      rewrite in_app_iff in *. destruct Hy as [Hy|Hy]; auto.
    + exact Hnd.
Qed.

(** X13. When the callers pass pairwise distinct callbacks, no callback is
    called twice, and only callbacks that were passed are called. *)
Theorem no_callback_called_twice :
  forall evs,
    NoDup (call_callbacks evs) ->
    NoDup (resolved (snd (run evs initial)))
    /\ incl (resolved (snd (run evs initial))) (call_callbacks evs).
Proof.
  intros evs Hnd.
  assert (Ha : admissible_run evs initial).
  { apply (distinct_admissible evs initial []);
      [exact reachable_initial | intros y [] | exact Hnd]. }
  assert (Hle : forall x, occ x (resolved (snd (run evs initial)))
                          <= occ x (call_callbacks evs)).
  { intros x. pose proof (run_conserves evs initial reachable_initial Ha x) as C.
    change (occ x (held initial)) with 0 in C. lia. }
  split.
  - apply (NoDup_count_occ Nat.eq_dec). intros x.
    rewrite (NoDup_count_occ Nat.eq_dec) in Hnd. specialize (Hnd x). specialize (Hle x).
    unfold occ in Hle. lia.
  - intros x Hin. apply (count_occ_In Nat.eq_dec) in Hin.
    apply (count_occ_In Nat.eq_dec). specialize (Hle x). unfold occ in Hle. lia.
Qed.

Lemma no_callback_called_twice_witness :
  NoDup (resolved (snd (run [Register (mkRequest "dev") (request_body 0) 7;
                             EndSession 9;
                             TransportSessionEnded 1 None] initial))).
Proof.
  refine (proj1 (no_callback_called_twice
                   [Register (mkRequest "dev") (request_body 0) 7;
                    EndSession 9;
                    TransportSessionEnded 1 None] _)).
  simpl. repeat constructor; simpl; intros H; intuition discriminate.
Defined.

(** ** Whatever the callers do *)

Lemma reachable_any_run evs :
  forall w, reachable_any w -> reachable_any (fst (run evs w)).
Proof.
  induction evs as [|ev evs IH]; intros w Hw.
  - exact Hw.
  - specialize (IH _ (reachable_any_step w ev Hw)).
    cbn [run]. unfold world_of in IH.
    destruct (step ev w) as [[w1 l1] o]. cbn [fst] in IH.
    destruct (run evs w1) as [w2 l2]. exact IH.
Qed.

(** X15. After any run from the start, with callbacks shared or not and with
    responses, timers and session ends in any order, the handles of the
    outstanding transport calls are distinct, and calls are queued only
    while the machine is in a state that defers them. *)
Theorem any_run_settled :
  forall evs,
    handles_unique (fst (run evs initial)) /\ settled (fst (run evs initial)).
Proof.
  intros evs. apply reachable_any_settled, reachable_any_run, reachable_any_initial.
Qed.

Lemma teardown_with_deferred_calls_witness :
  exists rest,
    snd (run ([Register (mkRequest "dev") (request_body 0) 8; EndSession 10]
              ++ [TransportSessionEnded 1 None])
           (mkWorld endingSession endingSession [] None None []
              [(1, endSessionCompletion None None None 9)] 2))
    = Transitioned endingSession disconnected
        :: Resolve 9 (js_or None None) None None :: rest.
Proof.
  apply (teardown_with_deferred_calls
           (mkWorld endingSession endingSession [] None None []
              [(1, endSessionCompletion None None None 9)] 2)
           1 None None None 9 None
           [Register (mkRequest "dev") (request_body 0) 8; EndSession 10]).
  - reflexivity.
  - reflexivity.
  - repeat constructor.
Defined.
